(** * Argo CD: project policy helpers and the manifest generation core

    A shallow embedding of
    - [pkg/apis/application/v1alpha1/app_project_types.go]
      (source, destination and group/kind permission, project validation,
      roles, groups and policies, JWT token lookup, removal and
      normalisation),
    - [reposerver/repository/repository.go]
      (manifest cache probing, failure memoisation, referenced sources,
      chart revision resolution, the plugin promise, the deferred
      releases, fetching of revisions),
    together with the properties stated about them. *)

From Stdlib Require Import ZArith Lia List String Ascii Bool Permutation Sorted.
From stdpp Require Import base option list gmap strings pretty sorting.

Local Open Scope string_scope.
Local Open Scope Z_scope.

(** ** Go strings *)

(** [strings.HasPrefix(s, "!")]. *)
Definition hasBangPrefix (s : string) : bool :=
  match s with
  | String "!" _ => true
  | _ => false
  end.

(** [s[1:]] on a non-empty string; the empty string stays empty (the
    source only slices after [isDenyPattern] has seen a first byte). *)
Definition string_tail (s : string) : string :=
  match s with
  | String _ rest => rest
  | EmptyString => EmptyString
  end.

(** [strings.TrimPrefix(s, "!")]. *)
Definition trimBangPrefix (s : string) : string :=
  if hasBangPrefix s then string_tail s else s.

(** ** Types of pkg/apis/application/v1alpha1 *)

Record GroupKind := mkGroupKind { Group : string; Kind : string }.

Module HelmFileParameter.
Record t := mk { Name : string; Path : string }.
End HelmFileParameter.

(** [ApplicationSourceHelm], the two fields that may name a referenced
    source. *)
Record ApplicationSourceHelm := mkApplicationSourceHelm {
  ValueFiles : list string;
  FileParameters : list HelmFileParameter.t
}.

(** [ApplicationSource]; [Helm] is a pointer, [None] when nil. *)
Record ApplicationSource := mkApplicationSource {
  RepoURL : string;
  Path : string;
  TargetRevision : string;
  Chart : string;
  Ref : string;
  Helm : option ApplicationSourceHelm
}.

Record JWTToken := mkJWTToken {
  IssuedAt : Z;
  ExpiresAt : Z;
  ID : string
}.

Record ProjectRole := mkProjectRole {
  Name : string;
  JWTTokens : list JWTToken
}.

(** A Go slice that may be [nil] is an [option]: [None] is the nil slice,
    [Some []] the empty non-nil one. *)
Definition slice_len {A} (s : option (list A)) : nat :=
  match s with None => 0%nat | Some l => length l end.

Definition slice_items {A} (s : option (list A)) : list A :=
  match s with None => [] | Some l => l end.

Record AppProjectSpec := mkAppProjectSpec {
  SourceRepos : list string;
  Roles : list ProjectRole;
  ClusterResourceWhitelist : option (list GroupKind);
  ClusterResourceBlacklist : option (list GroupKind);
  NamespaceResourceWhitelist : option (list GroupKind);
  NamespaceResourceBlacklist : option (list GroupKind)
}.

(** [AppProjectStatus.JWTTokensByRole] is a Go map that may be nil; the
    [JWTTokens] wrapper struct has the single field [Items]. *)
Record AppProjectStatus := mkAppProjectStatus {
  JWTTokensByRole : option (gmap string (list JWTToken))
}.

Record AppProject := mkAppProject {
  Spec : AppProjectSpec;
  Status : AppProjectStatus
}.

Definition isDenyPattern (pattern : string) : bool := hasBangPrefix pattern.

Section ProjectPolicy.

(** [glob.Match(pattern, text, separators...)] of util/glob and
    [git.NormalizeGitURL] of util/git are outside this file; so is
    [isResourceInList]. *)
Variable glob_Match : string -> string -> list ascii -> bool.
Variable NormalizeGitURL : string -> string.
Variable isResourceInList : GroupKind -> list GroupKind -> bool.

Definition globMatch (pattern val : string) (allowNegation : bool)
    (separators : list ascii) : bool :=
  if allowNegation && isDenyPattern pattern then
    negb (glob_Match (string_tail pattern) val separators)
  else if String.eqb pattern "*" then true
  else glob_Match pattern val separators.

(** The [normalized] pattern computed at the head of the loop body of
    [IsSourcePermitted]. *)
Definition normalizeSourceRepo (repoURL : string) : string :=
  if isDenyPattern repoURL
  then "!" +:+ NormalizeGitURL (trimBangPrefix repoURL)
  else NormalizeGitURL repoURL.

(** The [for _, repoURL := range proj.Spec.SourceRepos] loop, with the
    accumulator [anySourceMatched] and the early [return false]. *)
Fixpoint sourceReposLoop (repos : list string) (srcNormalized : string)
    (anySourceMatched : bool) : bool :=
  match repos with
  | [] => anySourceMatched
  | repoURL :: rest =>
      let normalized := normalizeSourceRepo repoURL in
      let matched := globMatch normalized srcNormalized true ["/"%char] in
      if matched then sourceReposLoop rest srcNormalized true
      else if isDenyPattern normalized then false
      else sourceReposLoop rest srcNormalized anySourceMatched
  end.

Definition IsSourcePermitted (proj : AppProject) (src : ApplicationSource) : bool :=
  let srcNormalized := NormalizeGitURL (RepoURL src) in
  sourceReposLoop (SourceRepos (Spec proj)) srcNormalized false.

(** [len(l) != 0 && isResourceInList(res, l)]. *)
Definition listedIn (res : GroupKind) (l : option (list GroupKind)) : bool :=
  negb (Nat.eqb (slice_len l) 0) && isResourceInList res (slice_items l).

Definition is_nil {A} (s : option (list A)) : bool :=
  match s with None => true | Some _ => false end.

Definition IsGroupKindPermitted (proj : AppProject) (gk : GroupKind)
    (namespaced : bool) : bool :=
  let res := mkGroupKind (Group gk) (Kind gk) in
  if namespaced then
    let namespaceWhitelist := NamespaceResourceWhitelist (Spec proj) in
    let namespaceBlacklist := NamespaceResourceBlacklist (Spec proj) in
    let isWhiteListed := is_nil namespaceWhitelist || listedIn res namespaceWhitelist in
    let isBlackListed := listedIn res namespaceBlacklist in
    isWhiteListed && negb isBlackListed
  else
    let clusterWhitelist := ClusterResourceWhitelist (Spec proj) in
    let clusterBlacklist := ClusterResourceBlacklist (Spec proj) in
    let isWhiteListed := listedIn res clusterWhitelist in
    let isBlackListed := listedIn res clusterBlacklist in
    isWhiteListed && negb isBlackListed.

(** The glob body of a deny entry, as the loop hands it to [glob.Match]:
    the entry without its leading ['!'], normalised. *)
Definition denyBody (entry : string) : string :=
  NormalizeGitURL (trimBangPrefix entry).

Definition denyBodyMatches (entry : string) (src : ApplicationSource) : bool :=
  glob_Match (denyBody entry) (NormalizeGitURL (RepoURL src)) ["/"%char].

Lemma normalizeSourceRepo_deny entry :
  isDenyPattern entry = true ->
  normalizeSourceRepo entry = String "!" (denyBody entry).
Proof. intros H. unfold normalizeSourceRepo, denyBody. now rewrite H. Qed.

Lemma globMatch_deny entry src :
  isDenyPattern entry = true ->
  globMatch (normalizeSourceRepo entry) (NormalizeGitURL (RepoURL src)) true ["/"%char]
  = negb (denyBodyMatches entry src).
Proof.
  intros H. rewrite (normalizeSourceRepo_deny _ H).
  unfold globMatch, denyBodyMatches. reflexivity.
Qed.

Lemma sourceReposLoop_deny_hit repos entry src acc :
  In entry repos ->
  isDenyPattern entry = true ->
  denyBodyMatches entry src = true ->
  sourceReposLoop repos (NormalizeGitURL (RepoURL src)) acc = false.
Proof.
  intros Hin Hdeny Hm. revert acc.
  induction repos as [|r rest IH]; intros acc; [destruct Hin|].
  cbn [sourceReposLoop].
  destruct Hin as [->|Hin].
  - rewrite (globMatch_deny _ _ Hdeny), Hm. cbn.
    now rewrite (normalizeSourceRepo_deny _ Hdeny).
  - destruct (globMatch (normalizeSourceRepo r) _ _ _); [now apply IH|].
    destruct (isDenyPattern (normalizeSourceRepo r)); [reflexivity|now apply IH].
Qed.

Lemma sourceReposLoop_all_deny_miss repos src acc :
  (forall e, In e repos -> isDenyPattern e = true /\ denyBodyMatches e src = false) ->
  sourceReposLoop repos (NormalizeGitURL (RepoURL src)) acc
  = match repos with [] => acc | _ => true end.
Proof.
  revert acc. induction repos as [|r rest IH]; intros acc Hall; [reflexivity|].
  cbn [sourceReposLoop].
  destruct (Hall r (or_introl eq_refl)) as [Hd Hm].
  rewrite (globMatch_deny _ _ Hd), Hm. cbn [negb].
  rewrite IH by (intros e He; apply Hall; now right).
  now destruct rest.
Qed.

(** C8. [IsSourcePermitted] is [false] as soon as some entry of
    [Spec.SourceRepos] is a deny pattern whose (normalised) glob body
    matches the normalised source URL, whatever the other entries are; a
    deny entry whose body does not match is a positive match of the loop;
    and a non-empty list made only of deny patterns, none of which matches,
    permits the source. *)
Theorem IsSourcePermitted_deny_patterns (proj : AppProject) (src : ApplicationSource) :
  ((exists entry, In entry (SourceRepos (Spec proj))
      /\ isDenyPattern entry = true /\ denyBodyMatches entry src = true) ->
   IsSourcePermitted proj src = false)
  /\ (forall entry, isDenyPattern entry = true ->
        denyBodyMatches entry src = false ->
        globMatch (normalizeSourceRepo entry) (NormalizeGitURL (RepoURL src))
          true ["/"%char] = true)
  /\ (SourceRepos (Spec proj) <> [] ->
      (forall e, In e (SourceRepos (Spec proj)) ->
         isDenyPattern e = true /\ denyBodyMatches e src = false) ->
      IsSourcePermitted proj src = true).
Proof.
  split; [|split].
  - intros (entry & Hin & Hd & Hm). unfold IsSourcePermitted.
    now apply sourceReposLoop_deny_hit with entry.
  - intros entry Hd Hm. now rewrite globMatch_deny, Hm.
  - intros Hne Hall. unfold IsSourcePermitted.
    rewrite sourceReposLoop_all_deny_miss by assumption.
    destruct (SourceRepos (Spec proj)); [contradiction|reflexivity].
Qed.

(** C9. A nil namespace whitelist permits exactly the group/kinds that are
    not black-listed, an empty non-nil one permits none; a nil or empty
    cluster whitelist permits no group/kind. *)
Theorem IsGroupKindPermitted_nil_vs_empty (proj : AppProject) (gk : GroupKind) :
  (NamespaceResourceWhitelist (Spec proj) = None ->
     IsGroupKindPermitted proj gk true
     = negb (listedIn gk (NamespaceResourceBlacklist (Spec proj)))
     /\ (isResourceInList gk (slice_items (NamespaceResourceBlacklist (Spec proj))) = false ->
         IsGroupKindPermitted proj gk true = true))
  /\ (NamespaceResourceWhitelist (Spec proj) = Some [] ->
     IsGroupKindPermitted proj gk true = false)
  /\ (slice_len (ClusterResourceWhitelist (Spec proj)) = 0%nat ->
     IsGroupKindPermitted proj gk false = false).
Proof.
  destruct gk as [g k]. unfold IsGroupKindPermitted. cbn [Group Kind].
  split; [|split].
  - intros ->. split; [reflexivity|].
    intros Hb. cbn. unfold listedIn. rewrite Hb.
    now rewrite andb_false_r.
  - intros ->. reflexivity.
  - intros H0. unfold listedIn at 1. now rewrite H0.
Qed.

End ProjectPolicy.

(** ** JWT token normalisation *)

(** [strconv.FormatInt(n, 10)]. *)
Definition FormatInt (n : Z) : string := pretty n.

(** The body of both id-filling loops of [NormalizeJWTTokens]:
    [if token.ID == "" { token.ID = strconv.FormatInt(token.IssuedAt, 10) }]. *)
Definition fillTokenID (token : JWTToken) : JWTToken :=
  if String.eqb (ID token) "" then
    mkJWTToken (IssuedAt token) (ExpiresAt token) (FormatInt (IssuedAt token))
  else token.

Definition fillRoleTokenIDs (role : ProjectRole) : ProjectRole :=
  mkProjectRole (Name role) (fillTokenID <$> JWTTokens role).

(** [for _, token := range append(tokens1, tokens2...) { tokensMap[token.ID] = token }]. *)
Definition tokensMapOf (l : list JWTToken) : gmap string JWTToken :=
  foldl (fun m token => <[ID token := token]> m) ∅ l.

(** Go leaves the iteration order of [for _, v := range tokensMap]
    unspecified.  The order is chosen here by a list of numbers: each one
    selects (modulo the number of entries left) the entry visited next;
    when the numbers run out the rest is visited as it stands.  Every
    order is obtained for some list. *)
Fixpoint pick_order {A} (choices : list nat) (l : list A) : list A :=
  match choices with
  | [] => l
  | c :: cs =>
      let i := (c mod length l)%nat in
      match l !! i with
      | Some x => x :: pick_order cs (delete i l)
      | None => l
      end
  end.

(** The order [sort.Slice] establishes with
    [less(i, j) = tokens[i].IssuedAt > tokens[j].IssuedAt]: no element is
    followed by one issued strictly later. *)
Definition issuedNotBefore (a b : JWTToken) : Prop := IssuedAt b <= IssuedAt a.

#[local] Instance issuedNotBefore_dec a b : Decision (issuedNotBefore a b).
Proof. unfold issuedNotBefore. apply _. Defined.

#[local] Instance issuedNotBefore_total : Total issuedNotBefore.
Proof. intros a b. unfold issuedNotBefore. lia. Qed.

#[local] Instance issuedNotBefore_trans : Transitive issuedNotBefore.
Proof. intros a b c. unfold issuedNotBefore. lia. Qed.

(** [sort.Slice] is not stable; which of the sorted arrangements comes out
    depends on the order it is given, which [pick_order] already leaves
    free, so a fixed sorting function stands for it. *)
Definition sortSliceByIssuedAtDesc (tokens : list JWTToken) : list JWTToken :=
  merge_sort issuedNotBefore tokens.

Definition jwtTokensCombine (choices : list nat) (tokens1 tokens2 : list JWTToken)
    : list JWTToken :=
  let tokensMap := tokensMapOf (tokens1 ++ tokens2) in
  let tokens := pick_order choices (map_to_list tokensMap).*2 in
  sortSliceByIssuedAtDesc tokens.

(** [proj.Status.JWTTokensByRole[name].Items]; a nil map and a missing key
    both read as the nil slice. *)
Definition statusItems (status : option (gmap string (list JWTToken)))
    (name : string) : list JWTToken :=
  match status with
  | None => []
  | Some m => default [] (m !! name)
  end.

Definition statusLookup (status : option (gmap string (list JWTToken)))
    (name : string) : option (list JWTToken) :=
  match status with
  | None => None
  | Some m => m !! name
  end.

Section JWT.

(** [mapOrder roleIndex] fixes the iteration order of the [tokensMap] that
    [jwtTokensCombine] builds for the role at [roleIndex]. *)
Variable mapOrder : nat -> list nat.

(** The [for roleIndex, role := range proj.Spec.Roles] loop of
    [syncJWTTokenBetweenStatusAndSpec], threading the status map; it
    returns the updated roles and the updated map.  The two in-place
    [sort.Slice] calls and the [cmp.Equal] tests only feed the boolean
    result [needSync]: the slices they sort are replaced by [tokens] in the
    same iteration.  The boolean result is not part of this embedding. *)
Fixpoint syncRoles (roleIndex : nat) (roles : list ProjectRole)
    (status : option (gmap string (list JWTToken)))
    : list ProjectRole * option (gmap string (list JWTToken)) :=
  match roles with
  | [] => ([], status)
  | role :: rest =>
      let tokensInSpec := JWTTokens role in
      let tokensByRole := match status with None => ∅ | Some m => m end in
      let tokensInStatus := statusItems status (Name role) in
      let tokens := jwtTokensCombine (mapOrder roleIndex) tokensInStatus tokensInSpec in
      let '(rest', status') :=
        syncRoles (S roleIndex) rest (Some (<[Name role := tokens]> tokensByRole)) in
      (mkProjectRole (Name role) tokens :: rest', status')
  end.

(** The closing loop: [delete(proj.Status.JWTTokensByRole, role)] for every
    key that is not the name of a role. *)
Definition dropUnknownRoles (roles : list ProjectRole)
    (status : option (gmap string (list JWTToken)))
    : option (gmap string (list JWTToken)) :=
  match status with
  | None => None
  | Some m =>
      Some (filter (fun kv => fst kv ∈ Name <$> roles) m)
  end.

Definition withRolesAndTokens (proj : AppProject) (roles : list ProjectRole)
    (status : option (gmap string (list JWTToken))) : AppProject :=
  let s := Spec proj in
  mkAppProject
    (mkAppProjectSpec (SourceRepos s) roles
       (ClusterResourceWhitelist s) (ClusterResourceBlacklist s)
       (NamespaceResourceWhitelist s) (NamespaceResourceBlacklist s))
    (mkAppProjectStatus status).

Definition syncJWTTokenBetweenStatusAndSpec (proj : AppProject) : AppProject :=
  let '(roles, status) :=
    syncRoles 0 (Roles (Spec proj)) (JWTTokensByRole (Status proj)) in
  withRolesAndTokens proj roles (dropUnknownRoles (Roles (Spec proj)) status).

Definition NormalizeJWTTokens (proj : AppProject) : AppProject :=
  let roles : list ProjectRole := fillRoleTokenIDs <$> Roles (Spec proj) in
  let status : option (gmap string (list JWTToken)) :=
    fmap (M := option) (fmap (M := gmap string) (fmap (M := list) fillTokenID))
      (JWTTokensByRole (Status proj)) in
  syncJWTTokenBetweenStatusAndSpec (withRolesAndTokens proj roles status).

(** *** Facts about the pieces *)

Lemma pick_order_Permutation {A} (choices : list nat) (l : list A) :
  pick_order choices l ≡ₚ l.
Proof.
  revert l. induction choices as [|c cs IH]; intros l; cbn; [done|].
  destruct (l !! _) as [x|] eqn:E; [|done].
  rewrite IH. symmetry. by apply delete_Permutation.
Qed.

(** Every order of visit is the choice of some list. *)
Lemma pick_order_any {A} (l l' : list A) :
  l ≡ₚ l' -> exists choices, pick_order choices l = l'.
Proof.
  revert l. induction l' as [|x l' IH]; intros l Hperm.
  - apply Permutation_nil_r in Hperm as ->. by exists [].
  - assert (x ∈ l) as Hin by (rewrite Hperm; apply elem_of_cons; by left).
    apply list_elem_of_lookup in Hin as [i Hi].
    pose proof (lookup_lt_Some _ _ _ Hi) as Hlt.
    destruct (IH (delete i l)) as [cs Hcs].
    { apply (Permutation_cons_inv (a := x)).
      by rewrite <- (delete_Permutation _ _ _ Hi). }
    exists (i :: cs). cbn. rewrite Nat.mod_small by done. by rewrite Hi, Hcs.
Qed.

Lemma tokensMapOf_snoc l token :
  tokensMapOf (l ++ [token]) = <[ID token := token]> (tokensMapOf l).
Proof. unfold tokensMapOf. by rewrite foldl_app. Qed.

Lemma tokensMapOf_lookup_Some l k v :
  tokensMapOf l !! k = Some v -> ID v = k /\ v ∈ l.
Proof.
  induction l as [|x l IH] using rev_ind.
  { unfold tokensMapOf. cbn. by rewrite lookup_empty. }
  rewrite tokensMapOf_snoc. destruct (decide (ID x = k)) as [<-|Hne].
  - rewrite lookup_insert_eq. intros [= <-]. split; [done|].
    apply elem_of_app. right. by apply list_elem_of_singleton.
  - rewrite lookup_insert_ne by done. intros H. destruct (IH H) as [? ?].
    split; [done|]. apply elem_of_app. by left.
Qed.

Lemma tokensMapOf_lookup_is_Some l token :
  token ∈ l -> is_Some (tokensMapOf l !! ID token).
Proof.
  induction l as [|x l IH] using rev_ind; [by intros ?%elem_of_nil|].
  rewrite tokensMapOf_snoc. intros Hin.
  destruct (decide (ID x = ID token)) as [->|Hne].
  - rewrite lookup_insert_eq. eauto.
  - rewrite lookup_insert_ne by done. apply IH.
    apply elem_of_app in Hin as [Hin|Hin]; [done|].
    apply list_elem_of_singleton in Hin. congruence.
Qed.

Lemma elem_of_jwtTokensCombine choices tokens1 tokens2 token :
  token ∈ jwtTokensCombine choices tokens1 tokens2
  <-> tokensMapOf (tokens1 ++ tokens2) !! ID token = Some token.
Proof.
  unfold jwtTokensCombine, sortSliceByIssuedAtDesc.
  rewrite merge_sort_Permutation, pick_order_Permutation.
  rewrite list_elem_of_fmap. split.
  - intros ([k v] & -> & Hkv). apply elem_of_map_to_list in Hkv. cbn.
    by destruct (tokensMapOf_lookup_Some _ _ _ Hkv) as [-> _].
  - intros H. exists (ID token, token). split; [done|].
    by apply elem_of_map_to_list.
Qed.

Lemma tokensMapOf_ids l :
  ID <$> (map_to_list (tokensMapOf l)).*2 = (map_to_list (tokensMapOf l)).*1.
Proof.
  assert (Forall (fun kv => ID (snd kv) = fst kv) (map_to_list (tokensMapOf l))) as H.
  { apply Forall_forall. intros [k v] Hkv. apply elem_of_map_to_list in Hkv.
    apply (tokensMapOf_lookup_Some _ _ _ Hkv). }
  induction H as [|[k v] kvs Hkv _ IH]; [done|]. cbn in *. by rewrite Hkv, IH.
Qed.

Lemma NoDup_jwtTokensCombine choices tokens1 tokens2 :
  NoDup (ID <$> jwtTokensCombine choices tokens1 tokens2).
Proof.
  unfold jwtTokensCombine, sortSliceByIssuedAtDesc.
  rewrite merge_sort_Permutation, pick_order_Permutation, tokensMapOf_ids.
  apply NoDup_fst_map_to_list.
Qed.

Lemma StronglySorted_jwtTokensCombine choices tokens1 tokens2 :
  StronglySorted issuedNotBefore (jwtTokensCombine choices tokens1 tokens2).
Proof. apply StronglySorted_merge_sort; apply _. Qed.

(** What "the union of [prior], deduplicated by token id and sorted by
    [IssuedAt] in descending order" says of a list [tokens]. *)
Definition combinedTokens (prior tokens : list JWTToken) : Prop :=
  StronglySorted issuedNotBefore tokens
  /\ NoDup (ID <$> tokens)
  /\ (forall token, token ∈ tokens -> token ∈ prior)
  /\ (forall token, token ∈ prior -> exists token', token' ∈ tokens /\ ID token' = ID token).

Lemma jwtTokensCombine_combined choices tokens1 tokens2 :
  combinedTokens (tokens1 ++ tokens2) (jwtTokensCombine choices tokens1 tokens2).
Proof.
  split; [apply StronglySorted_jwtTokensCombine|].
  split; [apply NoDup_jwtTokensCombine|]. split.
  - intros token H%elem_of_jwtTokensCombine.
    apply (tokensMapOf_lookup_Some _ _ _ H).
  - intros token [v Hv]%tokensMapOf_lookup_is_Some.
    destruct (tokensMapOf_lookup_Some _ _ _ Hv) as [Hid _].
    exists v. split; [|done]. apply elem_of_jwtTokensCombine. by rewrite Hid.
Qed.

Lemma statusItems_insert_ne m name name' tokens :
  name <> name' ->
  statusItems (Some (<[name := tokens]> m)) name' = statusItems (Some m) name'.
Proof. intros Hne. cbn. by rewrite lookup_insert_ne. Qed.

Lemma statusItems_None_empty name :
  statusItems None name = statusItems (Some ∅) name.
Proof. cbn. by rewrite lookup_empty. Qed.

Lemma syncRoles_status_other roleIndex roles status name :
  name ∉ Name <$> roles ->
  statusLookup (syncRoles roleIndex roles status).2 name = statusLookup status name.
Proof.
  revert roleIndex status. induction roles as [|role rest IH];
    intros roleIndex status Hnot; [done|].
  cbn [syncRoles]. rewrite fmap_cons, not_elem_of_cons in Hnot.
  destruct Hnot as [Hne Hnot].
  specialize (IH (S roleIndex)
    (Some (<[Name role := jwtTokensCombine (mapOrder roleIndex)
                            (statusItems status (Name role)) (JWTTokens role)]>
             match status with None => ∅ | Some m => m end)) Hnot).
  destruct (syncRoles (S roleIndex) rest _) as [rest' status'].
  cbn in IH |- *. rewrite IH, lookup_insert_ne by done.
  destruct status; [done|by rewrite lookup_empty].
Qed.

Lemma syncRoles_at roleIndex roles status j role :
  NoDup (Name <$> roles) ->
  roles !! j = Some role ->
  let tokens := jwtTokensCombine (mapOrder (roleIndex + j))
                  (statusItems status (Name role)) (JWTTokens role) in
  (syncRoles roleIndex roles status).1 !! j = Some (mkProjectRole (Name role) tokens)
  /\ statusLookup (syncRoles roleIndex roles status).2 (Name role) = Some tokens.
Proof.
  revert roleIndex status j. induction roles as [|r rest IH];
    intros roleIndex status j Hnd Hj; [done|].
  rewrite fmap_cons in Hnd. apply NoDup_cons in Hnd as [Hfresh Hnd].
  cbn [syncRoles].
  set (tokens0 := jwtTokensCombine (mapOrder roleIndex)
                    (statusItems status (Name r)) (JWTTokens r)).
  set (status1 := Some (<[Name r := tokens0]>
                          match status with None => ∅ | Some m => m end)).
  destruct j as [|j].
  - injection Hj as ->. rewrite Nat.add_0_r.
    pose proof (syncRoles_status_other (S roleIndex) rest status1 (Name role) Hfresh) as Ho.
    destruct (syncRoles (S roleIndex) rest status1) as [rest' status'].
    cbn in Ho |- *. split; [done|]. rewrite Ho. subst status1. cbn.
    by rewrite lookup_insert_eq.
  - cbn in Hj. destruct (IH (S roleIndex) status1 j Hnd Hj) as [H1 H2].
    assert (Name r <> Name role) as Hne.
    { intros Heq. apply Hfresh. rewrite Heq.
      apply list_elem_of_fmap. exists role. split; [done|].
      by apply list_elem_of_lookup_2 with j. }
    assert (statusItems status1 (Name role) = statusItems status (Name role)) as Hst.
    { subst status1. rewrite statusItems_insert_ne by done.
      destruct status; [done|by rewrite <- statusItems_None_empty]. }
    rewrite Hst in H1, H2.
    replace (S roleIndex + j)%nat with (roleIndex + S j)%nat in H1, H2 by lia.
    destruct (syncRoles (S roleIndex) rest status1) as [rest' status'].
    cbn in H1, H2 |- *. done.
Qed.

Lemma statusLookup_dropUnknownRoles roles status name :
  statusLookup (dropUnknownRoles roles status) name
  = if decide (name ∈ Name <$> roles) then statusLookup status name else None.
Proof.
  destruct status as [m|]; cbn; [|by case_decide].
  rewrite map_lookup_filter. destruct (m !! name) as [v|]; cbn.
  - case_decide; [by rewrite option_guard_True|by rewrite option_guard_False].
  - by case_decide.
Qed.

Lemma statusItems_fill status name :
  statusItems (fmap (M := option)
      (fmap (M := gmap string) (fmap (M := list) fillTokenID)) status) name
  = fillTokenID <$> statusItems status name.
Proof.
  destruct status as [m|]; cbn; [|done].
  rewrite lookup_fmap. by destruct (m !! name).
Qed.

(** C10, as the code has it.  For a project whose role names are pairwise
    distinct, after [NormalizeJWTTokens] every role of [Spec.Roles] keeps its
    position and name, its [JWTTokens] and the [Items] recorded for its name
    in [Status.JWTTokensByRole] are one and the same list, and that list is
    the union of the role's prior status and spec tokens (empty ids first
    replaced by the decimal [IssuedAt]), without two tokens of the same id,
    sorted by [IssuedAt] in descending order; and the status map has no key
    that is not the name of a role. *)
Theorem NormalizeJWTTokens_synchronises (proj : AppProject) :
  NoDup (Name <$> Roles (Spec proj)) ->
  let proj' := NormalizeJWTTokens proj in
  (forall i role, Roles (Spec proj) !! i = Some role ->
     exists tokens,
       Roles (Spec proj') !! i = Some (mkProjectRole (Name role) tokens)
       /\ statusLookup (JWTTokensByRole (Status proj')) (Name role) = Some tokens
       /\ combinedTokens
            ((fillTokenID <$> statusItems (JWTTokensByRole (Status proj)) (Name role))
               ++ (fillTokenID <$> JWTTokens role))
            tokens)
  /\ (forall name, is_Some (statusLookup (JWTTokensByRole (Status proj')) name) ->
        name ∈ Name <$> Roles (Spec proj)).
Proof.
  intros Hnd proj'. subst proj'.
  unfold NormalizeJWTTokens, syncJWTTokenBetweenStatusAndSpec.
  cbn [withRolesAndTokens Spec Status Roles JWTTokensByRole].
  set (roles := fillRoleTokenIDs <$> Roles (Spec proj)).
  set (status := fmap _ (JWTTokensByRole (Status proj))).
  assert (Name <$> roles = Name <$> Roles (Spec proj)) as Hnames.
  { subst roles. rewrite <- list_fmap_compose. by apply list_fmap_ext. }
  assert (NoDup (Name <$> roles)) as Hnd' by by rewrite Hnames.
  pose proof (fun j role => syncRoles_at 0 roles status j role Hnd') as Hat.
  destruct (syncRoles 0 roles status) as [roles' status'] eqn:Hsync.
  cbn [withRolesAndTokens Spec Status Roles JWTTokensByRole]. split.
  - intros i role Hi.
    assert (roles !! i = Some (fillRoleTokenIDs role)) as Hi'.
    { subst roles. by rewrite list_lookup_fmap, Hi. }
    destruct (Hat i _ Hi') as [H1 H2]. cbn in H1, H2.
    eexists. split; [exact H1|]. split.
    + rewrite statusLookup_dropUnknownRoles, decide_True; [exact H2|].
      rewrite Hnames. apply list_elem_of_fmap. exists role. split; [done|].
      by apply list_elem_of_lookup_2 with i.
    + subst status. rewrite statusItems_fill. apply jwtTokensCombine_combined.
  - intros name. rewrite statusLookup_dropUnknownRoles.
    case_decide as Hin; [by rewrite <- Hnames|by intros [? ?]].
Qed.

End JWT.

(** ** Looking up roles and tokens *)

(** The errors of the lookups; the comments give the message. *)
Inductive ProjectError :=
| RoleNotFound (name : string)
    (* role '%s' does not exist in project '%s' *)
| TokenNotFound (roleName : string) (issuedAt : Z)
    (* JWT token for role '%s' issued at '%d' does not exist in project '%s' *)
| TokenIDUsed (id : string)
    (* Token id '%s' has been used. *).

(** [for i, x := range l { if p(x) { return &x, i, nil } }]: the first
    element that passes the test, with its index; [i] is the index of the
    head of [l]. *)
Fixpoint rangeFind {A} (p : A -> bool) (l : list A) (i : nat) : option (A * nat) :=
  match l with
  | [] => None
  | x :: rest => if p x then Some (x, i) else rangeFind p rest (S i)
  end.

(** [GetRoleByName]; the error stands for [(nil, -1, err)]. *)
Definition GetRoleByName (proj : AppProject) (name : string)
    : ProjectRole * nat + ProjectError :=
  match rangeFind (fun role => String.eqb name (Name role)) (Roles (Spec proj)) 0 with
  | Some found => inl found
  | None => inr (RoleNotFound name)
  end.

(** The two loops that [GetJWTTokenFromSpec] and [GetJWTToken] run over
    their list of tokens: by id when [id != ""], then by issue time when
    [issuedAt != -1]. *)
Definition findJWTToken (tokens : list JWTToken) (issuedAt : Z) (id : string)
    : option (JWTToken * nat) :=
  let byID :=
    if negb (String.eqb id "")
    then rangeFind (fun token => String.eqb id (ID token)) tokens 0
    else None in
  match byID with
  | Some found => Some found
  | None =>
      if negb (issuedAt =? -1)
      then rangeFind (fun token => issuedAt =? IssuedAt token) tokens 0
      else None
  end.

Definition GetJWTTokenFromSpec (proj : AppProject) (roleName : string)
    (issuedAt : Z) (id : string) : JWTToken * nat + ProjectError :=
  match GetRoleByName proj roleName with
  | inr err => inr err
  | inl (role, _) =>
      match findJWTToken (JWTTokens role) issuedAt id with
      | Some found => inl found
      | None => inr (TokenNotFound (Name role) issuedAt)
      end
  end.

Definition GetJWTToken (proj : AppProject) (roleName : string)
    (issuedAt : Z) (id : string) : JWTToken * nat + ProjectError :=
  match findJWTToken (statusItems (JWTTokensByRole (Status proj)) roleName)
          issuedAt id with
  | Some found => inl found
  | None => inr (TokenNotFound roleName issuedAt)
  end.

(** [ValidateJWTTokenID]: [None] is the nil error. *)
Definition ValidateJWTTokenID (proj : AppProject) (roleName id : string)
    : option ProjectError :=
  match GetRoleByName proj roleName with
  | inr err => Some err
  | inl (role, _) =>
      if String.eqb id "" then None
      else if existsb (fun token => String.eqb id (ID token)) (JWTTokens role)
           then Some (TokenIDUsed id)
           else None
  end.

(** [x] is at index [i] of [l], has the property, and nothing before it
    has. *)
Definition firstWith {A} (P : A -> Prop) (l : list A) (i : nat) (x : A) : Prop :=
  l !! i = Some x /\ P x
  /\ forall j y, (j < i)%nat -> l !! j = Some y -> ~ P y.

Lemma rangeFind_Some {A} (p : A -> bool) (l : list A) (k : nat) (x : A) (i : nat) :
  rangeFind p l k = Some (x, i) <->
  exists j, i = (k + j)%nat /\ firstWith (fun y => p y = true) l j x.
Proof.
  revert k. induction l as [|a l IH]; intros k; cbn [rangeFind].
  { split; [done|]. by intros (j & _ & Hj & _). }
  destruct (p a) eqn:Hp.
  - split.
    + intros [= <- <-]. exists 0%nat. split; [lia|].
      split; [done|]. split; [done|]. intros; lia.
    + intros (j & -> & Hj & Hx & Hmin). destruct j as [|j].
      * cbn in Hj. injection Hj as <-. do 2 f_equal. lia.
      * exfalso. apply (Hmin 0%nat a); [lia|done|done].
  - rewrite IH. split; intros (j & -> & Hj & Hx & Hmin).
    + exists (S j). split; [lia|]. split; [done|]. split; [done|].
      intros [|j'] y Hlt Hy; cbn in Hy.
      * injection Hy as <-. by rewrite Hp.
      * apply (Hmin j' y); [lia|done].
    + destruct j as [|j].
      * cbn in Hj. injection Hj as ->. congruence.
      * exists j. split; [lia|]. split; [done|]. split; [done|].
        intros j' y Hlt Hy. apply (Hmin (S j') y); [lia|done].
Qed.

Lemma rangeFind_None {A} (p : A -> bool) (l : list A) (k : nat) :
  rangeFind p l k = None <-> forall x, x ∈ l -> p x = false.
Proof.
  revert k. induction l as [|a l IH]; intros k; cbn [rangeFind].
  { split; [|done]. intros _ x Hx. by apply elem_of_nil in Hx. }
  destruct (p a) eqn:Hp.
  - split; [done|]. intros H. specialize (H a (list_elem_of_here _ _)). congruence.
  - rewrite IH. split.
    + intros H x Hx. apply elem_of_cons in Hx as [->|Hx]; [done|by apply H].
    + intros H x Hx. apply H. by apply list_elem_of_further.
Qed.

Lemma rangeFind_firstWith {A} (p : A -> bool) (P : A -> Prop) (l : list A) x i :
  (forall y, p y = true <-> P y) ->
  rangeFind p l 0 = Some (x, i) <-> firstWith P l i x.
Proof.
  intros Hp. rewrite rangeFind_Some. split.
  - intros (j & -> & Hj & Hx & Hmin). cbn. split; [done|].
    split; [by apply Hp|]. intros j' y Hlt Hy HP. apply Hp in HP.
    by apply (Hmin j' y Hlt Hy).
  - intros (Hi & Hx & Hmin). exists i. split; [done|]. split; [done|].
    split; [by apply Hp|]. intros j y Hlt Hy E.
    apply (Hmin j y Hlt Hy). by apply Hp.
Qed.

Lemma rangeFind_none_with {A} (p : A -> bool) (P : A -> Prop) (l : list A) k :
  (forall y, p y = true <-> P y) ->
  rangeFind p l k = None <-> forall x, x ∈ l -> ~ P x.
Proof.
  intros Hp. rewrite rangeFind_None. split; intros H x Hx.
  - intros HP. apply Hp in HP. by rewrite (H x Hx) in HP.
  - destruct (p x) eqn:E; [|done]. exfalso. apply (H x Hx). by apply Hp.
Qed.

Lemma eqb_name (name : string) (role : ProjectRole) :
  String.eqb name (Name role) = true <-> Name role = name.
Proof. rewrite String.eqb_eq. split; congruence. Qed.

Lemma eqb_id (id : string) (token : JWTToken) :
  String.eqb id (ID token) = true <-> ID token = id.
Proof. rewrite String.eqb_eq. split; congruence. Qed.

Lemma eqb_issuedAt (issuedAt : Z) (token : JWTToken) :
  (issuedAt =? IssuedAt token) = true <-> IssuedAt token = issuedAt.
Proof. rewrite Z.eqb_eq. split; congruence. Qed.

Lemma GetRoleByName_inl (proj : AppProject) (name : string) role i :
  GetRoleByName proj name = inl (role, i) <->
  firstWith (fun r => Name r = name) (Roles (Spec proj)) i role.
Proof.
  unfold GetRoleByName. rewrite <- (rangeFind_firstWith _ _ _ _ _ (eqb_name name)).
  destruct (rangeFind _ _ _) as [[r k]|]; split; congruence.
Qed.

(** X1. [GetRoleByName] returns the first role of [Spec.Roles] that bears
    the name, with its index, and fails exactly when no role bears it. *)
Theorem GetRoleByName_first_match (proj : AppProject) (name : string) :
  (forall role i,
     GetRoleByName proj name = inl (role, i) <->
     firstWith (fun r => Name r = name) (Roles (Spec proj)) i role)
  /\ (forall e, GetRoleByName proj name = inr e <->
        e = RoleNotFound name /\ name ∉ Name <$> Roles (Spec proj)).
Proof.
  split; [apply GetRoleByName_inl|]. unfold GetRoleByName.
  - intros e.
    destruct (rangeFind _ _ _) as [[r k]|] eqn:Hf.
    + split; [done|]. intros [_ Hnot]. exfalso. apply Hnot.
      apply (proj1 (rangeFind_firstWith _ (fun r => Name r = name) _ _ _
                      (eqb_name name))) in Hf as (Hk & Hr & _).
      apply list_elem_of_fmap. exists r. split; [done|].
      by apply list_elem_of_lookup_2 with k.
    + pose proof (proj1 (rangeFind_none_with _ (fun r => Name r = name) _ _
                           (eqb_name name)) Hf) as Hnone. split.
      * intros [= <-]. split; [done|]. intros Hin.
        apply list_elem_of_fmap in Hin as (r & -> & Hr). by apply (Hnone r).
      * by intros [-> _].
Qed.

Lemma findJWTToken_Some tokens issuedAt id token i :
  findJWTToken tokens issuedAt id = Some (token, i) <->
    (id <> "" /\ firstWith (fun t => ID t = id) tokens i token)
    \/ ((id = "" \/ forall t, t ∈ tokens -> ID t <> id)
        /\ issuedAt <> -1
        /\ firstWith (fun t => IssuedAt t = issuedAt) tokens i token).
Proof.
  unfold findJWTToken.
  rewrite <- (rangeFind_firstWith _ _ _ _ _ (eqb_id id)).
  rewrite <- (rangeFind_firstWith _ _ _ _ _ (eqb_issuedAt issuedAt)).
  rewrite <- (rangeFind_none_with _ _ tokens 0%nat (eqb_id id)).
  destruct (String.eqb_spec id "") as [->|Hid]; cbn [negb].
  - destruct (Z.eqb_spec issuedAt (-1)) as [->|Hat]; cbn [negb].
    + split; [done|]. intros [[? _]|(_ & ? & _)]; done.
    + split; [intros H; right; by eauto|].
      intros [[? _]|(_ & _ & ?)]; done.
  - destruct (rangeFind (fun token0 => String.eqb id (ID token0)) tokens 0)
      as [[t k]|] eqn:Hf.
    + split; [intros H; left; by split|].
      intros [[_ ?]|([?|?] & _)]; done.
    + destruct (Z.eqb_spec issuedAt (-1)) as [->|Hat]; cbn [negb].
      * split; [done|]. intros [[_ ?]|(_ & ? & _)]; done.
      * split; [intros H; right; by eauto|].
        intros [[_ ?]|(_ & _ & ?)]; done.
Qed.

Lemma findJWTToken_None tokens issuedAt id :
  findJWTToken tokens issuedAt id = None <->
    (id = "" \/ forall t, t ∈ tokens -> ID t <> id)
    /\ (issuedAt = -1 \/ forall t, t ∈ tokens -> IssuedAt t <> issuedAt).
Proof.
  unfold findJWTToken.
  rewrite <- (rangeFind_none_with _ _ tokens 0%nat (eqb_id id)).
  rewrite <- (rangeFind_none_with _ _ tokens 0%nat (eqb_issuedAt issuedAt)).
  destruct (String.eqb_spec id "") as [->|Hid]; cbn [negb];
    destruct (Z.eqb_spec issuedAt (-1)) as [->|Hat]; cbn [negb];
    try destruct (rangeFind (fun token0 => String.eqb id (ID token0)) tokens 0)
      as [[t k]|] eqn:Hf; try tauto; try (split; [done|]); try (intros [[?|?] _]; done);
    try (intros [_ [?|?]]; done).
  all: split; [by auto|]; intros [_ [?|?]]; done.
Qed.

(** X2. [GetJWTToken] searches the status entry of the role by id first: it
    returns the first token bearing a non-empty [id]; only when [id] is
    empty or borne by no token does it return the first token issued at
    [issuedAt], provided [issuedAt] is not -1.  It fails exactly when
    neither search applies or finds a token. *)
Theorem GetJWTToken_id_before_issue_time (proj : AppProject) (roleName : string)
    (issuedAt : Z) (id : string) :
  let items := statusItems (JWTTokensByRole (Status proj)) roleName in
  (forall token i,
     GetJWTToken proj roleName issuedAt id = inl (token, i) <->
       (id <> "" /\ firstWith (fun t => ID t = id) items i token)
       \/ ((id = "" \/ forall t, t ∈ items -> ID t <> id)
           /\ issuedAt <> -1
           /\ firstWith (fun t => IssuedAt t = issuedAt) items i token))
  /\ (forall e, GetJWTToken proj roleName issuedAt id = inr e <->
        e = TokenNotFound roleName issuedAt
        /\ (id = "" \/ forall t, t ∈ items -> ID t <> id)
        /\ (issuedAt = -1 \/ forall t, t ∈ items -> IssuedAt t <> issuedAt)).
Proof.
  intros items. subst items. unfold GetJWTToken. split.
  - intros token i. rewrite <- findJWTToken_Some.
    destruct (findJWTToken _ _ _) as [[t k]|]; split; congruence.
  - intros e. rewrite <- findJWTToken_None.
    destruct (findJWTToken _ _ _) as [[t k]|]; split; try done.
    + by intros [_ ?].
    + by intros [= <-].
    + by intros [-> _].
Qed.

Lemma statusItems_lookup status name items :
  statusLookup status name = Some items -> statusItems status name = items.
Proof. destruct status as [m|]; cbn; [|done]. by intros ->. Qed.

Lemma NormalizeJWTTokens_in_sync (mapOrder : nat -> list nat) (proj : AppProject)
    (i : nat) (role : ProjectRole) :
  NoDup (Name <$> Roles (Spec proj)) ->
  Roles (Spec proj) !! i = Some role ->
  exists tokens,
    Roles (Spec (NormalizeJWTTokens mapOrder proj)) !! i
    = Some (mkProjectRole (Name role) tokens)
    /\ statusLookup (JWTTokensByRole (Status (NormalizeJWTTokens mapOrder proj)))
         (Name role) = Some tokens.
Proof.
  intros Hnd Hi.
  unfold NormalizeJWTTokens, syncJWTTokenBetweenStatusAndSpec.
  cbn [withRolesAndTokens Spec Status Roles JWTTokensByRole].
  set (roles := fillRoleTokenIDs <$> Roles (Spec proj)).
  set (status := fmap _ (JWTTokensByRole (Status proj))).
  assert (Name <$> roles = Name <$> Roles (Spec proj)) as Hnames.
  { subst roles. rewrite <- list_fmap_compose. by apply list_fmap_ext. }
  assert (NoDup (Name <$> roles)) as Hnd' by by rewrite Hnames.
  assert (roles !! i = Some (fillRoleTokenIDs role)) as Hi'.
  { subst roles. by rewrite list_lookup_fmap, Hi. }
  destruct (syncRoles_at mapOrder 0 roles status i _ Hnd' Hi') as [H1 H2].
  destruct (syncRoles mapOrder 0 roles status) as [roles' status'] eqn:Hsync.
  cbn [withRolesAndTokens Spec Status Roles JWTTokensByRole]. cbn in H1, H2.
  eexists. split; [exact H1|].
  rewrite statusLookup_dropUnknownRoles, decide_True; [exact H2|].
  rewrite Hnames. apply list_elem_of_fmap. exists role. split; [done|].
  by apply list_elem_of_lookup_2 with i.
Qed.

(** X3. After [NormalizeJWTTokens], on a project whose role names are
    pairwise distinct, the lookup in the old location ([Spec.Roles]) and the
    lookup in the new one ([Status.JWTTokensByRole]) give the same answer
    for every role of the project: the same token at the same index, or the
    same error. *)
Theorem lookups_agree_after_NormalizeJWTTokens (mapOrder : nat -> list nat)
    (proj : AppProject) (roleName : string) (issuedAt : Z) (id : string) :
  NoDup (Name <$> Roles (Spec proj)) ->
  roleName ∈ Name <$> Roles (Spec proj) ->
  GetJWTTokenFromSpec (NormalizeJWTTokens mapOrder proj) roleName issuedAt id
  = GetJWTToken (NormalizeJWTTokens mapOrder proj) roleName issuedAt id.
Proof.
  intros Hnd Hin. apply list_elem_of_fmap in Hin as (role & -> & Hrole).
  apply list_elem_of_lookup in Hrole as [i Hi].
  destruct (NormalizeJWTTokens_in_sync mapOrder proj i role Hnd Hi)
    as (tokens & H1 & H2).
  assert (GetRoleByName (NormalizeJWTTokens mapOrder proj) (Name role)
          = inl (mkProjectRole (Name role) tokens, i)) as Hget.
  { apply GetRoleByName_inl. split; [done|]. split; [done|].
    intros j r' Hlt Hj Hname.
    destruct (lookup_lt_is_Some_2 (Roles (Spec proj)) j) as [r0 Hr0].
    { apply lookup_lt_Some in Hi. lia. }
    destruct (NormalizeJWTTokens_in_sync mapOrder proj j r0 Hnd Hr0)
      as (tokens0 & Hj' & _).
    rewrite Hj in Hj'. injection Hj' as ->. cbn in Hname.
    assert (j = i); [|lia].
    eapply (NoDup_lookup _ _ _ _ Hnd); rewrite list_lookup_fmap.
    - by rewrite Hr0.
    - rewrite Hi. cbn. by rewrite Hname. }
  unfold GetJWTTokenFromSpec, GetJWTToken. rewrite Hget.
  by rewrite (statusItems_lookup _ _ _ H2).
Qed.

(** X4. [ValidateJWTTokenID] accepts exactly when the role exists and the
    id is empty or borne by no token of the first role of that name. *)
Theorem ValidateJWTTokenID_accepts (proj : AppProject) (roleName id : string) :
  ValidateJWTTokenID proj roleName id = None <->
  exists role i,
    firstWith (fun r => Name r = roleName) (Roles (Spec proj)) i role
    /\ (id = "" \/ forall token, token ∈ JWTTokens role -> ID token <> id).
Proof.
  unfold ValidateJWTTokenID.
  destruct (GetRoleByName proj roleName) as [[role i]|e] eqn:Hget.
  - assert (existsb (fun token => String.eqb id (ID token)) (JWTTokens role) = false
            <-> forall token, token ∈ JWTTokens role -> ID token <> id) as Hex.
    { split.
      - intros Hf token Hin Hid.
        assert (existsb (fun token => String.eqb id (ID token)) (JWTTokens role) = true);
          [|congruence].
        apply existsb_exists. exists token.
        split; [by apply list_elem_of_In|by apply eqb_id].
      - intros Hall.
        destruct (existsb _ _) eqn:E; [|done].
        apply existsb_exists in E as (token & Hin & Hid).
        exfalso. apply (Hall token); [by apply list_elem_of_In|by apply eqb_id]. }
    split.
    + intros Hv. exists role, i. split; [by apply GetRoleByName_inl|].
      destruct (String.eqb_spec id ""); [by left|right].
      apply Hex. by destruct (existsb _ _).
    + intros (role' & i' & Hfirst & Hid).
      apply GetRoleByName_inl in Hfirst. rewrite Hget in Hfirst.
      injection Hfirst as <- <-.
      destruct Hid as [->|Hall]; [done|].
      destruct (String.eqb id ""); [done|].
      apply Hex in Hall. by rewrite Hall.
  - split; [done|]. intros (role & i & Hfirst & _).
    apply GetRoleByName_inl in Hfirst. congruence.
Qed.

(** ** More on the combination of tokens *)

Lemma tokensMapOf_last (l : list JWTToken) (k : string) (v : JWTToken) :
  tokensMapOf l !! k = Some v <->
  exists i, l !! i = Some v /\ ID v = k
    /\ forall j t, (i < j)%nat -> l !! j = Some t -> ID t <> k.
Proof.
  induction l as [|x l IH] using rev_ind.
  { unfold tokensMapOf. cbn. rewrite lookup_empty. split; [done|].
    by intros (i & Hi & _). }
  rewrite tokensMapOf_snoc. destruct (decide (ID x = k)) as [<-|Hne].
  - rewrite lookup_insert_eq. split.
    + intros [= <-]. exists (length l). split; [by apply list_lookup_middle|].
      split; [done|]. intros j t Hlt Hj. apply lookup_lt_Some in Hj.
      rewrite length_app in Hj. cbn in Hj. lia.
    + intros (i & Hi & Hid & Hlast). f_equal.
      destruct (decide (i < length l)%nat) as [Hlt|Hge].
      * exfalso. apply (Hlast (length l) x Hlt); [by apply list_lookup_middle|done].
      * assert (i = length l) as ->.
        { apply lookup_lt_Some in Hi. rewrite length_app in Hi. cbn in Hi. lia. }
        rewrite list_lookup_middle in Hi by done. by injection Hi.
  - rewrite lookup_insert_ne by done. rewrite IH. split.
    + intros (i & Hi & Hid & Hlast). exists i.
      split; [by apply lookup_app_l_Some|]. split; [done|].
      intros j t Hlt Hj. destruct (decide (j < length l)%nat) as [Hjl|Hjl].
      * rewrite lookup_app_l in Hj by done. by apply (Hlast j).
      * assert (j = length l) as ->.
        { apply lookup_lt_Some in Hj. rewrite length_app in Hj. cbn in Hj. lia. }
        rewrite list_lookup_middle in Hj by done. injection Hj as <-. done.
    + intros (i & Hi & Hid & Hlast).
      destruct (decide (i < length l)%nat) as [Hlt|Hge].
      * exists i. rewrite lookup_app_l in Hi by done. split; [done|]. split; [done|].
        intros j t Hj Ht. apply (Hlast j t Hj). by apply lookup_app_l_Some.
      * assert (i = length l) as ->.
        { apply lookup_lt_Some in Hi. rewrite length_app in Hi. cbn in Hi. lia. }
        rewrite list_lookup_middle in Hi by done. injection Hi as <-. done.
Qed.

(** X29. [jwtTokensCombine] keeps, of the tokens of [tokens1] followed by
    [tokens2], exactly those that are the last with their id: when an id
    is borne by several tokens the later one wins.  As the synchronisation
    passes the status tokens first and the spec tokens second, a token of
    the spec wins over a status token of the same id: every spec token
    that is the last of its id among the spec tokens is kept. *)
Theorem jwtTokensCombine_last_wins (choices : list nat)
    (tokens1 tokens2 : list JWTToken) (token : JWTToken) :
  (token ∈ jwtTokensCombine choices tokens1 tokens2 <->
   exists i, (tokens1 ++ tokens2)%list !! i = Some token
     /\ forall j t, (i < j)%nat -> (tokens1 ++ tokens2)%list !! j = Some t ->
          ID t <> ID token)
  /\ (forall i, tokens2 !! i = Some token ->
        (forall j t, (i < j)%nat -> tokens2 !! j = Some t -> ID t <> ID token) ->
        token ∈ jwtTokensCombine choices tokens1 tokens2).
Proof.
  assert (token ∈ jwtTokensCombine choices tokens1 tokens2 <->
          exists i, (tokens1 ++ tokens2)%list !! i = Some token
            /\ forall j t, (i < j)%nat -> (tokens1 ++ tokens2)%list !! j = Some t ->
                 ID t <> ID token) as Hiff.
  { rewrite elem_of_jwtTokensCombine, tokensMapOf_last. split.
    - intros (i & Hi & _ & Hlast). by exists i.
    - intros (i & Hi & Hlast). by exists i. }
  split; [exact Hiff|]. intros i Hi Hlast. apply Hiff.
  exists (length tokens1 + i)%nat. split.
  - rewrite lookup_app_r by lia. by replace (length tokens1 + i - length tokens1)%nat
      with i by lia.
  - intros j t Hlt Hj. rewrite lookup_app_r in Hj by lia.
    apply (Hlast (j - length tokens1)%nat t); [lia|done].
Qed.

Lemma pretty_N_go_nonempty (x : N) (s : string) : s <> "" -> pretty_N_go x s <> "".
Proof.
  revert s. induction (N.lt_wf_0 x) as [x _ IH]. intros s Hs.
  destruct (decide (x = 0)%N) as [->|Hx]; [by rewrite pretty_N_go_0|].
  rewrite pretty_N_go_step by lia. apply IH; [apply N.div_lt; lia|done].
Qed.

Lemma FormatInt_nonempty (n : Z) : FormatInt n <> "".
Proof.
  assert (forall p : positive, pretty (Npos p) <> "") as Hpos.
  { intros p. unfold pretty, pretty_N. rewrite decide_False by done.
    rewrite pretty_N_go_step by lia. by apply pretty_N_go_nonempty. }
  unfold FormatInt, pretty, pretty_Z. destruct n as [|p|p]; [done|apply Hpos|done].
Qed.

Lemma fillTokenID_nonempty (token : JWTToken) : ID (fillTokenID token) <> "".
Proof.
  unfold fillTokenID. destruct (String.eqb_spec (ID token) "") as [Hid|Hid]; [|done].
  cbn. apply FormatInt_nonempty.
Qed.

Lemma syncRoles_length (mapOrder : nat -> list nat) roleIndex roles status :
  length (syncRoles mapOrder roleIndex roles status).1 = length roles.
Proof.
  revert roleIndex status. induction roles as [|role rest IH];
    intros roleIndex status; [done|].
  cbn [syncRoles].
  specialize (IH (S roleIndex)
    (Some (<[Name role := jwtTokensCombine (mapOrder roleIndex)
                            (statusItems status (Name role)) (JWTTokens role)]>
             match status with None => ∅ | Some m => m end))).
  destruct (syncRoles mapOrder (S roleIndex) rest _) as [rest' status'].
  cbn in IH |- *. by rewrite IH.
Qed.

(** X30. After [NormalizeJWTTokens], on a project whose role names are
    pairwise distinct, no token of a role has an empty id, neither in
    [Spec.Roles] nor in the status entry of the role. *)
Theorem NormalizeJWTTokens_fills_ids (mapOrder : nat -> list nat) (proj : AppProject) :
  NoDup (Name <$> Roles (Spec proj)) ->
  forall i role token,
    Roles (Spec (NormalizeJWTTokens mapOrder proj)) !! i = Some role ->
    (token ∈ JWTTokens role
     \/ token ∈ statusItems (JWTTokensByRole (Status (NormalizeJWTTokens mapOrder proj)))
                  (Name role)) ->
    ID token <> "".
Proof.
  intros Hnd i role token.
  unfold NormalizeJWTTokens, syncJWTTokenBetweenStatusAndSpec.
  cbn [withRolesAndTokens Spec Status Roles JWTTokensByRole].
  set (roles := fillRoleTokenIDs <$> Roles (Spec proj)).
  set (status := fmap _ (JWTTokensByRole (Status proj))).
  assert (Name <$> roles = Name <$> Roles (Spec proj)) as Hnames.
  { subst roles. rewrite <- list_fmap_compose. by apply list_fmap_ext. }
  assert (NoDup (Name <$> roles)) as Hnd' by by rewrite Hnames.
  pose proof (syncRoles_length mapOrder 0 roles status) as Hlen.
  pose proof (fun role0 Hi => syncRoles_at mapOrder 0 roles status i role0 Hnd' Hi) as Hat.
  destruct (syncRoles mapOrder 0 roles status) as [roles' status'] eqn:Hsync.
  cbn [withRolesAndTokens Spec Status Roles JWTTokensByRole fst snd] in *.
  intros Hi Htoken.
  destruct (lookup_lt_is_Some_2 roles i) as [role0 Hrole0].
  { apply lookup_lt_Some in Hi. lia. }
  destruct (Hat role0 Hrole0) as [H1 H2]. cbn in H1, H2.
  rewrite Hi in H1. injection H1 as ->. cbn [Name JWTTokens] in *.
  assert (token ∈ jwtTokensCombine (mapOrder i) (statusItems status (Name role0))
                    (JWTTokens role0)) as Hin.
  { destruct Htoken as [?|Hst]; [done|].
    erewrite statusItems_lookup in Hst; [exact Hst|].
    rewrite statusLookup_dropUnknownRoles, decide_True; [exact H2|].
    apply list_elem_of_fmap. exists role0. split; [done|].
    by apply list_elem_of_lookup_2 with i. }
  apply elem_of_jwtTokensCombine, tokensMapOf_lookup_Some in Hin as [_ Hin].
  subst roles status. rewrite statusItems_fill in Hin.
  rewrite list_lookup_fmap in Hrole0.
  destruct (Roles (Spec proj) !! i) as [r|]; [|done]. injection Hrole0 as <-.
  cbn [fillRoleTokenIDs JWTTokens] in Hin.
  apply elem_of_app in Hin as [Hin|Hin];
    apply list_elem_of_fmap in Hin as (t & -> & _); apply fillTokenID_nonempty.
Qed.

(** ** Removing a token *)

(** [items[j] = items[len(items)-1]], the write through the slice into its
    array; an index out of range panics ([None]). *)
Definition overwriteWithLast (items : list JWTToken) (j : nat)
    : option (list JWTToken) :=
  match items !! j, items !! (length items - 1)%nat with
  | Some _, Some lastItem => Some (<[j := lastItem]> items)
  | _, _ => None
  end.

(** [items[:len(items)-1]]. *)
Definition dropLast (items : list JWTToken) : list JWTToken :=
  take (length items - 1) items.

(** [proj.Spec.Roles[roleIndex].JWTTokens]. *)
Definition roleTokensAt (proj : AppProject) (roleIndex : nat) : list JWTToken :=
  match Roles (Spec proj) !! roleIndex with
  | Some role => JWTTokens role
  | None => []
  end.

(** [proj.Spec.Roles[roleIndex].JWTTokens = tokens]. *)
Definition setRoleTokens (proj : AppProject) (roleIndex : nat)
    (tokens : list JWTToken) : AppProject :=
  withRolesAndTokens proj
    (alter (fun role => mkProjectRole (Name role) tokens) roleIndex (Roles (Spec proj)))
    (JWTTokensByRole (Status proj)).

(** [proj.Status.JWTTokensByRole[roleName] = JWTTokens{Items: items}]; an
    assignment into a nil map panics ([None]). *)
Definition setStatusItems (proj : AppProject) (roleName : string)
    (items : list JWTToken) : option AppProject :=
  match JWTTokensByRole (Status proj) with
  | None => None
  | Some m =>
      Some (withRolesAndTokens proj (Roles (Spec proj)) (Some (<[roleName := items]> m)))
  end.

(** [RemoveJWTToken]: [None] is a panic (an index out of range), otherwise
    the error returned and the project left.  The receiver is a copy, but
    the roles and the status map it writes are those of the caller.

    The method writes through two slices, the role's [JWTTokens] and the
    [Items] of the status entry.  [shared] tells whether they are one slice
    over one array, as [syncJWTTokenBetweenStatusAndSpec] leaves them
    (both are assigned [tokens]), or separate arrays, as in a project
    decoded from its stored form.  When they are shared, a write through
    one is read through the other: after the role's slice has been
    overwritten at [jwtTokenIndex] and shortened, the status entry still
    has its length and reads the overwritten array; and the write through
    the status entry shows in the role's slice. *)
Definition RemoveJWTToken (shared : bool) (proj : AppProject) (roleIndex : nat)
    (issuedAt : Z) (id : string) : option (option ProjectError * AppProject) :=
  match Roles (Spec proj) !! roleIndex with
  | None => None
  | Some role =>
      let roleName := Name role in
      let found1 := GetJWTTokenFromSpec proj roleName issuedAt id in
      let afterSpec :=
        match found1 with
        | inl (_, jwtTokenIndex) =>
            match overwriteWithLast (JWTTokens role) jwtTokenIndex with
            | Some array => Some (array, setRoleTokens proj roleIndex (dropLast array))
            | None => None
            end
        | inr _ => Some (JWTTokens role, proj)
        end in
      match afterSpec with
      | None => None
      | Some (array, proj1) =>
          let proj1 :=
            if shared then default proj1 (setStatusItems proj1 roleName array)
            else proj1 in
          let found2 := GetJWTToken proj1 roleName issuedAt id in
          let afterStatus :=
            match found2 with
            | inl (_, jwtTokenIndex) =>
                let items := statusItems (JWTTokensByRole (Status proj1)) roleName in
                match overwriteWithLast items jwtTokenIndex with
                | Some array2 =>
                    match setStatusItems proj1 roleName (dropLast array2) with
                    | Some proj2 =>
                        Some (if shared
                              then setRoleTokens proj2 roleIndex
                                     (take (length (roleTokensAt proj1 roleIndex)) array2)
                              else proj2)
                    | None => None
                    end
                | None => None
                end
            | inr _ => Some proj1
            end in
          match afterStatus with
          | None => None
          | Some proj2 =>
              Some (match found1, found2 with
                    | inr _, inr err2 => Some err2
                    | _, _ => None
                    end, proj2)
          end
      end
  end.

Lemma GetRoleByName_NoDup (proj : AppProject) (i : nat) (role : ProjectRole) :
  NoDup (Name <$> Roles (Spec proj)) ->
  Roles (Spec proj) !! i = Some role ->
  GetRoleByName proj (Name role) = inl (role, i).
Proof.
  intros Hnd Hi. apply GetRoleByName_inl. split; [done|]. split; [done|].
  intros j r Hlt Hj Hname.
  assert (j = i); [|lia].
  eapply (NoDup_lookup _ _ _ _ Hnd); rewrite list_lookup_fmap.
  - by rewrite Hj.
  - rewrite Hi. cbn. by rewrite Hname.
Qed.

Lemma overwriteWithLast_Some (items : list JWTToken) (j : nat) (x : JWTToken) :
  items !! j = Some x ->
  exists lastItem,
    items !! (length items - 1)%nat = Some lastItem
    /\ overwriteWithLast items j = Some (<[j := lastItem]> items).
Proof.
  intros Hj. destruct (lookup_lt_is_Some_2 items (length items - 1)) as [y Hy].
  { apply lookup_lt_Some in Hj. lia. }
  exists y. split; [done|]. unfold overwriteWithLast. by rewrite Hj, Hy.
Qed.

Lemma setStatusItems_Some (proj : AppProject) (roleName : string)
    (items : list JWTToken) (m : gmap string (list JWTToken)) :
  JWTTokensByRole (Status proj) = Some m ->
  setStatusItems proj roleName items
  = Some (withRolesAndTokens proj (Roles (Spec proj)) (Some (<[roleName := items]> m))).
Proof. intros H. unfold setStatusItems. by rewrite H. Qed.

(** Overwriting the element at [j] with the last one and dropping the last
    slot leaves the elements other than the one at [j], in some order. *)
Lemma dropLast_overwrite_Permutation (items : list JWTToken) (j : nat) x lastItem :
  items !! j = Some x ->
  items !! (length items - 1)%nat = Some lastItem ->
  dropLast (<[j := lastItem]> items) ≡ₚ delete j items.
Proof.
  intros Hj Hlast. unfold dropLast. rewrite length_insert.
  destruct (decide (items = [])) as [->|Hne]; [done|].
  destruct (exists_last Hne) as (l0 & y & ->).
  rewrite length_app in Hlast |- *. cbn [length] in Hlast |- *.
  replace (length l0 + 1 - 1)%nat with (length l0) in Hlast |- * by lia.
  rewrite lookup_app_r, Nat.sub_diag in Hlast by lia. injection Hlast as ->.
  destruct (decide (j < length l0)%nat) as [Hlt|Hge].
  - rewrite insert_app_l by done. rewrite take_app_length'
      by (by rewrite length_insert).
    rewrite lookup_app_l in Hj by done.
    rewrite (delete_take_drop (l0 ++ [lastItem])), take_app_le, drop_app_le by lia.
    rewrite insert_take_drop by done.
    apply Permutation_app_head.
    change (lastItem :: drop (S j) l0) with ([lastItem] ++ drop (S j) l0)%list.
    apply Permutation_app_comm.
  - apply lookup_lt_Some in Hj. rewrite length_app in Hj. cbn in Hj.
    assert (j = length l0) as -> by lia.
    rewrite insert_app_r_alt, Nat.sub_diag by lia. cbn.
    rewrite take_app_length.
    rewrite (delete_take_drop (l0 ++ [lastItem])), take_app_length.
    rewrite drop_ge by (rewrite length_app; cbn; lia).
    by rewrite app_nil_r.
Qed.

(** X5. On a project whose role names are pairwise distinct and whose two
    token lists of a role are equal but stored apart, [RemoveJWTToken] of a
    token that the lookup finds returns no error and removes it from both
    places alike: the role's [JWTTokens] and the status entry end as one
    and the same list, made of the former tokens but the one found; the
    other roles and the other status entries are left as they were. *)
Theorem RemoveJWTToken_keeps_in_sync (proj : AppProject) (roleIndex : nat)
    (role : ProjectRole) (issuedAt : Z) (id : string) (token : JWTToken) (j : nat) :
  NoDup (Name <$> Roles (Spec proj)) ->
  Roles (Spec proj) !! roleIndex = Some role ->
  statusLookup (JWTTokensByRole (Status proj)) (Name role) = Some (JWTTokens role) ->
  findJWTToken (JWTTokens role) issuedAt id = Some (token, j) ->
  exists proj' tokens',
    RemoveJWTToken false proj roleIndex issuedAt id = Some (None, proj')
    /\ Roles (Spec proj') !! roleIndex = Some (mkProjectRole (Name role) tokens')
    /\ statusLookup (JWTTokensByRole (Status proj')) (Name role) = Some tokens'
    /\ tokens' ≡ₚ delete j (JWTTokens role)
    /\ (forall i, i <> roleIndex -> Roles (Spec proj') !! i = Roles (Spec proj) !! i)
    /\ (forall name, name <> Name role ->
          statusLookup (JWTTokensByRole (Status proj')) name
          = statusLookup (JWTTokensByRole (Status proj)) name).
Proof.
  intros Hnd Hrole Hsync Hfind.
  assert (JWTTokens role !! j = Some token) as Hj.
  { apply findJWTToken_Some in Hfind as [[_ [? _]]|(_ & _ & [? _])]; done. }
  destruct (overwriteWithLast_Some _ _ _ Hj) as (lastItem & Hlast & Hover).
  pose proof (statusItems_lookup _ _ _ Hsync) as Hitems.
  destruct (JWTTokensByRole (Status proj)) as [m|] eqn:Hstatus; [|done].
  cbn in Hsync.
  eexists _, (dropLast (<[j := lastItem]> (JWTTokens role))).
  split.
  { unfold RemoveJWTToken. rewrite Hrole. unfold GetJWTTokenFromSpec.
    rewrite (GetRoleByName_NoDup _ _ _ Hnd Hrole), Hfind, Hover.
    unfold GetJWTToken.
    cbn [setRoleTokens withRolesAndTokens Status JWTTokensByRole].
    rewrite Hstatus, Hitems, Hfind, Hover.
    unfold setStatusItems.
    cbn [setRoleTokens withRolesAndTokens Spec Roles Status JWTTokensByRole].
    rewrite Hstatus. reflexivity. }
  cbn [withRolesAndTokens Spec Status Roles JWTTokensByRole statusLookup].
  split; [by rewrite list_lookup_alter_eq, Hrole|].
  split; [by rewrite lookup_insert_eq|].
  split; [by apply dropLast_overwrite_Permutation with token|].
  split.
  - intros i Hne. by rewrite list_lookup_alter_ne by done.
  - intros name Hne. by rewrite lookup_insert_ne.
Qed.

(** X6. When the role's [JWTTokens] and the status entry are one slice over
    one array (as [syncJWTTokenBetweenStatusAndSpec] leaves them), token
    ids are pairwise distinct, and the token to remove is looked up by id
    only and is not the last one, [RemoveJWTToken] returns no error but
    shortens the role's slice only: the status entry keeps its length and
    reads the array in which the token has been overwritten by the last
    one, so that it no longer holds the token removed and holds the last
    token twice. *)
Theorem RemoveJWTToken_shared_slice (proj : AppProject) (roleIndex : nat)
    (role : ProjectRole) (id : string) (token : JWTToken) (j : nat) :
  NoDup (Name <$> Roles (Spec proj)) ->
  Roles (Spec proj) !! roleIndex = Some role ->
  statusLookup (JWTTokensByRole (Status proj)) (Name role) = Some (JWTTokens role) ->
  NoDup (ID <$> JWTTokens role) ->
  id <> "" ->
  JWTTokens role !! j = Some token ->
  ID token = id ->
  (S j < length (JWTTokens role))%nat ->
  exists proj' lastToken,
    RemoveJWTToken true proj roleIndex (-1) id = Some (None, proj')
    /\ JWTTokens role !! (length (JWTTokens role) - 1)%nat = Some lastToken
    /\ Roles (Spec proj') !! roleIndex
       = Some (mkProjectRole (Name role)
                 (dropLast (<[j := lastToken]> (JWTTokens role))))
    /\ statusLookup (JWTTokensByRole (Status proj')) (Name role)
       = Some (<[j := lastToken]> (JWTTokens role))
    /\ token ∉ <[j := lastToken]> (JWTTokens role).
Proof.
  intros Hnd Hrole Hsync Hids Hid Hj Htoken Hlt.
  destruct (overwriteWithLast_Some _ _ _ Hj) as (lastItem & Hlast & Hover).
  destruct (JWTTokensByRole (Status proj)) as [m|] eqn:Hstatus; [|done].
  cbn in Hsync.
  assert (forall t, t ∈ <[j := lastItem]> (JWTTokens role) -> ID t <> id) as Hgone.
  { intros t Hin Ht. apply list_elem_of_lookup in Hin as [k Hk].
    destruct (decide (k = j)) as [->|Hne].
    - rewrite list_lookup_insert_eq in Hk by (apply lookup_lt_Some in Hj; lia).
      injection Hk as <-.
      assert (length (JWTTokens role) - 1 = j)%nat; [|lia].
      eapply (NoDup_lookup _ _ _ _ Hids); rewrite list_lookup_fmap.
      + by rewrite Hlast.
      + rewrite Hj. cbn. congruence.
    - rewrite list_lookup_insert_ne in Hk by done.
      assert (k = j); [|done].
      eapply (NoDup_lookup _ _ _ _ Hids); rewrite list_lookup_fmap.
      + by rewrite Hk.
      + rewrite Hj. cbn. congruence. }
  assert (findJWTToken (JWTTokens role) (-1) id = Some (token, j)) as Hfind.
  { apply findJWTToken_Some. left. split; [done|]. split; [done|]. split; [done|].
    intros k t Hk Ht Heq. assert (k = j); [|lia].
    eapply (NoDup_lookup _ _ _ _ Hids); rewrite list_lookup_fmap.
    - by rewrite Ht.
    - rewrite Hj. cbn. congruence. }
  assert (findJWTToken (<[j := lastItem]> (JWTTokens role)) (-1) id = None) as Hnone.
  { apply findJWTToken_None. split; [by right|by left]. }
  eexists _, lastItem.
  split.
  { unfold RemoveJWTToken. rewrite Hrole. unfold GetJWTTokenFromSpec.
    rewrite (GetRoleByName_NoDup _ _ _ Hnd Hrole), Hfind, Hover.
    rewrite (setStatusItems_Some _ _ _ m) by done.
    cbn [from_option Datatypes.id]. unfold GetJWTToken.
    cbn [withRolesAndTokens Status JWTTokensByRole statusItems].
    rewrite lookup_insert_eq. cbn [from_option Datatypes.id]. rewrite Hnone.
    reflexivity. }
  cbn [setRoleTokens withRolesAndTokens Spec Status Roles JWTTokensByRole
         statusLookup].
  split; [done|].
  split; [by rewrite list_lookup_alter_eq, Hrole|].
  split; [by rewrite lookup_insert_eq|].
  intros Hin. by apply (Hgone _ Hin).
Qed.

(** ** The project with its destinations and role bindings *)

(** The records above keep the fields of [AppProjectSpec] and [ProjectRole]
    that the functions above read.  The functions below read more of them;
    [Project.t] is the project with those fields, [Project.toAppProject]
    the part of it modelled above. *)

Module ApplicationDestination.
Record t := mk { Server : string; Namespace : string; Name : string }.
End ApplicationDestination.

(** [Cluster], the two fields read here. *)
Module Cluster.
Record t := mk { Server : string; Name : string }.
End Cluster.

Module ApplicationDestinationServiceAccount.
Record t := mk {
  Server : string;
  Namespace : string;
  DefaultServiceAccount : string
}.
End ApplicationDestinationServiceAccount.

Module SyncWindow.
Record t := mk {
  Kind : string;
  Schedule : string;
  Duration : string;
  Applications : list string;
  Namespaces : list string;
  Clusters : list string
}.
End SyncWindow.

Module Role.
Record t := mk {
  Name : string;
  Policies : list string;
  JWTTokens : list JWTToken;
  Groups : list string
}.
End Role.

Module Project.
Record t := mk {
  Name : string;
  SourceRepos : list string;
  Destinations : list ApplicationDestination.t;
  Roles : list Role.t;
  SourceNamespaces : list string;
  SyncWindows : list (option SyncWindow.t);
  PermitOnlyProjectScopedClusters : bool;
  DestinationServiceAccounts : list ApplicationDestinationServiceAccount.t;
  ClusterResourceWhitelist : option (list GroupKind);
  ClusterResourceBlacklist : option (list GroupKind);
  NamespaceResourceWhitelist : option (list GroupKind);
  NamespaceResourceBlacklist : option (list GroupKind);
  Status : AppProjectStatus
}.

Definition toProjectRole (role : Role.t) : ProjectRole :=
  mkProjectRole (Role.Name role) (Role.JWTTokens role).

Definition toAppProject (proj : t) : AppProject :=
  mkAppProject
    (mkAppProjectSpec (SourceRepos proj) (toProjectRole <$> Roles proj)
       (ClusterResourceWhitelist proj) (ClusterResourceBlacklist proj)
       (NamespaceResourceWhitelist proj) (NamespaceResourceBlacklist proj))
    (Status proj).
End Project.

Section Destinations.

Variable glob_Match : string -> string -> list ascii -> bool.
Variable isResourceInList : GroupKind -> list GroupKind -> bool.

(** The three tests of the loop body of [isDestinationMatched];
    [globMatch] is called without separators. *)
Definition dstNameMatched (item dst : ApplicationDestination.t) : bool :=
  negb (String.eqb (ApplicationDestination.Name dst) "")
  && globMatch glob_Match (ApplicationDestination.Name item)
       (ApplicationDestination.Name dst) true [].

Definition dstServerMatched (item dst : ApplicationDestination.t) : bool :=
  negb (String.eqb (ApplicationDestination.Server dst) "")
  && globMatch glob_Match (ApplicationDestination.Server item)
       (ApplicationDestination.Server dst) true [].

Definition dstNamespaceMatched (item dst : ApplicationDestination.t) : bool :=
  globMatch glob_Match (ApplicationDestination.Namespace item)
    (ApplicationDestination.Namespace dst) true [].

(** [matched] of the loop body. *)
Definition destinationMatches (item dst : ApplicationDestination.t) : bool :=
  (dstServerMatched item dst || dstNameMatched item dst)
  && dstNamespaceMatched item dst.

(** The second and third case of the [switch], which [return false]; in
    the second, [&&] binds tighter than [||]. *)
Definition destinationDenies (item dst : ApplicationDestination.t) : bool :=
  ((negb (dstNameMatched item dst) && isDenyPattern (ApplicationDestination.Name item))
   || ((negb (dstServerMatched item dst)
        && isDenyPattern (ApplicationDestination.Server item))
       && dstNamespaceMatched item dst))
  || (negb (dstNamespaceMatched item dst)
      && isDenyPattern (ApplicationDestination.Namespace item)
      && dstServerMatched item dst).

(** The [for _, item := range proj.Spec.Destinations] loop, with the
    accumulator [anyDestinationMatched]. *)
Fixpoint destinationsLoop (items : list ApplicationDestination.t)
    (dst : ApplicationDestination.t) (anyDestinationMatched : bool) : bool :=
  match items with
  | [] => anyDestinationMatched
  | item :: rest =>
      if destinationMatches item dst then destinationsLoop rest dst true
      else if destinationDenies item dst then false
      else destinationsLoop rest dst anyDestinationMatched
  end.

Definition isDestinationMatched (proj : Project.t) (dst : ApplicationDestination.t)
    : bool :=
  destinationsLoop (Project.Destinations proj) dst false.

(** [IsDestinationPermitted]; [destCluster] is a pointer, [projectClusters]
    answers with the clusters or an error message. *)
Definition IsDestinationPermitted (proj : Project.t) (destCluster : option Cluster.t)
    (destNamespace : string) (projectClusters : string -> list Cluster.t + string)
    : bool * option string :=
  match destCluster with
  | None => (false, None)
  | Some destCluster =>
      let dst :=
        ApplicationDestination.mk (Cluster.Server destCluster) destNamespace
          (Cluster.Name destCluster) in
      let destinationMatched := isDestinationMatched proj dst in
      if destinationMatched && Project.PermitOnlyProjectScopedClusters proj then
        match projectClusters (Project.Name proj) with
        | inr err => (false, Some ("could not retrieve project clusters: " +:+ err))
        | inl clusters =>
            (existsb
               (fun cluster =>
                  String.eqb (Cluster.Name cluster) (ApplicationDestination.Name dst)
                  || String.eqb (Cluster.Server cluster)
                       (ApplicationDestination.Server dst))
               clusters,
             None)
        end
      else (destinationMatched, None)
  end.

Definition IsResourcePermitted (proj : Project.t) (groupKind : GroupKind)
    (namespace : string) (destCluster : option Cluster.t)
    (projectClusters : string -> list Cluster.t + string) : bool * option string :=
  if negb (IsGroupKindPermitted isResourceInList (Project.toAppProject proj) groupKind
             (negb (String.eqb namespace ""))) then (false, None)
  else if negb (String.eqb namespace "") then
    IsDestinationPermitted proj destCluster namespace projectClusters
  else (true, None).

Lemma destinationsLoop_true items dst acc :
  destinationsLoop items dst acc = true <->
    (acc = true \/ exists item, item ∈ items /\ destinationMatches item dst = true)
    /\ (forall item, item ∈ items -> destinationMatches item dst = false ->
          destinationDenies item dst = false).
Proof.
  revert acc. induction items as [|item rest IH]; intros acc; cbn [destinationsLoop].
  { split.
    - intros ->. split; [by left|]. intros item Hin. by apply elem_of_nil in Hin.
    - intros [[?|(item & Hin & _)] _]; [done|]. by apply elem_of_nil in Hin. }
  destruct (destinationMatches item dst) eqn:Hm.
  - rewrite IH. split.
    + intros [_ Hall]. split.
      * right. exists item. split; [apply list_elem_of_here|done].
      * intros x Hx Hxm. apply elem_of_cons in Hx as [->|Hx]; [congruence|].
        by apply Hall.
    + intros [_ Hall]. split; [by left|].
      intros x Hx. apply Hall. by apply list_elem_of_further.
  - destruct (destinationDenies item dst) eqn:Hd.
    + split; [done|]. intros [_ Hall].
      rewrite (Hall item (list_elem_of_here _ _) Hm) in Hd. done.
    + rewrite IH. split.
      * intros [Hany Hall]. split.
        -- destruct Hany as [?|(x & Hx & Hxm)]; [by left|right].
           exists x. split; [by apply list_elem_of_further|done].
        -- intros x Hx Hxm. apply elem_of_cons in Hx as [->|Hx]; [done|].
           by apply Hall.
      * intros [Hany Hall]. split.
        -- destruct Hany as [?|(x & Hx & Hxm)]; [by left|right].
           apply elem_of_cons in Hx as [->|Hx]; [congruence|]. by exists x.
        -- intros x Hx. apply Hall. by apply list_elem_of_further.
Qed.

(** X7. [isDestinationMatched] holds exactly when some entry of
    [Spec.Destinations] matches the destination (server or name, and
    namespace) and no entry that does not match it denies it; the order of
    the entries does not matter. *)
Theorem isDestinationMatched_iff (proj : Project.t) (dst : ApplicationDestination.t) :
  isDestinationMatched proj dst = true <->
    (exists item, item ∈ Project.Destinations proj
                  /\ destinationMatches item dst = true)
    /\ (forall item, item ∈ Project.Destinations proj ->
          destinationMatches item dst = false -> destinationDenies item dst = false).
Proof.
  unfold isDestinationMatched. rewrite destinationsLoop_true.
  split; (intros [Hany Hall]; split; [|done]).
  - by destruct Hany.
  - by right.
Qed.

(** X8. [IsDestinationPermitted] permits exactly when the cluster is given,
    the project's destinations match it with the namespace, and, if the
    project permits only project-scoped clusters, the list of its clusters
    is retrieved and holds a cluster of the same name or the same server. *)
Theorem IsDestinationPermitted_true (proj : Project.t) (destCluster : option Cluster.t)
    (destNamespace : string) (projectClusters : string -> list Cluster.t + string) :
  (IsDestinationPermitted proj destCluster destNamespace projectClusters).1 = true <->
  exists c, destCluster = Some c
    /\ isDestinationMatched proj
         (ApplicationDestination.mk (Cluster.Server c) destNamespace (Cluster.Name c))
       = true
    /\ (Project.PermitOnlyProjectScopedClusters proj = true ->
        exists clusters, projectClusters (Project.Name proj) = inl clusters
          /\ exists cluster, cluster ∈ clusters
               /\ (Cluster.Name cluster = Cluster.Name c
                   \/ Cluster.Server cluster = Cluster.Server c)).
Proof.
  unfold IsDestinationPermitted. destruct destCluster as [c|]; cbn [fst].
  2:{ split; [done|]. by intros (c & ? & _). }
  cbn [ApplicationDestination.Name ApplicationDestination.Server].
  destruct (isDestinationMatched proj _) eqn:Hm; cbn [andb].
  2:{ split; [done|]. intros (c' & [= <-] & Hm' & _). congruence. }
  destruct (Project.PermitOnlyProjectScopedClusters proj); cbn [fst].
  2:{ split; [|done]. intros _. exists c. by repeat split. }
  destruct (projectClusters (Project.Name proj)) as [clusters|err]; cbn [fst].
  2:{ split; [done|]. intros (c' & _ & _ & H). by destruct (H eq_refl) as (? & ? & _). }
  rewrite existsb_exists. split.
  - intros (cluster & Hin & Heq). exists c. split; [done|]. split; [done|].
    intros _. exists clusters. split; [done|]. exists cluster.
    split; [by apply list_elem_of_In|].
    apply orb_true_iff in Heq as [Heq|Heq]; apply String.eqb_eq in Heq; auto.
  - intros (c' & [= <-] & _ & H).
    destruct (H eq_refl) as (clusters' & [= <-] & cluster & Hin & Heq).
    exists cluster. split; [by apply list_elem_of_In|].
    apply orb_true_iff. destruct Heq as [Heq|Heq]; [left|right]; by apply String.eqb_eq.
Qed.

(** X9. [IsResourcePermitted] decides a cluster-scoped resource (empty
    namespace) by the cluster lists alone, and returns an error only when a
    permitted group/kind is namespaced, the destination matches, the
    project permits only project-scoped clusters and their retrieval
    fails; the resource is then not permitted. *)
Theorem IsResourcePermitted_errors (proj : Project.t) (groupKind : GroupKind)
    (namespace : string) (destCluster : option Cluster.t)
    (projectClusters : string -> list Cluster.t + string) :
  let result := IsResourcePermitted proj groupKind namespace destCluster projectClusters in
  (namespace = "" ->
   result = (IsGroupKindPermitted isResourceInList (Project.toAppProject proj)
               groupKind false, None))
  /\ (forall e, result.2 = Some e <->
        result.1 = false
        /\ IsGroupKindPermitted isResourceInList (Project.toAppProject proj)
             groupKind true = true
        /\ namespace <> ""
        /\ (exists c, destCluster = Some c
              /\ isDestinationMatched proj
                   (ApplicationDestination.mk (Cluster.Server c) namespace
                      (Cluster.Name c)) = true)
        /\ Project.PermitOnlyProjectScopedClusters proj = true
        /\ exists err, projectClusters (Project.Name proj) = inr err
             /\ e = "could not retrieve project clusters: " +:+ err).
Proof.
  intros result. subst result. unfold IsResourcePermitted. split.
  - intros ->. cbn [String.eqb negb].
    by destruct (IsGroupKindPermitted _ _ _ false).
  - intros e. destruct (String.eqb_spec namespace "") as [->|Hns]; cbn [negb].
    { destruct (IsGroupKindPermitted _ _ _ false); cbn;
        (split; [done|]); by intros (_ & _ & ? & _). }
    destruct (IsGroupKindPermitted _ _ _ true); cbn [negb].
    2:{ cbn. split; [done|]. by intros (_ & ? & _). }
    unfold IsDestinationPermitted. destruct destCluster as [c|].
    2:{ cbn. split; [done|]. by intros (_ & _ & _ & (c & ? & _) & _). }
    destruct (isDestinationMatched proj _) eqn:Hm; cbn [andb].
    2:{ cbn. split; [done|].
        intros (_ & _ & _ & (c' & [= <-] & Hm') & _). congruence. }
    destruct (Project.PermitOnlyProjectScopedClusters proj).
    2:{ cbn. split; [done|]. by intros (_ & _ & _ & _ & ? & _). }
    destruct (projectClusters (Project.Name proj)) as [clusters|err].
    { cbn. split; [done|]. by intros (_ & _ & _ & _ & _ & err & ? & _). }
    cbn. split.
    + intros [= <-]. repeat split; try done.
      * by exists c.
      * by exists err.
    + intros (_ & _ & _ & _ & _ & err' & [= <-] & ->). done.
Qed.

End Destinations.

Section SourcePermission.

Variable glob_Match : string -> string -> list ascii -> bool.
Variable NormalizeGitURL : string -> string.

(** [matched] of the loop body of [IsSourcePermitted]. *)
Definition sourceRepoMatches (repoURL : string) (src : ApplicationSource) : bool :=
  globMatch glob_Match (normalizeSourceRepo NormalizeGitURL repoURL)
    (NormalizeGitURL (RepoURL src)) true ["/"%char].

Lemma sourceReposLoop_true repos src acc :
  sourceReposLoop glob_Match NormalizeGitURL repos (NormalizeGitURL (RepoURL src)) acc
  = true <->
    (acc = true \/ exists repoURL, repoURL ∈ repos /\ sourceRepoMatches repoURL src = true)
    /\ (forall repoURL, repoURL ∈ repos -> sourceRepoMatches repoURL src = false ->
          isDenyPattern (normalizeSourceRepo NormalizeGitURL repoURL) = false).
Proof.
  revert acc. induction repos as [|r rest IH]; intros acc; cbn [sourceReposLoop].
  { split.
    - intros ->. split; [by left|]. intros x Hin. by apply elem_of_nil in Hin.
    - intros [[?|(x & Hin & _)] _]; [done|]. by apply elem_of_nil in Hin. }
  fold (sourceRepoMatches r src).
  destruct (sourceRepoMatches r src) eqn:Hm.
  - rewrite IH. split.
    + intros [_ Hall]. split.
      * right. exists r. split; [apply list_elem_of_here|done].
      * intros x Hx Hxm. apply elem_of_cons in Hx as [->|Hx]; [congruence|].
        by apply Hall.
    + intros [_ Hall]. split; [by left|].
      intros x Hx. apply Hall. by apply list_elem_of_further.
  - destruct (isDenyPattern (normalizeSourceRepo NormalizeGitURL r)) eqn:Hd.
    + split; [done|]. intros [_ Hall].
      rewrite (Hall r (list_elem_of_here _ _) Hm) in Hd. done.
    + rewrite IH. split.
      * intros [Hany Hall]. split.
        -- destruct Hany as [?|(x & Hx & Hxm)]; [by left|right].
           exists x. split; [by apply list_elem_of_further|done].
        -- intros x Hx Hxm. apply elem_of_cons in Hx as [->|Hx]; [done|].
           by apply Hall.
      * intros [Hany Hall]. split.
        -- destruct Hany as [?|(x & Hx & Hxm)]; [by left|right].
           apply elem_of_cons in Hx as [->|Hx]; [congruence|]. by exists x.
        -- intros x Hx. apply Hall. by apply list_elem_of_further.
Qed.

(** X10. [IsSourcePermitted] holds exactly when some entry of
    [Spec.SourceRepos] matches the source and every entry that does not
    match it is no deny pattern once normalised; in particular an empty
    list permits nothing, and the order of the entries does not matter. *)
Theorem IsSourcePermitted_iff (proj : AppProject) (src : ApplicationSource) :
  IsSourcePermitted glob_Match NormalizeGitURL proj src = true <->
    (exists repoURL, repoURL ∈ SourceRepos (Spec proj)
                     /\ sourceRepoMatches repoURL src = true)
    /\ (forall repoURL, repoURL ∈ SourceRepos (Spec proj) ->
          sourceRepoMatches repoURL src = false ->
          isDenyPattern (normalizeSourceRepo NormalizeGitURL repoURL) = false).
Proof.
  unfold IsSourcePermitted. rewrite sourceReposLoop_true.
  split; (intros [Hany Hall]; split; [|done]).
  - by destruct Hany.
  - by right.
Qed.

End SourcePermission.

(** ** Validating a project *)

(** [strings.Contains(s, string(c))] for a one-byte [c]. *)
Fixpoint containsByte (c : ascii) (s : string) : bool :=
  match s with
  | EmptyString => false
  | String a rest => Ascii.eqb a c || containsByte c rest
  end.

(** [strings.ContainsAny(s, chars)] for [chars] made of one-byte
    characters. *)
Fixpoint containsAny (s chars : string) : bool :=
  match s with
  | EmptyString => false
  | String a rest => containsByte a chars || containsAny rest chars
  end.

(** [strings.Trim(s, " ")]: leading spaces dropped, then trailing ones. *)
Fixpoint trimLeftSpaces (s : string) : string :=
  match s with
  | String a rest => if Ascii.eqb a " " then trimLeftSpaces rest else s
  | EmptyString => EmptyString
  end.

Fixpoint trimRightSpaces (s : string) : string :=
  match s with
  | EmptyString => EmptyString
  | String a rest =>
      let rest' := trimRightSpaces rest in
      if Ascii.eqb a " " && String.eqb rest' "" then EmptyString
      else String a rest'
  end.

Definition trimSpaces (s : string) : string := trimRightSpaces (trimLeftSpaces s).

Definition serviceAccountDisallowedCharSet : string := "!*[]{}\/".

(** The errors of [ValidateProject]: the gRPC code and the text are in the
    comments. *)
Inductive ValidationError :=
| InvalidFormat (field value : string)
    (* InvalidArgument: <field> has an invalid format, '<value>' *)
| AlreadyAdded (what key : string)
    (* InvalidArgument: <what> '<key>' already added *)
| AlreadyExists (what name owner : string)
    (* AlreadyExists: <what> '<name>' already exists [for role '<owner>'] *)
| Rejected (e : string)
    (* the error of a validator, returned as it is *)
| WindowHashFailure (window : SyncWindow.t) (e : string)
    (* Internal: failed to generate hash for sync window ... *)
| WindowAlreadyExists (window : SyncWindow.t) (windowHash : Z)
    (* AlreadyExists: sync window ... already exists (hash=..., duplicate detected) *)
| WindowRequiresTarget (window : SyncWindow.t)
    (* OutOfRange: window ... requires one of application, cluster or namespace *).

(** The shape shared by the loops of [ValidateProject]: each keeps a map of
    the keys seen so far; for each element, in order, the checks [pre] that
    come before the look-up of its key, the look-up (a key already seen is
    the error [dup]), the checks [post] that come after it, and then
    [seen[key] = true]. *)
Fixpoint rangeUnique {A K} `{Countable K} (key : A -> K)
    (pre post : A -> option ValidationError) (dup : A -> ValidationError)
    (l : list A) (seen : gmap K bool) : option ValidationError :=
  match l with
  | [] => None
  | x :: rest =>
      match pre x with
      | Some e => Some e
      | None =>
          match seen !! key x with
          | Some _ => Some (dup x)
          | None =>
              match post x with
              | Some e => Some e
              | None => rangeUnique key pre post dup rest (<[key x := true]> seen)
              end
          end
      end
  end.

Definition noCheck {A} (_ : A) : option ValidationError := None.

(** [key] of the loop over [proj.Spec.Destinations]. *)
Definition destinationKey (dest : ApplicationDestination.t) : string :=
  if String.eqb (ApplicationDestination.Server dest) ""
     && negb (String.eqb (ApplicationDestination.Name dest) "")
  then ApplicationDestination.Name dest +:+ "/" +:+ ApplicationDestination.Namespace dest
  else ApplicationDestination.Server dest +:+ "/" +:+ ApplicationDestination.Namespace dest.

Definition destinationFormat (dest : ApplicationDestination.t)
    : option ValidationError :=
  if String.eqb (ApplicationDestination.Name dest) "!*"
  then Some (InvalidFormat "name" "!*")
  else if String.eqb (ApplicationDestination.Server dest) "!*"
  then Some (InvalidFormat "server" "!*")
  else if String.eqb (ApplicationDestination.Namespace dest) "!*"
  then Some (InvalidFormat "namespace" "!*")
  else None.

Definition sourceRepoFormat (src : string) : option ValidationError :=
  if String.eqb src "!*" then Some (InvalidFormat "source repository" "!*") else None.

Definition serviceAccountKey (acct : ApplicationDestinationServiceAccount.t) : string :=
  ApplicationDestinationServiceAccount.Server acct +:+ "/"
  +:+ ApplicationDestinationServiceAccount.Namespace acct.

Section Validation.

(** Outside this file: [validateRoleName], [validatePolicy] and
    [validateGroupName], the methods [HasWindows], [HashIdentity] and
    [Validate] of sync windows, and [globutil.Compile], of which only the
    error is used.  [None] is the nil error. *)
Variable validateRoleName : string -> option string.
Variable validatePolicy : string -> string -> string -> option string.
Variable validateGroupName : string -> option string.
Variable HasWindows : list (option SyncWindow.t) -> bool.
Variable HashIdentity : SyncWindow.t -> Z + string.
Variable Validate : SyncWindow.t -> option string.
Variable globCompile : string -> option string.

Definition rejected (e : option string) : option ValidationError :=
  match e with Some e => Some (Rejected e) | None => None end.

(** The body of the loop over [proj.Spec.Roles] that follows the look-up of
    the role name: the name, then the policies, then the groups. *)
Definition roleChecks (projName : string) (role : Role.t) : option ValidationError :=
  match rejected (validateRoleName (Role.Name role)) with
  | Some e => Some e
  | None =>
      match rangeUnique (fun policy : string => policy) noCheck
              (fun policy => rejected (validatePolicy projName (Role.Name role) policy))
              (fun policy => AlreadyExists "policy" policy (Role.Name role))
              (Role.Policies role) ∅ with
      | Some e => Some e
      | None =>
          rangeUnique (fun group : string => group) noCheck
            (fun group => rejected (validateGroupName group))
            (fun group => AlreadyExists "group" group (Role.Name role))
            (Role.Groups role) ∅
      end
  end.

(** The loop over the sync windows skips the nil ones; the key of a window
    is its hash. *)
Definition windowHash (window : SyncWindow.t) : Z :=
  match HashIdentity window with inl h => h | inr _ => 0 end.

Definition windowHashed (window : SyncWindow.t) : option ValidationError :=
  match HashIdentity window with
  | inr hashErr => Some (WindowHashFailure window hashErr)
  | inl _ => None
  end.

Definition windowChecks (window : SyncWindow.t) : option ValidationError :=
  match rejected (Validate window) with
  | Some e => Some e
  | None =>
      if (length (SyncWindow.Applications window) =? 0)%nat
         && (length (SyncWindow.Namespaces window) =? 0)%nat
         && (length (SyncWindow.Clusters window) =? 0)%nat
      then Some (WindowRequiresTarget window)
      else None
  end.

Definition serviceAccountFormat (acct : ApplicationDestinationServiceAccount.t)
    : option ValidationError :=
  let server := ApplicationDestinationServiceAccount.Server acct in
  let namespace := ApplicationDestinationServiceAccount.Namespace acct in
  let account := ApplicationDestinationServiceAccount.DefaultServiceAccount acct in
  if containsByte "!" server then Some (InvalidFormat "server" server)
  else if containsByte "!" namespace then Some (InvalidFormat "namespace" namespace)
  else if String.eqb (trimSpaces account) ""
          || containsAny account serviceAccountDisallowedCharSet
  then Some (InvalidFormat "defaultServiceAccount" account)
  else if bool_decide (is_Some (globCompile server))
  then Some (InvalidFormat "server" server)
  else if bool_decide (is_Some (globCompile namespace))
  then Some (InvalidFormat "namespace" namespace)
  else None.

(** [ValidateProject]: the loops in the order of the source, the first
    error returned. *)
Definition ValidateProject (proj : Project.t) : option ValidationError :=
  match rangeUnique destinationKey destinationFormat noCheck
          (fun dest => AlreadyAdded "destination" (destinationKey dest))
          (Project.Destinations proj) ∅ with
  | Some e => Some e
  | None =>
  match rangeUnique (fun ns : string => ns) noCheck noCheck
          (fun ns => AlreadyAdded "source namespace" ns)
          (Project.SourceNamespaces proj) ∅ with
  | Some e => Some e
  | None =>
  match rangeUnique (fun src : string => src) sourceRepoFormat noCheck
          (fun src => AlreadyAdded "source repository" src)
          (Project.SourceRepos proj) ∅ with
  | Some e => Some e
  | None =>
  match rangeUnique Role.Name noCheck (roleChecks (Project.Name proj))
          (fun role => AlreadyExists "role" (Role.Name role) "")
          (Project.Roles proj) ∅ with
  | Some e => Some e
  | None =>
  match (if HasWindows (Project.SyncWindows proj)
         then rangeUnique windowHash windowHashed windowChecks
                (fun window => WindowAlreadyExists window (windowHash window))
                (omap (fun window : option SyncWindow.t => window)
                   (Project.SyncWindows proj)) ∅
         else None) with
  | Some e => Some e
  | None =>
      rangeUnique serviceAccountKey serviceAccountFormat noCheck
        (fun acct => AlreadyAdded "destinationServiceAccount" (serviceAccountKey acct))
        (Project.DestinationServiceAccounts proj) ∅
  end end end end end.

Lemma rangeUnique_None {A K} `{Countable K} (key : A -> K)
    (pre post : A -> option ValidationError) (dup : A -> ValidationError)
    (l : list A) (seen : gmap K bool) :
  rangeUnique key pre post dup l seen = None <->
    (forall x, x ∈ l -> pre x = None /\ post x = None /\ seen !! key x = None)
    /\ NoDup (key <$> l).
Proof.
  revert seen. induction l as [|x rest IH]; intros seen; cbn [rangeUnique].
  { split; [|done]. intros _. split; [|constructor].
    intros x Hx. by apply elem_of_nil in Hx. }
  rewrite fmap_cons, NoDup_cons.
  destruct (pre x) eqn:Hpre.
  { split; [done|]. intros [Hall _].
    destruct (Hall x (list_elem_of_here _ _)) as (? & _). congruence. }
  destruct (seen !! key x) eqn:Hseen.
  { split; [done|]. intros [Hall _].
    destruct (Hall x (list_elem_of_here _ _)) as (_ & _ & ?). congruence. }
  destruct (post x) eqn:Hpost.
  { split; [done|]. intros [Hall _].
    destruct (Hall x (list_elem_of_here _ _)) as (_ & ? & _). congruence. }
  rewrite IH. split.
  - intros [Hall Hnd]. split; [|split; [|done]].
    + intros y Hy. apply elem_of_cons in Hy as [->|Hy]; [done|].
      destruct (Hall y Hy) as (? & ? & Hy'). apply lookup_insert_None in Hy'.
      by destruct Hy'.
    + intros Hin. apply list_elem_of_fmap in Hin as (y & Heq & Hy).
      destruct (Hall y Hy) as (_ & _ & Hy'). apply lookup_insert_None in Hy'.
      by destruct Hy'.
  - intros [Hall [Hfresh Hnd]]. split; [|done].
    intros y Hy. destruct (Hall y (list_elem_of_further _ _ _ Hy)) as (? & ? & ?).
    split; [done|]. split; [done|]. apply lookup_insert_None. split; [done|].
    intros Heq. apply Hfresh. apply list_elem_of_fmap. by exists y.
Qed.

(** What [roleChecks] asks of a role. *)
Definition wellFormedRole (projName : string) (role : Role.t) : Prop :=
  validateRoleName (Role.Name role) = None
  /\ NoDup (Role.Policies role)
  /\ (forall policy, policy ∈ Role.Policies role ->
        validatePolicy projName (Role.Name role) policy = None)
  /\ NoDup (Role.Groups role)
  /\ (forall group, group ∈ Role.Groups role -> validateGroupName group = None).

Definition wellFormedWindow (window : SyncWindow.t) : Prop :=
  (exists h, HashIdentity window = inl h)
  /\ Validate window = None
  /\ (SyncWindow.Applications window <> [] \/ SyncWindow.Namespaces window <> []
      \/ SyncWindow.Clusters window <> []).

Definition wellFormedServiceAccount (acct : ApplicationDestinationServiceAccount.t)
    : Prop :=
  let server := ApplicationDestinationServiceAccount.Server acct in
  let namespace := ApplicationDestinationServiceAccount.Namespace acct in
  let account := ApplicationDestinationServiceAccount.DefaultServiceAccount acct in
  containsByte "!" server = false
  /\ containsByte "!" namespace = false
  /\ trimSpaces account <> ""
  /\ containsAny account serviceAccountDisallowedCharSet = false
  /\ globCompile server = None
  /\ globCompile namespace = None.

Lemma rejected_None (e : option string) : rejected e = None <-> e = None.
Proof. by destruct e. Qed.

Lemma roleChecks_None projName role :
  roleChecks projName role = None <-> wellFormedRole projName role.
Proof.
  unfold roleChecks, wellFormedRole.
  pose proof (rangeUnique_None (fun policy : string => policy) noCheck
    (fun policy => rejected (validatePolicy projName (Role.Name role) policy))
    (fun policy => AlreadyExists "policy" policy (Role.Name role))
    (Role.Policies role) ∅) as Hp.
  pose proof (rangeUnique_None (fun group : string => group) noCheck
    (fun group => rejected (validateGroupName group))
    (fun group => AlreadyExists "group" group (Role.Name role))
    (Role.Groups role) ∅) as Hg.
  rewrite list_fmap_id in Hp, Hg.
  destruct (validateRoleName (Role.Name role)); cbn [rejected].
  { split; [done|]. by intros [? _]. }
  destruct (rangeUnique _ _ _ _ (Role.Policies role) _).
  { split; [done|]. intros (_ & Hnd & Hall & _).
    assert (@Some ValidationError v = None); [|done].
    apply Hp. split; [|done]. intros x Hx. split; [done|].
    split; [by apply rejected_None, Hall|apply lookup_empty]. }
  destruct (proj1 Hp eq_refl) as [Hpall Hpnd]. rewrite Hg. split.
  - intros [Hgall Hgnd]. split; [done|]. split; [done|].
    split; [|split; [done|]].
    + intros x Hx. by apply rejected_None, Hpall.
    + intros x Hx. by apply rejected_None, Hgall.
  - intros (_ & _ & _ & Hgnd & Hgall). split; [|done].
    intros x Hx. split; [done|].
    split; [by apply rejected_None, Hgall|apply lookup_empty].
Qed.

Lemma destinationFormat_None dest :
  destinationFormat dest = None <->
    ApplicationDestination.Name dest <> "!*"
    /\ ApplicationDestination.Server dest <> "!*"
    /\ ApplicationDestination.Namespace dest <> "!*".
Proof.
  unfold destinationFormat.
  destruct (String.eqb_spec (ApplicationDestination.Name dest) "!*");
    [split; [done|by intros [? _]]|].
  destruct (String.eqb_spec (ApplicationDestination.Server dest) "!*");
    [split; [done|by intros (_ & ? & _)]|].
  destruct (String.eqb_spec (ApplicationDestination.Namespace dest) "!*");
    [split; [done|by intros (_ & _ & ?)]|].
  done.
Qed.

Lemma windowChecks_None window :
  windowHashed window = None /\ windowChecks window = None <-> wellFormedWindow window.
Proof.
  unfold windowHashed, windowChecks, wellFormedWindow.
  destruct (HashIdentity window) as [h|e].
  2:{ split; [by intros [? _]|]. by intros [[h ?] _]. }
  destruct (Validate window); cbn [rejected].
  { split; [by intros [_ ?]|]. by intros (_ & ? & _). }
  destruct (SyncWindow.Applications window), (SyncWindow.Namespaces window),
    (SyncWindow.Clusters window); cbn; split;
    try (intros [_ ?]; done); try (intros (_ & _ & [?|[?|?]]); done);
    intros _; (split; [by eauto|]); (split; [done|]); auto.
Qed.

Lemma serviceAccountFormat_None acct :
  serviceAccountFormat acct = None <-> wellFormedServiceAccount acct.
Proof.
  unfold serviceAccountFormat, wellFormedServiceAccount. cbv zeta.
  destruct (containsByte "!" (ApplicationDestinationServiceAccount.Server acct));
    [split; [done|by intros [? _]]|].
  destruct (containsByte "!" (ApplicationDestinationServiceAccount.Namespace acct));
    [split; [done|by intros (_ & ? & _)]|].
  destruct (String.eqb_spec
              (trimSpaces (ApplicationDestinationServiceAccount.DefaultServiceAccount acct))
              ""); cbn [orb];
    [split; [done|by intros (_ & _ & ? & _)]|].
  destruct (containsAny _ _);
    [split; [done|by intros (_ & _ & _ & ? & _)]|].
  destruct (globCompile (ApplicationDestinationServiceAccount.Server acct)); cbn.
  { split; [done|by intros (_ & _ & _ & _ & ? & _)]. }
  destruct (globCompile (ApplicationDestinationServiceAccount.Namespace acct)); cbn.
  { split; [done|by intros (_ & _ & _ & _ & _ & ?)]. }
  done.
Qed.

Lemma stage_destinations dup dests :
  rangeUnique destinationKey destinationFormat noCheck dup dests ∅ = None <->
    (forall dest, dest ∈ dests ->
       ApplicationDestination.Name dest <> "!*"
       /\ ApplicationDestination.Server dest <> "!*"
       /\ ApplicationDestination.Namespace dest <> "!*")
    /\ NoDup (destinationKey <$> dests).
Proof.
  rewrite rangeUnique_None. split; (intros [Hall Hnd]; split; [|done]).
  - intros dest Hin. apply destinationFormat_None. by apply Hall.
  - intros dest Hin. split; [by apply destinationFormat_None, Hall|].
    split; [done|apply lookup_empty].
Qed.

Lemma stage_names dup (l : list string) :
  rangeUnique (fun x : string => x) noCheck noCheck dup l ∅ = None <-> NoDup l.
Proof.
  rewrite rangeUnique_None, list_fmap_id. split; [by intros [_ ?]|].
  intros Hnd. split; [|done]. intros x _. split; [done|]. split; [done|apply lookup_empty].
Qed.

Lemma stage_repos dup (l : list string) :
  rangeUnique (fun x : string => x) sourceRepoFormat noCheck dup l ∅ = None <->
    ("!*" ∉ l) /\ NoDup l.
Proof.
  rewrite rangeUnique_None, list_fmap_id. split; (intros [Hall Hnd]; split; [|done]).
  - intros Hin. by destruct (Hall _ Hin) as [? _].
  - intros x Hin. split; [|split; [done|apply lookup_empty]].
    unfold sourceRepoFormat. destruct (String.eqb_spec x "!*") as [->|]; done.
Qed.

Lemma stage_roles projName dup roles :
  rangeUnique Role.Name noCheck (roleChecks projName) dup roles ∅ = None <->
    NoDup (Role.Name <$> roles)
    /\ (forall role, role ∈ roles -> wellFormedRole projName role).
Proof.
  rewrite rangeUnique_None. split.
  - intros [Hall Hnd]. split; [done|]. intros role Hin.
    apply roleChecks_None. by apply Hall.
  - intros [Hnd Hall]. split; [|done]. intros role Hin. split; [done|].
    split; [by apply roleChecks_None, Hall|apply lookup_empty].
Qed.

Lemma stage_windows dup windows :
  (if HasWindows windows
   then rangeUnique windowHash windowHashed windowChecks dup
          (omap (fun window : option SyncWindow.t => window) windows) ∅
   else None) = None <->
    (HasWindows windows = true ->
     (forall window, Some window ∈ windows -> wellFormedWindow window)
     /\ NoDup (windowHash <$> omap (fun window : option SyncWindow.t => window) windows)).
Proof.
  destruct (HasWindows windows); [|by split].
  rewrite rangeUnique_None. split.
  - intros [Hall Hnd] _. split; [|done]. intros window Hin.
    apply windowChecks_None. destruct (Hall window) as (? & ? & _); [|done].
    apply list_elem_of_omap. by exists (Some window).
  - intros H. destruct (H eq_refl) as [Hall Hnd]. split; [|done].
    intros window Hin. apply list_elem_of_omap in Hin as (w & Hin & ->).
    destruct (proj2 (windowChecks_None window) (Hall _ Hin)) as [? ?].
    split; [done|]. split; [done|apply lookup_empty].
Qed.

Lemma stage_accounts dup accts :
  rangeUnique serviceAccountKey serviceAccountFormat noCheck dup accts ∅ = None <->
    (forall acct, acct ∈ accts -> wellFormedServiceAccount acct)
    /\ NoDup (serviceAccountKey <$> accts).
Proof.
  rewrite rangeUnique_None. split; (intros [Hall Hnd]; split; [|done]).
  - intros acct Hin. apply serviceAccountFormat_None. by apply Hall.
  - intros acct Hin. split; [by apply serviceAccountFormat_None, Hall|].
    split; [done|apply lookup_empty].
Qed.

(** X11. [ValidateProject] accepts a project exactly when: no destination
    has ['!*'] as name, server or namespace, and destination keys are
    pairwise distinct; source namespaces are pairwise distinct; no source
    repository is ['!*'] and they are pairwise distinct; role names are
    pairwise distinct and each role has a valid name and pairwise distinct,
    valid policies and groups; the sync windows, when there are any, hash
    without error to pairwise distinct values, are valid and name a target;
    and the destination service accounts are well formed with pairwise
    distinct keys. *)
Theorem ValidateProject_accepts_iff (proj : Project.t) :
  ValidateProject proj = None <->
    (forall dest, dest ∈ Project.Destinations proj ->
       ApplicationDestination.Name dest <> "!*"
       /\ ApplicationDestination.Server dest <> "!*"
       /\ ApplicationDestination.Namespace dest <> "!*")
    /\ NoDup (destinationKey <$> Project.Destinations proj)
    /\ NoDup (Project.SourceNamespaces proj)
    /\ ("!*" ∉ Project.SourceRepos proj)
    /\ NoDup (Project.SourceRepos proj)
    /\ NoDup (Role.Name <$> Project.Roles proj)
    /\ (forall role, role ∈ Project.Roles proj ->
          wellFormedRole (Project.Name proj) role)
    /\ (HasWindows (Project.SyncWindows proj) = true ->
        (forall window, Some window ∈ Project.SyncWindows proj ->
           wellFormedWindow window)
        /\ NoDup (windowHash
                    <$> omap (fun window : option SyncWindow.t => window)
                          (Project.SyncWindows proj)))
    /\ (forall acct, acct ∈ Project.DestinationServiceAccounts proj ->
          wellFormedServiceAccount acct)
    /\ NoDup (serviceAccountKey <$> Project.DestinationServiceAccounts proj).
Proof.
  unfold ValidateProject. split.
  - intros H.
    destruct (rangeUnique destinationKey _ _ _ _ _) eqn:E1; [done|].
    destruct (rangeUnique _ noCheck noCheck _ _ _) eqn:E2; [done|].
    destruct (rangeUnique _ sourceRepoFormat _ _ _ _) eqn:E3; [done|].
    destruct (rangeUnique Role.Name _ _ _ _ _) eqn:E4; [done|].
    destruct (if HasWindows _ then _ else _) eqn:E5; [done|].
    apply stage_destinations in E1 as [? ?]. apply stage_names in E2.
    apply stage_repos in E3 as [? ?]. apply stage_roles in E4 as [? ?].
    pose proof (proj1 (stage_windows _ _) E5).
    apply stage_accounts in H as [? ?]. done.
  - intros (H1 & H2 & H3 & H4 & H5 & H6 & H7 & H8 & H9 & H10).
    rewrite (proj2 (stage_destinations _ _) (conj H1 H2)).
    rewrite (proj2 (stage_names _ _) H3).
    rewrite (proj2 (stage_repos _ _) (conj H4 H5)).
    rewrite (proj2 (stage_roles _ _ _) (conj H6 H7)).
    rewrite (proj2 (stage_windows _ _) H8).
    by apply stage_accounts.
Qed.

End Validation.

(** ** Groups of a role *)

Module RoleBindings.

(** [GetRoleByName] on the project with its role bindings. *)
Definition GetRoleByName (proj : Project.t) (name : string)
    : Role.t * nat + ProjectError :=
  match rangeFind (fun role => String.eqb name (Role.Name role))
          (Project.Roles proj) 0 with
  | Some found => inl found
  | None => inr (RoleNotFound name)
  end.

(** [proj.Spec.Roles[roleIndex] = *role]. *)
Definition setRole (proj : Project.t) (roleIndex : nat) (role : Role.t) : Project.t :=
  Project.mk (Project.Name proj) (Project.SourceRepos proj)
    (Project.Destinations proj) (<[roleIndex := role]> (Project.Roles proj))
    (Project.SourceNamespaces proj) (Project.SyncWindows proj)
    (Project.PermitOnlyProjectScopedClusters proj)
    (Project.DestinationServiceAccounts proj)
    (Project.ClusterResourceWhitelist proj) (Project.ClusterResourceBlacklist proj)
    (Project.NamespaceResourceWhitelist proj) (Project.NamespaceResourceBlacklist proj)
    (Project.Status proj).

Definition withGroups (role : Role.t) (groups : list string) : Role.t :=
  Role.mk (Role.Name role) (Role.Policies role) (Role.JWTTokens role) groups.

(** [AddGroupToRole]: the pair it returns and the project it leaves. *)
Definition AddGroupToRole (proj : Project.t) (roleName group : string)
    : (bool * option ProjectError) * Project.t :=
  match GetRoleByName proj roleName with
  | inr err => ((false, Some err), proj)
  | inl (role, roleIndex) =>
      match rangeFind (fun roleGroup => String.eqb group roleGroup)
              (Role.Groups role) 0 with
      | Some _ => ((false, None), proj)
      | None =>
          ((true, None),
           setRole proj roleIndex (withGroups role (Role.Groups role ++ [group])%list))
      end
  end.

(** [RemoveGroupFromRole]; [append(role.Groups[:i], role.Groups[i+1:]...)]
    is the list without its element at [i]. *)
Definition RemoveGroupFromRole (proj : Project.t) (roleName group : string)
    : (bool * option ProjectError) * Project.t :=
  match GetRoleByName proj roleName with
  | inr err => ((false, Some err), proj)
  | inl (role, roleIndex) =>
      match rangeFind (fun roleGroup => String.eqb group roleGroup)
              (Role.Groups role) 0 with
      | Some (_, i) =>
          ((true, None),
           setRole proj roleIndex
             (withGroups role (take i (Role.Groups role)
                               ++ drop (S i) (Role.Groups role))%list))
      | None => ((false, None), proj)
      end
  end.

End RoleBindings.

Lemma eqb_group (group roleGroup : string) :
  String.eqb group roleGroup = true <-> roleGroup = group.
Proof. rewrite String.eqb_eq. split; congruence. Qed.

Lemma eqb_role_name (name : string) (role : Role.t) :
  String.eqb name (Role.Name role) = true <-> Role.Name role = name.
Proof. rewrite String.eqb_eq. split; congruence. Qed.

Lemma RoleBindings_GetRoleByName_inl (proj : Project.t) (name : string) role i :
  RoleBindings.GetRoleByName proj name = inl (role, i) <->
  firstWith (fun r => Role.Name r = name) (Project.Roles proj) i role.
Proof.
  unfold RoleBindings.GetRoleByName.
  rewrite <- (rangeFind_firstWith _ _ _ _ _ (eqb_role_name name)).
  destruct (rangeFind _ _ _) as [[r k]|]; split; congruence.
Qed.

(** Writing at [roleIndex] a role of the same name leaves the look-up by
    that name where it was. *)
Lemma RoleBindings_GetRoleByName_setRole (proj : Project.t) (name : string)
    role i role' :
  RoleBindings.GetRoleByName proj name = inl (role, i) ->
  Role.Name role' = Role.Name role ->
  RoleBindings.GetRoleByName (RoleBindings.setRole proj i role') name = inl (role', i).
Proof.
  intros Hget Hname. apply RoleBindings_GetRoleByName_inl in Hget as (Hi & Hn & Hmin).
  apply RoleBindings_GetRoleByName_inl. cbn [RoleBindings.setRole Project.Roles].
  split; [|split; [congruence|]].
  - apply list_lookup_insert_eq. by apply lookup_lt_Some in Hi.
  - intros j r Hlt Hj. rewrite list_lookup_insert_ne in Hj by lia. by apply (Hmin j).
Qed.

Lemma setRole_same (proj : Project.t) (i : nat) (role role' : Role.t) :
  Project.Roles proj !! i = Some role ->
  RoleBindings.setRole (RoleBindings.setRole proj i role') i role = proj.
Proof.
  intros Hi. destruct proj. unfold RoleBindings.setRole. cbn in *.
  by rewrite list_insert_insert_eq, list_insert_id.
Qed.

Lemma withGroups_same (role : Role.t) (groups : list string) :
  RoleBindings.withGroups (RoleBindings.withGroups role groups) (Role.Groups role) = role.
Proof. by destruct role. Qed.

Lemma rangeFind_group_absent (group : string) (groups : list string) :
  group ∉ groups ->
  rangeFind (fun roleGroup => String.eqb group roleGroup) groups 0 = None.
Proof.
  intros Hnot. apply (rangeFind_none_with _ (fun g => g = group) _ _ (eqb_group group)).
  intros x Hx ->. done.
Qed.

Lemma rangeFind_group_present (group : string) (groups : list string) :
  group ∈ groups ->
  exists k, rangeFind (fun roleGroup => String.eqb group roleGroup) groups 0
            = Some (group, k)
            /\ firstWith (fun g => g = group) groups k group.
Proof.
  intros Hin.
  destruct (rangeFind (fun roleGroup => String.eqb group roleGroup) groups 0)
    as [[g k]|] eqn:Hf.
  - pose proof (proj1 (rangeFind_firstWith _ (fun g => g = group) _ _ _
                         (eqb_group group)) Hf) as Hfirst.
    destruct Hfirst as (Hk & -> & Hmin). exists k. by repeat split.
  - pose proof (proj1 (rangeFind_none_with _ (fun g => g = group) _ _
                         (eqb_group group)) Hf) as Hnone.
    by destruct (Hnone group Hin).
Qed.

(** X12. Adding a group that a role does not have and then removing it
    gives the project back: [AddGroupToRole] reports a change, and so does
    [RemoveGroupFromRole], which restores every field. *)
Theorem AddGroupToRole_then_RemoveGroupFromRole (proj : Project.t)
    (roleName group : string) (role : Role.t) (i : nat) :
  RoleBindings.GetRoleByName proj roleName = inl (role, i) ->
  group ∉ Role.Groups role ->
  (RoleBindings.AddGroupToRole proj roleName group).1 = (true, None)
  /\ RoleBindings.RemoveGroupFromRole
       (RoleBindings.AddGroupToRole proj roleName group).2 roleName group
     = ((true, None), proj).
Proof.
  intros Hget Hnot. unfold RoleBindings.AddGroupToRole.
  rewrite Hget, (rangeFind_group_absent _ _ Hnot). cbn [fst snd]. split; [done|].
  unfold RoleBindings.RemoveGroupFromRole.
  rewrite (RoleBindings_GetRoleByName_setRole _ _ _ _
             (RoleBindings.withGroups role (Role.Groups role ++ [group])%list) Hget)
    by done.
  cbn [RoleBindings.withGroups Role.Groups].
  destruct (rangeFind_group_present group (Role.Groups role ++ [group])%list)
    as (k & Hf & Hk & _ & Hmin).
  { apply elem_of_app. right. by apply list_elem_of_singleton. }
  assert (k = length (Role.Groups role)) as ->.
  { destruct (decide (k < length (Role.Groups role))%nat) as [Hlt|Hge].
    - rewrite lookup_app_l in Hk by done. exfalso. apply Hnot.
      by apply list_elem_of_lookup_2 with k.
    - apply lookup_lt_Some in Hk. rewrite length_app in Hk. cbn in Hk. lia. }
  rewrite Hf, take_app_length.
  rewrite drop_ge by (rewrite length_app; cbn; lia).
  rewrite app_nil_r.
  change (RoleBindings.withGroups
            {| Role.Name := Role.Name role; Role.Policies := Role.Policies role;
               Role.JWTTokens := Role.JWTTokens role;
               Role.Groups := (Role.Groups role ++ [group])%list |}
            (Role.Groups role))
    with (RoleBindings.withGroups
            (RoleBindings.withGroups role (Role.Groups role ++ [group])%list)
            (Role.Groups role)).
  rewrite withGroups_same, setRole_same; [done|].
  by apply RoleBindings_GetRoleByName_inl in Hget as (? & _).
Qed.

(** X13. [AddGroupToRole] is idempotent: called again with the same
    arguments it reports no change, gives the same error as the first call
    (none if the role exists) and leaves the project as the first call left
    it; after the first call the role, still found at the same index, has
    the group, and pairwise distinct groups stay pairwise distinct. *)
Theorem AddGroupToRole_idempotent (proj : Project.t) (roleName group : string) :
  let first := RoleBindings.AddGroupToRole proj roleName group in
  RoleBindings.AddGroupToRole first.2 roleName group = ((false, first.1.2), first.2)
  /\ (forall role i,
        RoleBindings.GetRoleByName proj roleName = inl (role, i) ->
        exists role1,
          RoleBindings.GetRoleByName first.2 roleName = inl (role1, i)
          /\ group ∈ Role.Groups role1
          /\ (NoDup (Role.Groups role) -> NoDup (Role.Groups role1))).
Proof.
  cbv zeta. unfold RoleBindings.AddGroupToRole at 2 3 4 5.
  destruct (RoleBindings.GetRoleByName proj roleName) as [[role i]|err] eqn:Hget.
  2:{ cbn [fst snd]. split; [|done]. unfold RoleBindings.AddGroupToRole. by rewrite Hget. }
  destruct (decide (group ∈ Role.Groups role)) as [Hin|Hnot].
  - destruct (rangeFind_group_present _ _ Hin) as (k & Hf & _).
    rewrite Hf. cbn [fst snd]. split.
    + unfold RoleBindings.AddGroupToRole. by rewrite Hget, Hf.
    + intros role0 i0 [= <- <-]. by exists role.
  - rewrite (rangeFind_group_absent _ _ Hnot). cbn [fst snd].
    pose proof (RoleBindings_GetRoleByName_setRole _ _ _ _
                  (RoleBindings.withGroups role (Role.Groups role ++ [group])%list)
                  Hget eq_refl) as Hget1.
    assert (group ∈ (Role.Groups role ++ [group])%list) as Hin1.
    { apply elem_of_app. right. by apply list_elem_of_singleton. }
    split.
    + unfold RoleBindings.AddGroupToRole. rewrite Hget1.
      cbn [RoleBindings.withGroups Role.Groups].
      destruct (rangeFind_group_present _ _ Hin1) as (k & Hf & _). by rewrite Hf.
    + intros role0 i0 [= <- <-]. eexists. split; [exact Hget1|].
      cbn [RoleBindings.withGroups Role.Groups]. split; [done|].
      intros Hnd. apply NoDup_app. split; [done|]. split; [|apply NoDup_singleton].
      intros x Hx Hx'. apply list_elem_of_singleton in Hx' as ->. done.
Qed.

(** X14. [RemoveGroupFromRole] removes the first occurrence of the group
    from the first role of the given name and reports a change; without an
    occurrence it reports none and leaves the project as it is.  When the
    groups of the role are pairwise distinct (as [ValidateProject]
    requires), the role no longer has the group afterwards. *)
Theorem RemoveGroupFromRole_first_occurrence (proj : Project.t)
    (roleName group : string) (role : Role.t) (i : nat) :
  RoleBindings.GetRoleByName proj roleName = inl (role, i) ->
  let out := RoleBindings.RemoveGroupFromRole proj roleName group in
  (group ∉ Role.Groups role -> out = ((false, None), proj))
  /\ (forall k, firstWith (fun g => g = group) (Role.Groups role) k group ->
        out.1 = (true, None)
        /\ RoleBindings.GetRoleByName out.2 roleName
           = inl (RoleBindings.withGroups role (delete k (Role.Groups role)), i))
  /\ (NoDup (Role.Groups role) ->
      forall role1 j,
        RoleBindings.GetRoleByName out.2 roleName = inl (role1, j) ->
        group ∉ Role.Groups role1).
Proof.
  intros Hget out. subst out. unfold RoleBindings.RemoveGroupFromRole. rewrite Hget.
  assert (forall k,
            rangeFind (fun roleGroup => String.eqb group roleGroup) (Role.Groups role) 0
            = Some (group, k) ->
            RoleBindings.GetRoleByName
              (RoleBindings.setRole proj i
                 (RoleBindings.withGroups role
                    (take k (Role.Groups role) ++ drop (S k) (Role.Groups role))%list))
              roleName
            = inl (RoleBindings.withGroups role (delete k (Role.Groups role)), i))
    as Hafter.
  { intros k _. rewrite <- delete_take_drop.
    by apply (RoleBindings_GetRoleByName_setRole _ _ role). }
  split; [|split].
  - intros Hnot. by rewrite (rangeFind_group_absent _ _ Hnot).
  - intros k Hk.
    assert (rangeFind (fun roleGroup => String.eqb group roleGroup) (Role.Groups role) 0
            = Some (group, k)) as Hf.
    { by apply (rangeFind_firstWith _ (fun g => g = group) _ _ _ (eqb_group group)). }
    rewrite Hf. cbn [fst snd]. split; [done|]. by apply Hafter.
  - intros Hnd role1 j.
    destruct (decide (group ∈ Role.Groups role)) as [Hin|Hnot].
    + destruct (rangeFind_group_present _ _ Hin) as (k & Hf & Hk & _).
      rewrite Hf. cbn [snd]. rewrite (Hafter k Hf). intros [= <- <-].
      cbn [RoleBindings.withGroups Role.Groups].
      pose proof (delete_Permutation _ _ _ Hk) as Hperm.
      rewrite Hperm in Hnd. by apply NoDup_cons in Hnd as [? _].
    + rewrite (rangeFind_group_absent _ _ Hnot). cbn [snd]. rewrite Hget.
      by intros [= <- <-].
Qed.

(** ** Normalising policies *)

(** [strings.Split(s, ",")]: the text between the commas; a string
    without comma is the only component. *)
Fixpoint splitComma (s : string) : list string :=
  match s with
  | EmptyString => [EmptyString]
  | String c rest =>
      if Ascii.eqb c "," then EmptyString :: splitComma rest
      else match splitComma rest with
           | component :: others => String c component :: others
           | [] => [String c EmptyString]
           end
  end.

(** The body of the loop of [normalizePolicy]. *)
Definition normalizeStep (normalizedPolicy component : string) : string :=
  if String.eqb normalizedPolicy "" then component
  else normalizedPolicy +:+ ", " +:+ trimSpaces component.

Definition normalizePolicy (policy : string) : string :=
  foldl normalizeStep "" (splitComma policy).

Definition normalizeRolePolicies (role : Role.t) : Role.t :=
  Role.mk (Role.Name role) (normalizePolicy <$> Role.Policies role)
    (Role.JWTTokens role) (Role.Groups role).

(** [NormalizePolicies]. *)
Definition NormalizePolicies (proj : Project.t) : Project.t :=
  Project.mk (Project.Name proj) (Project.SourceRepos proj)
    (Project.Destinations proj) (normalizeRolePolicies <$> Project.Roles proj)
    (Project.SourceNamespaces proj) (Project.SyncWindows proj)
    (Project.PermitOnlyProjectScopedClusters proj)
    (Project.DestinationServiceAccounts proj)
    (Project.ClusterResourceWhitelist proj) (Project.ClusterResourceBlacklist proj)
    (Project.NamespaceResourceWhitelist proj) (Project.NamespaceResourceBlacklist proj)
    (Project.Status proj).

Lemma splitComma_nonempty s : splitComma s <> [].
Proof.
  destruct s as [|c rest]; cbn; [done|].
  destruct (Ascii.eqb c ","); [done|]. by destruct (splitComma rest).
Qed.

Lemma splitComma_app a b :
  splitComma (a +:+ String "," b) = (splitComma a ++ splitComma b)%list.
Proof.
  induction a as [|c a IH]; [done|].
  change (String c a +:+ String "," b) with (String c (a +:+ String "," b)).
  cbn [splitComma]. destruct (Ascii.eqb c ","); [by rewrite IH|].
  rewrite IH. pose proof (splitComma_nonempty a).
  by destruct (splitComma a).
Qed.

Lemma splitComma_no_comma s :
  containsByte "," s = false -> splitComma s = [s].
Proof.
  induction s as [|c s IH]; [done|]. cbn [containsByte splitComma].
  intros H. apply orb_false_iff in H as [Hc Hs]. rewrite Hc, (IH Hs). done.
Qed.

Lemma splitComma_components s :
  Forall (fun component => containsByte "," component = false) (splitComma s).
Proof.
  induction s as [|c s IH]; cbn [splitComma]; [by repeat constructor|].
  destruct (Ascii.eqb c ",") eqn:Hc; [by constructor|].
  destruct (splitComma s) as [|component others].
  { constructor; [|constructor]. cbn [containsByte]. by rewrite Hc. }
  apply Forall_cons in IH as [H1 H2]. constructor; [|done].
  cbn [containsByte]. by rewrite Hc, H1.
Qed.

Lemma trimRightSpaces_idemp s : trimRightSpaces (trimRightSpaces s) = trimRightSpaces s.
Proof.
  induction s as [|a s IH]; [done|]. cbn [trimRightSpaces].
  destruct (Ascii.eqb a " " && String.eqb (trimRightSpaces s) "") eqn:E; [done|].
  cbn [trimRightSpaces]. by rewrite IH, E.
Qed.

Lemma trimLeftSpaces_trimmed s :
  trimLeftSpaces (trimRightSpaces (trimLeftSpaces s)) = trimRightSpaces (trimLeftSpaces s).
Proof.
  induction s as [|a s IH]; [done|]. cbn [trimLeftSpaces].
  destruct (Ascii.eqb a " ") eqn:Ha; [done|].
  cbn [trimRightSpaces]. rewrite Ha. cbn [andb trimLeftSpaces]. by rewrite Ha.
Qed.

Lemma trimSpaces_idemp s : trimSpaces (trimSpaces s) = trimSpaces s.
Proof.
  unfold trimSpaces. by rewrite trimLeftSpaces_trimmed, trimRightSpaces_idemp.
Qed.

Lemma trimSpaces_space s : trimSpaces (String " " s) = trimSpaces s.
Proof. done. Qed.

Lemma trimRightSpaces_no_comma s :
  containsByte "," s = false -> containsByte "," (trimRightSpaces s) = false.
Proof.
  induction s as [|a s IH]; [done|]. cbn [containsByte trimRightSpaces].
  intros H. apply orb_false_iff in H as [Ha Hs].
  destruct (Ascii.eqb a " " && _); [done|]. cbn [containsByte]. by rewrite Ha, IH.
Qed.

Lemma trimLeftSpaces_no_comma s :
  containsByte "," s = false -> containsByte "," (trimLeftSpaces s) = false.
Proof.
  induction s as [|a s IH]; [done|]. cbn [containsByte trimLeftSpaces].
  intros H. destruct (Ascii.eqb a " "); [|done].
  apply orb_false_iff in H as [_ Hs]. by apply IH.
Qed.

Lemma normalize_components (components : list string) :
  Forall (fun component => containsByte "," component = false) components ->
  foldl normalizeStep "" (splitComma (foldl normalizeStep "" components))
  = foldl normalizeStep "" components.
Proof.
  induction components as [|c components IH] using rev_ind; [done|].
  intros Hall. apply Forall_app in Hall as [Hall Hc].
  apply Forall_cons in Hc as [Hc _]. specialize (IH Hall).
  rewrite foldl_app. cbn [foldl].
  set (r := foldl normalizeStep "" components) in *.
  unfold normalizeStep at 2 3.
  destruct (String.eqb_spec r "") as [Hr|Hr].
  - by rewrite (splitComma_no_comma _ Hc).
  - change (r +:+ ", " +:+ trimSpaces c)
      with (r +:+ String "," (String " " (trimSpaces c))).
    rewrite splitComma_app, foldl_app, IH.
    rewrite splitComma_no_comma.
    2:{ cbn [containsByte]. cbn. unfold trimSpaces.
        by apply trimRightSpaces_no_comma, trimLeftSpaces_no_comma. }
    cbn [foldl]. unfold normalizeStep.
    destruct (String.eqb_spec r ""); [done|].
    by rewrite trimSpaces_space, trimSpaces_idemp.
Qed.

(** X15. [normalizePolicy] is idempotent, and so is [NormalizePolicies]:
    a policy that has been normalised is left as it is by a second
    normalisation. *)
Theorem NormalizePolicies_idempotent (proj : Project.t) (policy : string) :
  normalizePolicy (normalizePolicy policy) = normalizePolicy policy
  /\ NormalizePolicies (NormalizePolicies proj) = NormalizePolicies proj.
Proof.
  assert (forall p, normalizePolicy (normalizePolicy p) = normalizePolicy p) as Hone.
  { intros p. unfold normalizePolicy. apply normalize_components, splitComma_components. }
  split; [apply Hone|].
  unfold NormalizePolicies. cbn [Project.Roles Project.Name Project.SourceRepos
    Project.Destinations Project.SourceNamespaces Project.SyncWindows
    Project.PermitOnlyProjectScopedClusters Project.DestinationServiceAccounts
    Project.ClusterResourceWhitelist Project.ClusterResourceBlacklist
    Project.NamespaceResourceWhitelist Project.NamespaceResourceBlacklist
    Project.Status].
  f_equal. rewrite <- list_fmap_compose. apply list_fmap_ext. intros i role _.
  unfold normalizeRolePolicies, compose. cbn. f_equal.
  rewrite <- list_fmap_compose. apply list_fmap_ext. intros j p _. apply Hone.
Qed.

(** * reposerver/repository/repository.go *)

(** ** Machine integers *)

(** Go's [int] (64 bits on the supported platforms) and [int64]: the value
    of an arithmetic result after wrap-around. *)
Definition wrap64 (z : Z) : Z := (z + 2 ^ 63) mod 2 ^ 64 - 2 ^ 63.

Definition maxInt64 : Z := 2 ^ 63 - 1.

Lemma wrap64_small z : - 2 ^ 63 <= z <= maxInt64 -> wrap64 z = z.
Proof.
  unfold wrap64, maxInt64. intros H. rewrite Z.mod_small by lia. lia.
Qed.

(** ** Requests, responses and cache entries *)

Module ManifestResponse.
Record t := mk {
  Manifests : list string;
  SourceType : string;
  Commands : list string;
  Revision : string;
  VerifyResult : string
}.
End ManifestResponse.

(** [v1alpha1.RefTarget]: the repository (by its URL), the target revision
    and the chart of a source that declares a [ref]. *)
Record RefTarget := mkRefTarget {
  RefRepo : string;
  RefTargetRevision : string;
  RefChart : string
}.

Module ManifestRequest.
Record t := mk {
  Revision : string;
  NoCache : bool;
  NoRevisionCache : bool;
  VerifySignature : bool;
  HasMultipleSources : bool;
  Source : ApplicationSource;
  RefSources : gmap string RefTarget
}.
End ManifestRequest.

Module CachedManifestResponse.
(** The fields of [cache.CachedManifestResponse] that repository.go reads
    and writes; [ManifestResponse] is a pointer, [None] when nil. *)
Record t := mk {
  ManifestResponse : option ManifestResponse.t;
  MostRecentError : string;
  FirstFailureTimestamp : Z;
  NumberOfConsecutiveFailures : Z;
  NumberOfCachedResponsesReturned : Z
}.

(** [cache.CachedManifestResponse{}]. *)
Definition zero : t := mk None "" 0 0 0.
End CachedManifestResponse.

Module cache.

Inductive error := ErrCacheMiss | ErrStore.

(** Modelled from the spec: the cache store behind [s.cache] (package
    reposerver/cache and the key-value store it wraps) is not in the sources.
    The spec gives it [get(key) -> bytes | Miss], [set(key, bytes, ttl)] and
    [delete(key)], with [Miss] told apart from a store failure, and has the
    two forms of an entry share a key so that writing one overwrites the
    other.  The store is a finite map from key to entry.  A store failure is
    scripted: each call takes the next flag of [faults], and fails when it
    is [true]; with no flag left the store works.  A failing call leaves
    the entries as they are.  Expiry by TTL is not modelled. *)
Record Cache := mkCache {
  entries : gmap string CachedManifestResponse.t;
  faults : list bool
}.

Definition nextFault (c : Cache) : bool * Cache :=
  match faults c with
  | [] => (false, c)
  | f :: rest => (f, mkCache (entries c) rest)
  end.

(** [GetManifests]: the entry filed under [key], [ErrCacheMiss] when there
    is none. *)
Definition GetManifests (key : string) (c : Cache)
    : (CachedManifestResponse.t + error) * Cache :=
  let '(failed, c) := nextFault c in
  if failed then (inr ErrStore, c)
  else match entries c !! key with
       | Some res => (inl res, c)
       | None => (inr ErrCacheMiss, c)
       end.

Definition SetManifests (key : string) (res : CachedManifestResponse.t) (c : Cache)
    : option error * Cache :=
  let '(failed, c) := nextFault c in
  if failed then (Some ErrStore, c)
  else (None, mkCache (<[key := res]> (entries c)) (faults c)).

Definition DeleteManifests (key : string) (c : Cache) : option error * Cache :=
  let '(failed, c) := nextFault c in
  if failed then (Some ErrStore, c)
  else (None, mkCache (delete key (entries c)) (faults c)).

Definition error_message (e : error) : string :=
  match e with
  | ErrCacheMiss => "cache: key is missing"
  | ErrStore => "cache: store failure"
  end.

End cache.

Definition cachedManifestGenerationPrefix : string := "Manifest generation error (cached)".

(** The fields of [s.initConstants] that the request path consults. *)
Record RepoServerInitConstants := mkRepoServerInitConstants {
  ParallelismLimit : Z;
  AllowOutOfBoundsSymlinks : bool;
  PauseGenerationAfterFailedGenerationAttempts : Z;
  PauseGenerationOnFailureForMinutes : Z;
  PauseGenerationOnFailureForRequests : Z
}.

(** ** The cache probe *)

(** [int((s.now().Unix() - res.FirstFailureTimestamp) / 60)]; Go's integer
    division truncates toward zero. *)
Definition elapsedTimeInMinutes (now firstFailureTimestamp : Z) : Z :=
  wrap64 (Z.quot (wrap64 (now - firstFailureTimestamp)) 60).

Definition withCachedResponsesReturned (res : CachedManifestResponse.t) (n : Z)
    : CachedManifestResponse.t :=
  CachedManifestResponse.mk
    (CachedManifestResponse.ManifestResponse res)
    (CachedManifestResponse.MostRecentError res)
    (CachedManifestResponse.FirstFailureTimestamp res)
    (CachedManifestResponse.NumberOfConsecutiveFailures res)
    n.

(** [fmt.Errorf(cachedManifestGenerationPrefix+": %s", res.MostRecentError)]. *)
Definition cachedErrorResponse (res : CachedManifestResponse.t) : string :=
  cachedManifestGenerationPrefix +:+ ": " +:+ CachedManifestResponse.MostRecentError res.

(** [getManifestCacheEntry]: the triple it returns and the cache it leaves.
    [key] is the key under which the cache layer files the entry for
    [(cacheKey, q, refSourceCommitSHAs)]; [now] is the reading of [s.now()].
    Errors of [DeleteManifests] and [SetManifests] are only logged. *)
Definition getManifestCacheEntry (s : RepoServerInitConstants) (now : Z)
    (key : string) (firstInvocation : bool) (c : cache.Cache)
    : (bool * option ManifestResponse.t * option string) * cache.Cache :=
  let '(got, c) := cache.GetManifests key c in
  match got with
  | inl res =>
      if (0 <? PauseGenerationAfterFailedGenerationAttempts s)
         && (0 <? CachedManifestResponse.FirstFailureTimestamp res) then
        if PauseGenerationAfterFailedGenerationAttempts s
           <=? CachedManifestResponse.NumberOfConsecutiveFailures res then
          if (0 <? PauseGenerationOnFailureForMinutes s)
             && (PauseGenerationOnFailureForMinutes s
                 <=? elapsedTimeInMinutes now
                       (CachedManifestResponse.FirstFailureTimestamp res)) then
            let '(_, c) := cache.DeleteManifests key c in
            ((false, None, None), c)
          else if (0 <? PauseGenerationOnFailureForRequests s)
                  && (0 <? CachedManifestResponse.NumberOfCachedResponsesReturned res)
                  && (PauseGenerationOnFailureForRequests s
                      <=? CachedManifestResponse.NumberOfCachedResponsesReturned res) then
            let '(_, c) := cache.DeleteManifests key c in
            ((false, None, None), c)
          else
            let c :=
              if firstInvocation then
                snd (cache.SetManifests key
                       (withCachedResponsesReturned res
                          (wrap64 (CachedManifestResponse.NumberOfCachedResponsesReturned res + 1)))
                       c)
              else c in
            ((true, None, Some (cachedErrorResponse res)), c)
        else
          ((false, CachedManifestResponse.ManifestResponse res, None), c)
      else
        ((true, CachedManifestResponse.ManifestResponse res, None), c)
  | inr _ => ((false, None, None), c)
  end.

(** ** Referenced sources *)

(** [strings.HasPrefix(s, "$")]. *)
Definition hasDollarPrefix (s : string) : bool :=
  match s with
  | String "$" _ => true
  | _ => false
  end.

(** [strings.Split(s, "/")[0]]: the text before the first ['/']. *)
Fixpoint firstSegment (s : string) : string :=
  match s with
  | EmptyString => EmptyString
  | String c rest =>
      if Ascii.eqb c "/" then EmptyString else String c (firstSegment rest)
  end.

(** [repoRef] of repository.go. *)
Module repoRef.
Record t := mk {
  revision : string;
  commitSHA : string;
  key : string
}.
End repoRef.

(** The ways the loop over referenced sources ends in an error; the names
    are those of the error taxonomy, the comments give the message. *)
Inductive RefError :=
| UnresolvedReference (refVar : string)
    (* source referenced %q, but no source has a 'ref' field defined /
       source referenced %q, which is not one of the available sources *)
| ReferenceNotAllowed
    (* source has a 'chart' field defined, but Helm charts are not yet not
       supported for 'ref' sources *)
| InconsistentReferenceRevisions (refVar targetRevision otherKey otherRevision : string)
    (* cannot reference multiple revisions for the same repository *)
| ResolveFailure (repo : string)
    (* failed to get git client for repo %s *)
| InconsistentPrimaryReference (refVar : string)
    (* cannot reference a different revision of the same repository *)
| LockFailure (e : string)
| OutOfBoundsSymlink (e : string).

(** What the loop leaves: the map [repoRefs], or an error; and in both
    cases the working trees it has locked and checked out so far, oldest
    first, each with the commit it was checked out at.  Their closers are
    deferred: they run when [runManifestGenAsync] returns. *)
Inductive RefOutcome :=
| RefsOk (repoRefs : gmap string repoRef.t) (acquired : list (string * string))
| RefsErr (e : RefError) (acquired : list (string * string)).

Section ReferencedSources.

(** Outside this file: URL normalisation, [s.newClientResolveRevision]
    (repository URL and revision to commit), [s.repoLock.Lock] with
    [s.checkoutRevision] (working tree and commit to an error, if any), and
    [apppathutil.CheckOutOfBoundsSymlinks]. *)
Variable NormalizeGitURL : string -> string.
Variable newClientResolveRevision : string -> string -> string + string.
Variable lockAndCheckout : string -> string -> option string.
Variable CheckOutOfBoundsSymlinks : string -> option string.
Variable allowOutOfBoundsSymlinks : bool.

(** The primary source of the request and the commit it resolved to. *)
Variable primaryRepoURL : string.
Variable primaryCommitSHA : string.

(** [q.RefSources]. *)
Variable RefSources : gmap string RefTarget.

(** The loop [for _, valueFile := range refCandidates] of
    [runManifestGenAsync].  A working tree is identified by the normalised
    URL of its repository.  (When [q.RefSources] is empty the source sends
    the first message of [UnresolvedReference] and then blocks sending the
    second; no tree has been locked by the loop at that point.) *)
Fixpoint checkoutReferencedSources (refCandidates : list string)
    (repoRefs : gmap string repoRef.t) (acquired : list (string * string))
    : RefOutcome :=
  match refCandidates with
  | [] => RefsOk repoRefs acquired
  | valueFile :: rest =>
      if negb (hasDollarPrefix valueFile) then
        checkoutReferencedSources rest repoRefs acquired
      else
        let refVar := firstSegment valueFile in
        match RefSources !! refVar with
        | None => RefsErr (UnresolvedReference refVar) acquired
        | Some refSourceMapping =>
            if negb (String.eqb (RefChart refSourceMapping) "") then
              RefsErr ReferenceNotAllowed acquired
            else
              let normalizedRepoURL := NormalizeGitURL (RefRepo refSourceMapping) in
              match repoRefs !! normalizedRepoURL with
              | Some closer =>
                  if negb (String.eqb (repoRef.revision closer)
                             (RefTargetRevision refSourceMapping)) then
                    RefsErr (InconsistentReferenceRevisions refVar
                               (RefTargetRevision refSourceMapping)
                               (repoRef.key closer) (repoRef.revision closer)) acquired
                  else checkoutReferencedSources rest repoRefs acquired
              | None =>
                  match newClientResolveRevision (RefRepo refSourceMapping)
                          (RefTargetRevision refSourceMapping) with
                  | inr _ => RefsErr (ResolveFailure (RefRepo refSourceMapping)) acquired
                  | inl referencedCommitSHA =>
                      if String.eqb (NormalizeGitURL primaryRepoURL) normalizedRepoURL
                         && negb (String.eqb primaryCommitSHA referencedCommitSHA) then
                        RefsErr (InconsistentPrimaryReference refVar) acquired
                      else
                        match lockAndCheckout normalizedRepoURL referencedCommitSHA with
                        | Some err => RefsErr (LockFailure err) acquired
                        | None =>
                            let acquired :=
                              (acquired ++ [(normalizedRepoURL, referencedCommitSHA)])%list in
                            match (if allowOutOfBoundsSymlinks then None
                                   else CheckOutOfBoundsSymlinks normalizedRepoURL) with
                            | Some err => RefsErr (OutOfBoundsSymlink err) acquired
                            | None =>
                                checkoutReferencedSources rest
                                  (<[normalizedRepoURL :=
                                       repoRef.mk (RefTargetRevision refSourceMapping)
                                         referencedCommitSHA refVar]> repoRefs)
                                  acquired
                            end
                        end
                  end
              end
        end
  end.

(** [refCandidates]: the value files followed by the paths of the file
    parameters. *)
Definition refCandidatesOf (helm : ApplicationSourceHelm) : list string :=
  (ValueFiles helm ++ (HelmFileParameter.Path <$> FileParameters helm))%list.

(** The loop runs only for a multi-source request with Helm options. *)
Definition referencedSourcesOf (hasMultipleSources : bool)
    (helm : option ApplicationSourceHelm) : RefOutcome :=
  match helm with
  | Some helm =>
      if hasMultipleSources then
        checkoutReferencedSources (refCandidatesOf helm) ∅ []
      else RefsOk ∅ []
  | None => RefsOk ∅ []
  end.

(** The loop of [resolveReferencedSources], which runs before the cache
    probe: it resolves the referenced repositories, each once, and neither
    locks a tree nor compares target revisions. *)
Fixpoint resolveReferencedLoop (refCandidates : list string)
    (repoRefs : gmap string string) : gmap string string + RefError :=
  match refCandidates with
  | [] => inl repoRefs
  | valueFile :: rest =>
      if negb (hasDollarPrefix valueFile) then resolveReferencedLoop rest repoRefs
      else
        let refVar := firstSegment valueFile in
        match RefSources !! refVar with
        | None => inr (UnresolvedReference refVar)
        | Some refSourceMapping =>
            if negb (String.eqb (RefChart refSourceMapping) "") then
              inr ReferenceNotAllowed
            else
              let normalizedRepoURL := NormalizeGitURL (RefRepo refSourceMapping) in
              match repoRefs !! normalizedRepoURL with
              | Some _ => resolveReferencedLoop rest repoRefs
              | None =>
                  match newClientResolveRevision (RefRepo refSourceMapping)
                          (RefTargetRevision refSourceMapping) with
                  | inr _ => inr (ResolveFailure (RefRepo refSourceMapping))
                  | inl referencedCommitSHA =>
                      resolveReferencedLoop rest
                        (<[normalizedRepoURL := referencedCommitSHA]> repoRefs)
                  end
              end
        end
  end.

Definition resolveReferencedSources (hasMultipleSources : bool)
    (source : option ApplicationSourceHelm) : gmap string string + RefError :=
  match source with
  | Some helm =>
      if hasMultipleSources then resolveReferencedLoop (refCandidatesOf helm) ∅
      else inl ∅
  | None => inl ∅
  end.

(** The loop over a concatenation. *)
Lemma checkoutReferencedSources_app l1 l2 repoRefs acquired :
  checkoutReferencedSources (l1 ++ l2)%list repoRefs acquired
  = match checkoutReferencedSources l1 repoRefs acquired with
    | RefsOk repoRefs' acquired' => checkoutReferencedSources l2 repoRefs' acquired'
    | RefsErr e acquired' => RefsErr e acquired'
    end.
Proof.
  revert repoRefs acquired. induction l1 as [|valueFile l1 IH];
    intros repoRefs acquired; [done|].
  cbn [app checkoutReferencedSources].
  destruct (negb (hasDollarPrefix valueFile)); [apply IH|].
  destruct (RefSources !! firstSegment valueFile) as [m|]; [|done].
  destruct (negb (String.eqb (RefChart m) "")); [done|].
  destruct (repoRefs !! NormalizeGitURL (RefRepo m)) as [closer|].
  { destruct (negb (String.eqb (repoRef.revision closer) (RefTargetRevision m)));
      [done|apply IH]. }
  destruct (newClientResolveRevision _ _) as [sha|]; [|done].
  destruct (String.eqb _ _ && _); [done|].
  destruct (lockAndCheckout _ _); [done|].
  destruct (if allowOutOfBoundsSymlinks then None else _); [done|apply IH].
Qed.

(** Every repository recorded in [repoRefs] has been locked and checked out
    at the commit recorded for it, which is what its recorded target
    revision resolved to. *)
Definition recordedAreAcquired (repoRefs : gmap string repoRef.t)
    (acquired : list (string * string)) : Prop :=
  forall url closer, repoRefs !! url = Some closer ->
    (url, repoRef.commitSHA closer) ∈ acquired
    /\ exists repo, NormalizeGitURL repo = url
         /\ newClientResolveRevision repo (repoRef.revision closer)
            = inl (repoRef.commitSHA closer).

Lemma checkoutReferencedSources_acquired l :
  forall repoRefs acquired repoRefs' acquired',
  recordedAreAcquired repoRefs acquired ->
  checkoutReferencedSources l repoRefs acquired = RefsOk repoRefs' acquired' ->
  recordedAreAcquired repoRefs' acquired'.
Proof.
  induction l as [|valueFile l IH]; intros repoRefs acquired repoRefs' acquired' Hinv.
  { cbn. by intros [= <- <-]. }
  cbn [checkoutReferencedSources].
  destruct (negb (hasDollarPrefix valueFile)); [by apply IH|].
  destruct (RefSources !! firstSegment valueFile) as [m|]; [|done].
  destruct (negb (String.eqb (RefChart m) "")); [done|].
  destruct (repoRefs !! NormalizeGitURL (RefRepo m)) as [closer|] eqn:Hlook.
  { destruct (negb (String.eqb (repoRef.revision closer) (RefTargetRevision m)));
      [done|by apply IH]. }
  destruct (newClientResolveRevision _ _) as [sha|] eqn:Hres; [|done].
  destruct (String.eqb _ _ && _); [done|].
  destruct (lockAndCheckout _ _); [done|].
  destruct (if allowOutOfBoundsSymlinks then None else _); [done|].
  apply IH. intros url closer Hc.
  destruct (decide (NormalizeGitURL (RefRepo m) = url)) as [<-|Hne].
  - rewrite lookup_insert_eq in Hc. injection Hc as <-. cbn. split.
    + apply elem_of_app. right. by apply list_elem_of_singleton.
    + by exists (RefRepo m).
  - rewrite lookup_insert_ne in Hc by done.
    destruct (Hinv _ _ Hc) as [Hin Hex]. split; [|done].
    apply elem_of_app. by left.
Qed.

(** The loop stops at a reference to a repository recorded under another
    target revision. *)
Lemma checkoutReferencedSources_conflict (pre post : list string) (valueFile : string)
    (repoRefs1 : gmap string repoRef.t) (acquired1 : list (string * string))
    (refSourceMapping : RefTarget) (closer : repoRef.t) :
  checkoutReferencedSources pre ∅ [] = RefsOk repoRefs1 acquired1 ->
  hasDollarPrefix valueFile = true ->
  RefSources !! firstSegment valueFile = Some refSourceMapping ->
  RefChart refSourceMapping = "" ->
  repoRefs1 !! NormalizeGitURL (RefRepo refSourceMapping) = Some closer ->
  repoRef.revision closer <> RefTargetRevision refSourceMapping ->
  checkoutReferencedSources (pre ++ valueFile :: post)%list ∅ []
  = RefsErr (InconsistentReferenceRevisions (firstSegment valueFile)
               (RefTargetRevision refSourceMapping) (repoRef.key closer) (repoRef.revision closer))
      acquired1
  /\ (NormalizeGitURL (RefRepo refSourceMapping), repoRef.commitSHA closer) ∈ acquired1
  /\ exists repo,
       NormalizeGitURL repo = NormalizeGitURL (RefRepo refSourceMapping)
       /\ newClientResolveRevision repo (repoRef.revision closer) = inl (repoRef.commitSHA closer).
Proof.
  intros Hpre Hdollar Hsrc Hchart Hlook Hne.
  split.
  - rewrite checkoutReferencedSources_app, Hpre. cbn [checkoutReferencedSources].
    rewrite Hdollar, Hsrc, Hchart, Hlook. cbn.
    by rewrite (proj2 (String.eqb_neq _ _) Hne).
  - eapply (checkoutReferencedSources_acquired pre ∅ []); [|exact Hpre|exact Hlook].
    intros url c Hc. by rewrite lookup_empty in Hc.
Qed.

(** The working trees an outcome has locked. *)
Definition acquiredOf (outcome : RefOutcome) : list (string * string) :=
  match outcome with
  | RefsOk _ acquired => acquired
  | RefsErr _ acquired => acquired
  end.

(** The loop locks a repository only when it is not recorded yet, and
    records it unless the symlink check stops the loop: no working tree is
    locked twice. *)
Lemma checkoutReferencedSources_once l :
  forall repoRefs acquired,
  NoDup acquired.*1 ->
  (forall url, url ∈ acquired.*1 -> is_Some (repoRefs !! url)) ->
  NoDup (acquiredOf (checkoutReferencedSources l repoRefs acquired)).*1
  /\ forall repoRefs' acquired',
       checkoutReferencedSources l repoRefs acquired = RefsOk repoRefs' acquired' ->
       forall url, url ∈ acquired'.*1 -> is_Some (repoRefs' !! url).
Proof.
  induction l as [|valueFile l IH]; intros repoRefs acquired Hnd Hrec.
  { cbn. split; [done|]. by intros ? ? [= <- <-]. }
  cbn [checkoutReferencedSources].
  destruct (negb (hasDollarPrefix valueFile)); [by apply IH|].
  destruct (RefSources !! firstSegment valueFile) as [m|]; [|by split].
  destruct (negb (String.eqb (RefChart m) "")); [by split|].
  destruct (repoRefs !! NormalizeGitURL (RefRepo m)) as [closer|] eqn:Hlook.
  { destruct (negb (String.eqb (repoRef.revision closer) (RefTargetRevision m)));
      [by split|by apply IH]. }
  destruct (newClientResolveRevision _ _) as [sha|]; [|by split].
  destruct (String.eqb _ _ && _); [by split|].
  destruct (lockAndCheckout _ _); [by split|].
  assert (NoDup (acquired ++ [(NormalizeGitURL (RefRepo m), sha)])%list.*1) as Hnd'.
  { rewrite fmap_app. apply NoDup_app. split; [done|]. split; [|apply NoDup_singleton].
    intros url Hin Hin'. cbn in Hin'. apply list_elem_of_singleton in Hin' as ->.
    destruct (Hrec _ Hin) as [? ?]. congruence. }
  destruct (if allowOutOfBoundsSymlinks then None else _); [by split|].
  apply IH; [done|]. intros url Hin. rewrite fmap_app in Hin.
  apply elem_of_app in Hin as [Hin|Hin].
  - destruct (decide (NormalizeGitURL (RefRepo m) = url)) as [<-|Hne].
    + by rewrite lookup_insert_eq.
    + rewrite lookup_insert_ne by done. by apply Hrec.
  - cbn in Hin. apply list_elem_of_singleton in Hin as ->. by rewrite lookup_insert_eq.
Qed.

End ReferencedSources.

(** The two loops over the referenced sources go through the candidates the
    same way, but each asks [newClientResolveRevision] itself.  The
    resolutions are stable for a set of references when the later call
    answers for each of them as the earlier one did. *)
Definition stableResolution (RefSources : gmap string RefTarget)
    (earlier later : string -> string -> string + string) : Prop :=
  forall refVar refSourceMapping,
    RefSources !! refVar = Some refSourceMapping ->
    later (RefRepo refSourceMapping) (RefTargetRevision refSourceMapping)
    = earlier (RefRepo refSourceMapping) (RefTargetRevision refSourceMapping).

(** With stable resolutions, when the loop of the render task succeeds the
    commits it has recorded are those [resolveReferencedSources] found. *)
Lemma checkoutReferencedSources_resolved (NormalizeGitURL : string -> string)
    (earlier later : string -> string -> string + string)
    (lockAndCheckout : string -> string -> option string)
    (CheckOutOfBoundsSymlinks : string -> option string)
    (allowOutOfBoundsSymlinks : bool) (primaryRepoURL primaryCommitSHA : string)
    (RefSources : gmap string RefTarget) (l : list string) :
  stableResolution RefSources earlier later ->
  forall repoRefs acquired repoRefs' acquired',
  checkoutReferencedSources NormalizeGitURL later lockAndCheckout
    CheckOutOfBoundsSymlinks allowOutOfBoundsSymlinks primaryRepoURL primaryCommitSHA
    RefSources l repoRefs acquired = RefsOk repoRefs' acquired' ->
  resolveReferencedLoop NormalizeGitURL earlier RefSources l
    (repoRef.commitSHA <$> repoRefs)
  = inl (repoRef.commitSHA <$> repoRefs').
Proof.
  intros Hstable.
  induction l as [|valueFile l IH]; intros repoRefs acquired repoRefs' acquired'.
  { cbn. by intros [= <- <-]. }
  cbn [checkoutReferencedSources resolveReferencedLoop].
  destruct (negb (hasDollarPrefix valueFile)); [by apply IH|].
  destruct (RefSources !! firstSegment valueFile) as [m|] eqn:Hm; [|done].
  destruct (negb (String.eqb (RefChart m) "")); [done|].
  rewrite lookup_fmap.
  destruct (repoRefs !! NormalizeGitURL (RefRepo m)) as [closer|] eqn:Hlook; cbn.
  { destruct (negb (String.eqb (repoRef.revision closer) (RefTargetRevision m)));
      [done|by apply IH]. }
  rewrite <- (Hstable _ _ Hm).
  destruct (later _ _) as [sha|] eqn:Hres; [|done].
  destruct (String.eqb _ _ && _); [done|].
  destruct (lockAndCheckout _ _); [done|].
  destruct (if allowOutOfBoundsSymlinks then None else _); [done|].
  intros H. apply IH in H. by rewrite fmap_insert in H.
Qed.

(** ** The render task and its promise *)

(** What travels on the three channels of a [ManifestResponsePromise]. *)
Inductive Msg :=
| MsgErr (e : string)
| MsgResponse (r : ManifestResponse.t)
| MsgTarDone (b : bool).

(** The error branch of [runManifestGenAsync]: fetch or create the failure
    record, stamp the first failure, count it, store the message, write
    back.  It yields the message sent on [errCh]. *)
Definition recordFailure (s : RepoServerInitConstants) (now : Z) (key err : string)
    (c : cache.Cache) : Msg * cache.Cache :=
  if 0 <? PauseGenerationAfterFailedGenerationAttempts s then
    let '(got, c) := cache.GetManifests key c in
    match got with
    | inr cache.ErrStore => (MsgErr (cache.error_message cache.ErrStore), c)
    | _ =>
        let innerRes :=
          match got with inl res => res | inr _ => CachedManifestResponse.zero end in
        let firstFailureTimestamp :=
          if CachedManifestResponse.FirstFailureTimestamp innerRes =? 0 then now
          else CachedManifestResponse.FirstFailureTimestamp innerRes in
        let innerRes :=
          CachedManifestResponse.mk
            (CachedManifestResponse.ManifestResponse innerRes)
            err
            firstFailureTimestamp
            (wrap64 (CachedManifestResponse.NumberOfConsecutiveFailures innerRes + 1))
            (CachedManifestResponse.NumberOfCachedResponsesReturned innerRes) in
        let '(cacheErr, c) := cache.SetManifests key innerRes c in
        match cacheErr with
        | Some e => (MsgErr (cache.error_message e), c)
        | None => (MsgErr err, c)
        end
    end
  else (MsgErr err, c).

(** The success branch: the entry written carries the response stamped with
    the commit and the verification result, and zeroed failure fields; an
    error of [SetManifests] is only logged. *)
Definition recordSuccess (key commitSHA verificationResult : string)
    (manifestGenResult : ManifestResponse.t) (c : cache.Cache) : Msg * cache.Cache :=
  let stamped :=
    ManifestResponse.mk
      (ManifestResponse.Manifests manifestGenResult)
      (ManifestResponse.SourceType manifestGenResult)
      (ManifestResponse.Commands manifestGenResult)
      commitSHA verificationResult in
  let manifestGenCacheEntry := CachedManifestResponse.mk (Some stamped) "" 0 0 0 in
  let '(_, c) := cache.SetManifests key manifestGenCacheEntry c in
  (MsgResponse stamped, c).

(** How [GenerateManifests] goes for one request: whether the plugin path
    signals the end of the upload on [tarDoneCh] (it does so once the
    archive is sent, before the plugin replies), and what it returns. *)
Record RenderRun := mkRenderRun {
  tarDone : bool;
  generated : ManifestResponse.t + string
}.

(** The collaborators of one request, as outcomes: [inl] a value, [inr] an
    error message; [None] no error.  [resolveRevision] is the resolution of
    the request's own revision.  The referenced repositories are resolved
    twice in a request, by two calls of [newClientResolveRevision] at
    different moments: [referencedRevision] answers the call of
    [resolveReferencedSources], made before the cache probe, and
    [referencedRevisionInTask] the call in the loop of the render task; a
    target revision that is a branch may have moved in between, so the two
    may differ.  Each loop asks at most once per repository.
    [referencedLock] and [referencedSymlinks] answer for [repoLock.Lock]
    with the checkout and for the symlink check of a referenced
    repository. *)
Record World := mkWorld {
  resolveRevision : string + string;
  referencedRevision : string -> string -> string + string;
  referencedRevisionInTask : string -> string -> string + string;
  referencedLock : string -> string -> option string;
  referencedSymlinks : string -> option string;
  semAcquire : option string;
  cleanCache : option string;
  acquireSource : string + string;
  checkOutOfBoundsSymlinks : option string;
  appPath : string + string;
  gitCommitSHA : string + string;
  verifyCommitSignature : string + string;
  render : RenderRun;
  nowAtProbe : Z;
  nowAtRecheck : Z;
  nowAtFailure : Z
}.

(** The three ways a source is acquired: an OCI image or a chart extracted
    for the request, or the working tree of a repository locked through
    [s.repoLock.Lock]. *)
Inductive SourceKind := KindOCI | KindHelm | KindGit.

(** What the request task does, in order: a cache probe, the semaphore,
    the acquisition of the source and the run of its closer (for [KindGit]:
    taking and releasing the working-tree lock), the start of the render
    task, blocking on the promise, and a message received from it. *)
Inductive Event :=
| EvCacheProbe (firstInvocation : bool)
| EvSemAcquire
| EvSemRelease
| EvAcquire (k : SourceKind)
| EvRelease (k : SourceKind)
| EvRunManifestGen
| EvAwait
| EvRecv (m : Msg).

Section Orchestrator.

(** [IsOCI], [IsHelm] and [IsRef] of [ApplicationSource], URL
    normalisation, the text of the errors of the loops over referenced
    sources, and the key under which the cache layer files the entry of a
    request, are outside this file. *)
Variables IsOCI IsHelm IsRef : ApplicationSource -> bool.
Variable NormalizeGitURL : string -> string.
Variable refErrorMessage : RefError -> string.
Variable manifestsKey : string -> ManifestRequest.t -> gmap string string -> string.
Variable s : RepoServerInitConstants.

(** The call of [resolveReferencedSources] in [runRepoOperation]. *)
Definition resolvedReferences (w : World) (q : ManifestRequest.t)
    : gmap string string + RefError :=
  resolveReferencedSources NormalizeGitURL (referencedRevision w)
    (ManifestRequest.RefSources q) (ManifestRequest.HasMultipleSources q)
    (Helm (ManifestRequest.Source q)).

(** The loop over referenced sources in [runManifestGenAsync], for a
    primary source resolved to [commitSHA]. *)
Definition referencedCheckout (w : World) (q : ManifestRequest.t)
    (commitSHA : string) : RefOutcome :=
  referencedSourcesOf NormalizeGitURL (referencedRevisionInTask w) (referencedLock w)
    (referencedSymlinks w) (AllowOutOfBoundsSymlinks s)
    (RepoURL (ManifestRequest.Source q)) commitSHA
    (ManifestRequest.RefSources q) (ManifestRequest.HasMultipleSources q)
    (Helm (ManifestRequest.Source q)).

(** [runManifestGenAsync], run to its end: the messages it sends, in order,
    whether it called [GenerateManifests], and the cache it leaves.  An
    error of the loop over referenced sources is sent without touching the
    cache.  When [opContextSrc] fails the loop is not run and the failure is
    filed with an empty map of referenced revisions. *)
Definition runManifestGenAsync (w : World) (q : ManifestRequest.t)
    (commitSHA cacheKey : string) (opContext : (string * string) + string)
    (c : cache.Cache) : (list Msg * bool) * cache.Cache :=
  match opContext with
  | inr err =>
      let key := manifestsKey cacheKey q ∅ in
      let '(m, c) := recordFailure s (nowAtFailure w) key err c in (([m], false), c)
  | inl (_, verificationResult) =>
      match referencedCheckout w q commitSHA with
      | RefsErr e _ => (([MsgErr (refErrorMessage e)], false), c)
      | RefsOk repoRefs _ =>
          let refSourceCommitSHAs := repoRef.commitSHA <$> repoRefs in
          let key := manifestsKey cacheKey q refSourceCommitSHAs in
          let upload := if tarDone (render w) then [MsgTarDone true] else [] in
          match generated (render w) with
          | inr err =>
              let '(m, c) := recordFailure s (nowAtFailure w) key err c in
              (((upload ++ [m])%list, true), c)
          | inl manifestGenResult =>
              let '(m, c) :=
                recordSuccess key commitSHA verificationResult manifestGenResult c in
              (((upload ++ [m])%list, true), c)
          end
      end
  end.

(** The closure variables of [GenerateManifest] ([res], [tarConcluded],
    [promise]), whether the renderer has been called for the request, the
    cache, and what the request task has done so far. *)
Record Task := mkTask {
  res : option ManifestResponse.t;
  tarConcluded : bool;
  promise : list Msg;
  rendered : bool;
  store : cache.Cache;
  trace : list Event
}.

Definition emit (e : Event) (t : Task) : Task :=
  mkTask (res t) (tarConcluded t) (promise t) (rendered t) (store t) (trace t ++ [e]).

(** [cacheFn]: probe the cache, keep the response in [res]. *)
Definition cacheFn (w : World) (q : ManifestRequest.t) (cacheKey : string)
    (refSourceCommitSHAs : gmap string string) (firstInvocation : bool) (t : Task)
    : (bool * option string) * Task :=
  let now := if firstInvocation then nowAtProbe w else nowAtRecheck w in
  let '((ok, resp, err), c) :=
    getManifestCacheEntry s now (manifestsKey cacheKey q refSourceCommitSHAs)
      firstInvocation (store t) in
  ((ok, err),
   mkTask resp (tarConcluded t) (promise t) (rendered t) c
     (trace t ++ [EvCacheProbe firstInvocation])).

(** [operation]: start the render task and take the first message of its
    promise. *)
Definition operation (w : World) (q : ManifestRequest.t)
    (commitSHA cacheKey : string) (opContext : (string * string) + string)
    (t : Task) : option string * Task :=
  let src := ManifestRequest.Source q in
  if ManifestRequest.HasMultipleSources q
     && String.eqb (Path src) "" && String.eqb (Chart src) "" then
    (None,
     mkTask (Some (ManifestResponse.mk [] "" [] commitSHA ""))
       (tarConcluded t) (promise t) (rendered t) (store t) (trace t))
  else
    let '((msgs, called), c) :=
      runManifestGenAsync w q commitSHA cacheKey opContext (store t) in
    let t := mkTask (res t) (tarConcluded t) msgs called c
               (trace t ++ [EvRunManifestGen; EvAwait]) in
    match msgs with
    | [] => (None, t)
    | m :: rest =>
        let t := mkTask (res t) (tarConcluded t) rest (rendered t) (store t)
                   (trace t ++ [EvRecv m]) in
        match m with
        | MsgErr err => (Some err, t)
        | MsgResponse resp =>
            (None, mkTask (Some resp) (tarConcluded t) (promise t) (rendered t)
                     (store t) (trace t))
        | MsgTarDone b =>
            (None, mkTask (res t) b (promise t) (rendered t) (store t) (trace t))
        end
    end.

(** The deferred calls of [runRepoOperation], run when it returns: the
    closer of the acquired source first, then the semaphore. *)
Definition releaseSem (t : Task) : Task :=
  if 0 <? ParallelismLimit s then emit EvSemRelease t else t.

Definition releaseAll (k : SourceKind) (t : Task) : Task :=
  releaseSem (emit (EvRelease k) t).

Definition kindOf (src : ApplicationSource) : SourceKind :=
  if IsOCI src then KindOCI else if IsHelm src then KindHelm else KindGit.

(** The part of [runRepoOperation] that follows source acquisition;
    [acquiredPath] is the extracted image, the extracted chart or the root
    of the working tree. *)
Definition afterAcquire (w : World) (q : ManifestRequest.t) (revision : string)
    (repoRefs : gmap string string) (acquiredPath : string) (t : Task)
    : option string * Task :=
  let src := ManifestRequest.Source q in
  let checked :=
    if AllowOutOfBoundsSymlinks s then None else checkOutOfBoundsSymlinks w in
  match checked with
  | Some err => (Some err, t)
  | None =>
      if IsOCI src then
        match appPath w with
        | inr err => (Some err, t)
        | inl p => operation w q revision revision (inl (p, "")) t
        end
      else if IsHelm src then
        operation w q revision revision (inl (acquiredPath, "")) t
      else
        let commit :=
          if ManifestRequest.HasMultipleSources q then inl revision
          else gitCommitSHA w in
        match commit with
        | inr err => (Some err, t)
        | inl commitSHA =>
            let '((ok, err), t') :=
              if ManifestRequest.NoCache q then ((false, None), t)
              else cacheFn w q revision repoRefs false t in
            if ok then (err, t')
            else
              let opContext :=
                let signature :=
                  if ManifestRequest.VerifySignature q
                  then verifyCommitSignature w else inl "" in
                match signature with
                | inr e => inr e
                | inl sig =>
                    match appPath w with
                    | inr e => inr e
                    | inl p => inl (p, sig)
                    end
                end in
              operation w q commitSHA revision opContext t'
        end
  end.

Definition runRepoOperation (w : World) (q : ManifestRequest.t) (t : Task)
    : option string * Task :=
  let src := ManifestRequest.Source q in
  match resolveRevision w with
  | inr err => (Some err, t)
  | inl revision =>
      match resolvedReferences w q with
      | inr e => (Some (refErrorMessage e), t)
      | inl repoRefs =>
          let '((ok, err), t) :=
            if ManifestRequest.NoCache q then ((false, None), t)
            else cacheFn w q revision repoRefs true t in
          if ok then (err, t)
          else
            let slot :=
              if 0 <? ParallelismLimit s then
                match semAcquire w with
                | Some err => inr err
                | None => inl (emit EvSemAcquire t)
                end
              else inl t in
            match slot with
            | inr err => (Some err, t)
            | inl t =>
                let cleaned :=
                  if (IsOCI src || IsHelm src) && ManifestRequest.NoCache q
                  then cleanCache w else None in
                match cleaned with
                | Some err => (Some err, releaseSem t)
                | None =>
                    match acquireSource w with
                    | inr err => (Some err, releaseSem t)
                    | inl acquiredPath =>
                        let '(err, t) :=
                          afterAcquire w q revision repoRefs acquiredPath
                            (emit (EvAcquire (kindOf src)) t) in
                        (err, releaseAll (kindOf src) t)
                    end
                end
            end
      end
  end.

(** [GenerateManifest]: the response, the error, and the task at its end. *)
Definition GenerateManifest (w : World) (q : ManifestRequest.t) (c : cache.Cache)
    : (option ManifestResponse.t * option string) * Task :=
  let src := ManifestRequest.Source q in
  let t0 := mkTask None false [] false c [] in
  if ManifestRequest.HasMultipleSources q && String.eqb (Path src) ""
     && negb (IsOCI src) && negb (IsHelm src) && IsRef src then
    match resolveRevision w with
    | inl revision => ((Some (ManifestResponse.mk [] "" [] revision ""), None), t0)
    | inr err => ((Some (ManifestResponse.mk [] "" [] "" ""), Some err), t0)
    end
  else
    let '(err, t) := runRepoOperation w q t0 in
    if tarConcluded t && negb (bool_decide (is_Some (res t))) then
      let t := emit EvAwait t in
      match promise t with
      | MsgResponse resp :: rest =>
          ((Some resp, err),
           mkTask (Some resp) (tarConcluded t) rest (rendered t) (store t)
             (trace t ++ [EvRecv (MsgResponse resp)]))
      | MsgErr e :: rest =>
          ((None, Some e),
           mkTask (res t) (tarConcluded t) rest (rendered t) (store t)
             (trace t ++ [EvRecv (MsgErr e)]))
      | _ => ((res t, err), t)
      end
    else ((res t, err), t).

(** *** Failure memoisation *)

(** The pre-check of [GenerateManifest] for a source that only declares a
    [ref]. *)
Definition refOnly (q : ManifestRequest.t) : bool :=
  let src := ManifestRequest.Source q in
  ManifestRequest.HasMultipleSources q && String.eqb (Path src) ""
  && negb (IsOCI src) && negb (IsHelm src) && IsRef src.

(** The time-based exit of the paused state. *)
Definition timeExit (now firstFailureTimestamp : Z) : bool :=
  (0 <? PauseGenerationOnFailureForMinutes s)
  && (PauseGenerationOnFailureForMinutes s
      <=? elapsedTimeInMinutes now firstFailureTimestamp).

(** The request-count exit of the paused state. *)
Definition countExit (returned : Z) : bool :=
  (0 <? PauseGenerationOnFailureForRequests s) && (0 <? returned)
  && (PauseGenerationOnFailureForRequests s <=? returned).

(** Generation is paused on an entry: memoisation is on, the entry records
    a failure, and the threshold is reached. *)
Definition paused (res : CachedManifestResponse.t) : Prop :=
  0 < PauseGenerationAfterFailedGenerationAttempts s
  /\ 0 < CachedManifestResponse.FirstFailureTimestamp res
  /\ PauseGenerationAfterFailedGenerationAttempts s
     <= CachedManifestResponse.NumberOfConsecutiveFailures res.

Lemma probe_paused_serves now key firstInvocation entries0 res :
  entries0 !! key = Some res ->
  paused res ->
  timeExit now (CachedManifestResponse.FirstFailureTimestamp res) = false ->
  countExit (CachedManifestResponse.NumberOfCachedResponsesReturned res) = false ->
  getManifestCacheEntry s now key firstInvocation (cache.mkCache entries0 [])
  = ((true, None, Some (cachedErrorResponse res)),
     if firstInvocation then
       cache.mkCache
         (<[key := withCachedResponsesReturned res
                     (wrap64 (CachedManifestResponse.NumberOfCachedResponsesReturned res + 1))]>
            entries0) []
     else cache.mkCache entries0 []).
Proof.
  intros Hk (Hn & Hf & Hc) Ht Hr.
  unfold getManifestCacheEntry, cache.GetManifests, cache.nextFault. cbn.
  rewrite Hk. unfold timeExit, countExit in Ht, Hr.
  rewrite (proj2 (Z.ltb_lt _ _) Hn), (proj2 (Z.ltb_lt _ _) Hf),
    (proj2 (Z.leb_le _ _) Hc), Ht, Hr. cbn.
  by destruct firstInvocation.
Qed.

Lemma probe_paused_exits now key firstInvocation entries0 res :
  entries0 !! key = Some res ->
  paused res ->
  timeExit now (CachedManifestResponse.FirstFailureTimestamp res)
  || countExit (CachedManifestResponse.NumberOfCachedResponsesReturned res) = true ->
  getManifestCacheEntry s now key firstInvocation (cache.mkCache entries0 [])
  = ((false, None, None), cache.mkCache (delete key entries0) []).
Proof.
  intros Hk (Hn & Hf & Hc) Hexit.
  unfold getManifestCacheEntry, cache.GetManifests, cache.nextFault. cbn.
  rewrite Hk. unfold timeExit, countExit in Hexit.
  rewrite (proj2 (Z.ltb_lt _ _) Hn), (proj2 (Z.ltb_lt _ _) Hf),
    (proj2 (Z.leb_le _ _) Hc). cbn.
  destruct ((0 <? PauseGenerationOnFailureForMinutes s) && _) eqn:E1; [done|].
  cbn in Hexit. by rewrite Hexit.
Qed.

Lemma probe_miss now key firstInvocation entries0 :
  entries0 !! key = None ->
  getManifestCacheEntry s now key firstInvocation (cache.mkCache entries0 [])
  = ((false, None, None), cache.mkCache entries0 []).
Proof.
  intros Hk. unfold getManifestCacheEntry, cache.GetManifests, cache.nextFault.
  cbn. by rewrite Hk.
Qed.

(** A request that is served the memoised error: it stops at the first
    probe. *)
Lemma GenerateManifest_served w q revision repoRefs entries0 res :
  refOnly q = false ->
  ManifestRequest.NoCache q = false ->
  resolveRevision w = inl revision ->
  resolvedReferences w q = inl repoRefs ->
  entries0 !! manifestsKey revision q repoRefs = Some res ->
  paused res ->
  timeExit (nowAtProbe w) (CachedManifestResponse.FirstFailureTimestamp res) = false ->
  countExit (CachedManifestResponse.NumberOfCachedResponsesReturned res) = false ->
  GenerateManifest w q (cache.mkCache entries0 [])
  = ((None, Some (cachedErrorResponse res)),
     mkTask None false [] false
       (cache.mkCache
          (<[manifestsKey revision q repoRefs :=
               withCachedResponsesReturned res
                 (wrap64 (CachedManifestResponse.NumberOfCachedResponsesReturned res + 1))]>
             entries0) [])
       [EvCacheProbe true]).
Proof.
  intros Href Hnc Hrev Hrefs Hk Hp Ht Hr.
  unfold GenerateManifest. fold (refOnly q). rewrite Href.
  unfold runRepoOperation. rewrite Hrev, Hrefs, Hnc.
  unfold cacheFn. cbn [store].
  by rewrite (probe_paused_serves _ _ true _ _ Hk Hp Ht Hr).
Qed.

(** *** Reaching the renderer *)

(** The collaborators let the request through to [GenerateManifests] once
    the cache has not answered: a semaphore slot, the source acquired, no
    out-of-bounds symlink, the commit and the application path found, the
    signature verified when asked for, the referenced sources checked out,
    and a source that has something to render. *)
Definition reachesRender (w : World) (q : ManifestRequest.t) : Prop :=
  let src := ManifestRequest.Source q in
  (ParallelismLimit s <= 0 \/ semAcquire w = None)
  /\ (exists p, acquireSource w = inl p)
  /\ (AllowOutOfBoundsSymlinks s = true \/ checkOutOfBoundsSymlinks w = None)
  /\ (IsHelm src = false \/ IsOCI src = true -> exists p, appPath w = inl p)
  /\ (IsOCI src = false -> IsHelm src = false ->
      (ManifestRequest.HasMultipleSources q = true \/ exists c, gitCommitSHA w = inl c)
      /\ (ManifestRequest.VerifySignature q = false
          \/ exists sig, verifyCommitSignature w = inl sig))
  /\ ManifestRequest.HasMultipleSources q
     && String.eqb (Path src) "" && String.eqb (Chart src) "" = false
  /\ (forall commitSHA, exists repoRefs acquired,
        referencedCheckout w q commitSHA = RefsOk repoRefs acquired).

Lemma rendered_emit e t : rendered (emit e t) = rendered t.
Proof. done. Qed.

Lemma rendered_releaseAll k t : rendered (releaseAll k t) = rendered t.
Proof. unfold releaseAll, releaseSem. by destruct (0 <? ParallelismLimit s). Qed.

Lemma operation_renders w q commitSHA cacheKey x t :
  ManifestRequest.HasMultipleSources q
  && String.eqb (Path (ManifestRequest.Source q)) ""
  && String.eqb (Chart (ManifestRequest.Source q)) "" = false ->
  (forall commitSHA, exists repoRefs acquired,
     referencedCheckout w q commitSHA = RefsOk repoRefs acquired) ->
  rendered (operation w q commitSHA cacheKey (inl x) t).2 = true.
Proof.
  intros Hsrc Hrc. unfold operation. rewrite Hsrc.
  unfold runManifestGenAsync. destruct x as [p sig].
  destruct (Hrc commitSHA) as (repoRefs & acquired & ->).
  destruct (generated (render w)) as [r|e].
  - destruct (recordSuccess _ _ _ _ _) as [m c].
    destruct (tarDone (render w)); [done|]. by destruct m.
  - destruct (recordFailure _ _ _ _ _) as [m c].
    destruct (tarDone (render w)); [done|]. by destruct m.
Qed.

Lemma afterAcquire_renders w q revision repoRefs p t entries1 :
  ManifestRequest.NoCache q = false ->
  reachesRender w q ->
  store t = cache.mkCache entries1 [] ->
  entries1 !! manifestsKey revision q repoRefs = None ->
  rendered (afterAcquire w q revision repoRefs p t).2 = true.
Proof.
  intros Hnc (_ & _ & Hsym & Hpath & Hgit & Hsrc & Hrc) Hst Hk.
  unfold afterAcquire.
  assert ((if AllowOutOfBoundsSymlinks s then None else checkOutOfBoundsSymlinks w)
          = None) as ->.
  { destruct Hsym as [->| ->]; [done|by destruct (AllowOutOfBoundsSymlinks s)]. }
  destruct (IsOCI (ManifestRequest.Source q)) eqn:Eoci.
  { destruct Hpath as [ap ->]; [by right|]. by apply operation_renders. }
  destruct (IsHelm (ManifestRequest.Source q)) eqn:Ehelm.
  { by apply operation_renders. }
  destruct (Hgit eq_refl eq_refl) as [Hcommit Hsig].
  destruct Hpath as [ap Hap]; [by left|].
  assert (exists c, (if ManifestRequest.HasMultipleSources q
                     then inl revision else gitCommitSHA w) = inl c) as [c ->].
  { destruct (ManifestRequest.HasMultipleSources q); [by eexists|].
    destruct Hcommit as [?|[c ->]]; [done|by eexists]. }
  rewrite Hnc. unfold cacheFn. rewrite Hst, (probe_miss _ _ _ _ Hk). cbn.
  assert (exists sig, (if ManifestRequest.VerifySignature q
                       then verifyCommitSignature w else inl "") = inl sig) as [sig ->].
  { destruct (ManifestRequest.VerifySignature q); [|by eexists].
    destruct Hsig as [?|[sig ->]]; [done|by eexists]. }
  rewrite Hap. by apply operation_renders.
Qed.

(** A request whose first probe is not answered from the cache, and leaves
    no entry behind, goes on to call the renderer. *)
Lemma GenerateManifest_renders w q revision repoRefs c entries1 :
  refOnly q = false ->
  ManifestRequest.NoCache q = false ->
  resolveRevision w = inl revision ->
  resolvedReferences w q = inl repoRefs ->
  getManifestCacheEntry s (nowAtProbe w) (manifestsKey revision q repoRefs) true c
  = ((false, None, None), cache.mkCache entries1 []) ->
  entries1 !! manifestsKey revision q repoRefs = None ->
  reachesRender w q ->
  rendered (GenerateManifest w q c).2 = true.
Proof.
  intros Href Hnc Hrev Hrefs Hprobe Hk Hreach.
  assert (rendered (runRepoOperation w q (mkTask None false [] false c [])).2 = true)
    as Hrun.
  { unfold runRepoOperation. rewrite Hrev, Hrefs, Hnc.
    unfold cacheFn. cbn [store]. rewrite Hprobe.
    cbn [fst snd res tarConcluded promise rendered store trace].
    pose proof Hreach as (Hsem & [p Hp] & _).
    assert (forall t0 : Task,
      (let cleaned := if (IsOCI (ManifestRequest.Source q)
                          || IsHelm (ManifestRequest.Source q)) && false
                      then cleanCache w else None in
       match cleaned with
       | Some err => (Some err, releaseSem t0)
       | None =>
           match acquireSource w with
           | inr err => (Some err, releaseSem t0)
           | inl acquiredPath =>
               let '(err, t) :=
                 afterAcquire w q revision repoRefs acquiredPath
                   (emit (EvAcquire (kindOf (ManifestRequest.Source q))) t0) in
               (err, releaseAll (kindOf (ManifestRequest.Source q)) t)
           end
       end)
      = (let '(err, t) :=
           afterAcquire w q revision repoRefs p
             (emit (EvAcquire (kindOf (ManifestRequest.Source q))) t0) in
         (err, releaseAll (kindOf (ManifestRequest.Source q)) t))) as Hbody.
    { intros t0. cbn zeta. by rewrite andb_false_r, Hp. }
    destruct (0 <? ParallelismLimit s) eqn:EP.
    - destruct Hsem as [Hle| ->]; [apply Z.ltb_lt in EP; lia|].
      cbn zeta in Hbody |- *. rewrite Hbody.
      pose proof (afterAcquire_renders w q revision repoRefs p
        (emit (EvAcquire (kindOf (ManifestRequest.Source q))) (emit EvSemAcquire
           (mkTask None false [] false (cache.mkCache entries1 []) [EvCacheProbe true])))
        entries1 Hnc Hreach eq_refl Hk) as Hr.
      cbn [app] in Hr |- *.
      destruct (afterAcquire _ _ _ _ _ _) as [err t]. cbn in Hr |- *.
      by rewrite rendered_releaseAll.
    - cbn zeta in Hbody |- *. rewrite Hbody.
      pose proof (afterAcquire_renders w q revision repoRefs p
        (emit (EvAcquire (kindOf (ManifestRequest.Source q)))
           (mkTask None false [] false (cache.mkCache entries1 []) [EvCacheProbe true]))
        entries1 Hnc Hreach eq_refl Hk) as Hr.
      cbn [app] in Hr |- *.
      destruct (afterAcquire _ _ _ _ _ _) as [err t]. cbn in Hr |- *.
      by rewrite rendered_releaseAll. }
  unfold GenerateManifest. fold (refOnly q). rewrite Href.
  destruct (runRepoOperation _ _ _) as [err t]. cbn in Hrun |- *.
  destruct (tarConcluded t && _); [|done].
  cbn. destruct (promise t) as [|[e|r|b] rest]; cbn; done.
Qed.

(** *** The order of events around the end of the upload *)

Definition isRecv (e : Event) : Prop :=
  match e with EvRecv _ => True | _ => False end.

Definition isRelease (e : Event) : Prop :=
  match e with EvRelease _ => True | _ => False end.

(** A stretch of the trace in which no message is received and no closer
    is run. *)
Definition quiet (l : list Event) : Prop :=
  Forall (fun e => ~ isRecv e /\ ~ isRelease e) l.

(** What [operation] adds to the trace. *)
Definition opShape (X : list Event) : Prop :=
  X = [] \/ X = [EvRunManifestGen; EvAwait]
  \/ exists m, X = [EvRunManifestGen; EvAwait; EvRecv m].

Ltac quiet_tac :=
  unfold quiet; repeat (constructor; [by split; intros []|]);
  try constructor.

Lemma operation_trace w q commitSHA cacheKey opContext t :
  exists X, trace (operation w q commitSHA cacheKey opContext t).2 = (trace t ++ X)%list
            /\ opShape X.
Proof.
  unfold operation.
  destruct (ManifestRequest.HasMultipleSources q && _ && _).
  { exists []. split; [by rewrite app_nil_r|by left]. }
  destruct (runManifestGenAsync _ _ _ _ _ _) as [[msgs called] c].
  destruct msgs as [|m rest]; cbn.
  { exists [EvRunManifestGen; EvAwait]. split; [done|]. right. by left. }
  exists [EvRunManifestGen; EvAwait; EvRecv m]. split.
  - destruct m; cbn; by rewrite <- app_assoc.
  - right. right. by exists m.
Qed.

Lemma afterAcquire_trace w q revision repoRefs p t :
  exists P X,
    trace (afterAcquire w q revision repoRefs p t).2 = (trace t ++ P ++ X)%list
    /\ quiet P /\ opShape X.
Proof.
  assert (forall t' : Task, trace t' = trace t ->
            exists P X, trace t' = (trace t ++ P ++ X)%list /\ quiet P /\ opShape X)
    as Hstop.
  { intros t' ->. exists [], []. split; [by rewrite app_nil_r|].
    split; [quiet_tac|by left]. }
  assert (forall commitSHA cacheKey opContext,
            exists P X,
              trace (operation w q commitSHA cacheKey opContext t).2
              = (trace t ++ P ++ X)%list /\ quiet P /\ opShape X) as Hop.
  { intros commitSHA cacheKey opContext.
    destruct (operation_trace w q commitSHA cacheKey opContext t) as (X & HX & Hs).
    exists [], X. split; [done|]. split; [quiet_tac|done]. }
  unfold afterAcquire.
  destruct (if AllowOutOfBoundsSymlinks s then None else checkOutOfBoundsSymlinks w);
    [by apply Hstop|].
  destruct (IsOCI (ManifestRequest.Source q)).
  { destruct (appPath w); [apply Hop|by apply Hstop]. }
  destruct (IsHelm (ManifestRequest.Source q)); [apply Hop|].
  destruct (if ManifestRequest.HasMultipleSources q then inl revision else gitCommitSHA w)
    as [commitSHA|err]; [|by apply Hstop].
  destruct (ManifestRequest.NoCache q); [apply Hop|].
  unfold cacheFn.
  destruct (getManifestCacheEntry _ _ _ _ _) as [[[ok resp] err] c].
  destruct ok; cbn.
  { exists [EvCacheProbe false], []. split; [done|]. split; [quiet_tac|by left]. }
  match goal with
  | |- context [operation w q ?a ?b ?o ?t1] =>
      destruct (operation_trace w q a b o t1) as (X & HX & Hs)
  end.
  exists [EvCacheProbe false], X. cbn in HX. rewrite HX.
  split; [by rewrite <- app_assoc|]. split; [quiet_tac|done].
Qed.

Ltac no_recv :=
  let m := fresh "m" in let Hin := fresh "Hin" in
  intros m Hin; cbn in Hin;
  repeat (apply elem_of_cons in Hin as [Hin|Hin]; [discriminate|]);
  by apply elem_of_nil in Hin.

Lemma runRepoOperation_trace w q c :
  let t := (runRepoOperation w q (mkTask None false [] false c [])).2 in
  let k := kindOf (ManifestRequest.Source q) in
  (forall m, EvRecv m ∉ trace t)
  \/ exists pre X S,
       trace t = (pre ++ X ++ EvRelease k :: S)%list
       /\ quiet pre /\ EvAcquire k ∈ pre /\ opShape X
       /\ Forall (fun e => ~ isRecv e) S.
Proof.
  intros t k. subst t. unfold runRepoOperation.
  destruct (resolveRevision w) as [revision|?]; [|left; no_recv].
  destruct (resolvedReferences w q) as [repoRefs|?]; [|left; no_recv].
  assert (forall t0 : Task, quiet (trace t0) ->
    let t := (match (if 0 <? ParallelismLimit s
                     then match semAcquire w with
                          | Some err => inr err
                          | None => inl (emit EvSemAcquire t0)
                          end
                     else inl t0) with
              | inr err => (Some err, t0)
              | inl t =>
                  match (if (IsOCI (ManifestRequest.Source q)
                             || IsHelm (ManifestRequest.Source q))
                            && ManifestRequest.NoCache q
                         then cleanCache w else None) with
                  | Some err => (Some err, releaseSem t)
                  | None =>
                      match acquireSource w with
                      | inr err => (Some err, releaseSem t)
                      | inl acquiredPath =>
                          let '(err, t) :=
                            afterAcquire w q revision repoRefs acquiredPath
                              (emit (EvAcquire k) t) in
                          (err, releaseAll k t)
                      end
                  end
              end).2 in
    (forall m, EvRecv m ∉ trace t)
    \/ exists pre X S,
         trace t = (pre ++ X ++ EvRelease k :: S)%list
         /\ quiet pre /\ EvAcquire k ∈ pre /\ opShape X
         /\ Forall (fun e => ~ isRecv e) S) as Hrest.
  { intros t0 Hq0.
    assert (forall m, EvRecv m ∉ trace t0) as Hno0.
    { intros m Hin. unfold quiet in Hq0. rewrite Forall_forall in Hq0.
      by destruct (Hq0 _ Hin) as [Hr _]. }
    assert (forall m, EvRecv m ∉ trace (releaseSem t0)) as Hno1.
    { intros m. unfold releaseSem. destruct (0 <? ParallelismLimit s); [|done].
      cbn. intros [Hin|Hin]%elem_of_app; [by eapply Hno0|].
      by apply list_elem_of_singleton in Hin. }
    assert (forall m, EvRecv m ∉ trace (releaseSem (emit EvSemAcquire t0))) as Hno2.
    { intros m. unfold releaseSem. destruct (0 <? ParallelismLimit s); cbn.
      - intros [[Hin|Hin]%elem_of_app|Hin]%elem_of_app; [by eapply Hno0| |];
          by apply list_elem_of_singleton in Hin.
      - intros [Hin|Hin]%elem_of_app; [by eapply Hno0|].
        by apply list_elem_of_singleton in Hin. }
    assert (forall t1 : Task, quiet (trace t1) ->
      (forall m, EvRecv m ∉ trace (releaseSem t1)) ->
      let t := (match (if (IsOCI (ManifestRequest.Source q)
                           || IsHelm (ManifestRequest.Source q))
                          && ManifestRequest.NoCache q
                       then cleanCache w else None) with
                | Some err => (Some err, releaseSem t1)
                | None =>
                    match acquireSource w with
                    | inr err => (Some err, releaseSem t1)
                    | inl acquiredPath =>
                        let '(err, t) :=
                          afterAcquire w q revision repoRefs acquiredPath
                            (emit (EvAcquire k) t1) in
                        (err, releaseAll k t)
                    end
                end).2 in
      (forall m, EvRecv m ∉ trace t)
      \/ exists pre X S,
           trace t = (pre ++ X ++ EvRelease k :: S)%list
           /\ quiet pre /\ EvAcquire k ∈ pre /\ opShape X
           /\ Forall (fun e => ~ isRecv e) S) as Hacq.
    { intros t1 Hq1 Hn1.
      destruct (if _ && ManifestRequest.NoCache q then cleanCache w else None);
        [by left|].
      destruct (acquireSource w) as [p|?]; [|by left].
      destruct (afterAcquire_trace w q revision repoRefs p (emit (EvAcquire k) t1))
        as (P & X & HPX & HP & HX).
      destruct (afterAcquire _ _ _ _ _ _) as [err t2]. cbn in HPX |- *.
      right. exists (trace t1 ++ [EvAcquire k] ++ P)%list, X.
      unfold releaseAll, releaseSem.
      exists (if 0 <? ParallelismLimit s then [EvSemRelease] else []).
      split; [|split; [|split; [|split]]].
      - destruct (0 <? ParallelismLimit s); cbn; rewrite HPX;
          repeat rewrite <- app_assoc; cbn; done.
      - unfold quiet in *. apply Forall_app. split; [done|].
        apply Forall_cons. split; [by split; intros []|done].
      - apply elem_of_app. right. apply elem_of_cons. by left.
      - done.
      - destruct (0 <? ParallelismLimit s); repeat constructor. by intros []. }
    destruct (0 <? ParallelismLimit s) eqn:EP.
    - destruct (semAcquire w); [by left|].
      apply Hacq; [|done].
      cbn. unfold quiet in *. apply Forall_app. split; [done|quiet_tac].
    - by apply Hacq. }
  destruct (ManifestRequest.NoCache q).
  { apply Hrest. quiet_tac. }
  unfold cacheFn. cbn [store].
  destruct (getManifestCacheEntry _ _ _ _ _) as [[[ok resp] err] c'].
  destruct ok; [left; no_recv|].
  apply Hrest. cbn. quiet_tac.
Qed.

(** C2.  Whenever the request task receives the [tarDone] signal, the
    source had been acquired before, nothing had been received from the
    promise and no closer had run until then, and the very next thing the
    task does is run the closer of the acquired source: for a repository
    source, release the working-tree lock.  Awaiting and receiving the
    plugin's reply come after that. *)
Theorem lock_released_on_tarDone (w : World) (q : ManifestRequest.t)
    (c : cache.Cache) (b : bool) :
  let tr := trace (GenerateManifest w q c).2 in
  let k := kindOf (ManifestRequest.Source q) in
  EvRecv (MsgTarDone b) ∈ tr ->
  exists pre post,
    tr = (pre ++ EvRecv (MsgTarDone b) :: EvRelease k :: post)%list
    /\ EvAcquire k ∈ pre
    /\ (forall e, e ∈ pre -> ~ isRecv e /\ ~ isRelease e)
    /\ (forall m, EvRecv m ∈ post -> exists post1 post2,
          post = (post1 ++ EvAwait :: EvRecv m :: post2)%list
          /\ (forall r, m <> MsgTarDone r)).
Proof.
  intros tr k. subst tr. unfold GenerateManifest.
  destruct (ManifestRequest.HasMultipleSources q && _ && _ && _ && _).
  { destruct (resolveRevision w); cbn; by intros ?%elem_of_nil. }
  pose proof (runRepoOperation_trace w q c) as Hrun. cbn zeta in Hrun.
  destruct (runRepoOperation w q _) as [err t]. cbn [snd] in Hrun.
  fold k in Hrun.
  match goal with |- context [trace (snd ?e)] => set (fin := e) end.
  assert (exists W, trace fin.2 = (trace t ++ W)%list
      /\ (W = [] \/ W = [EvAwait]
          \/ exists m, W = [EvAwait; EvRecv m] /\ forall r, m <> MsgTarDone r))
    as (W & HW & HWshape).
  { subst fin. destruct (tarConcluded t && _).
    - cbn. destruct (promise t) as [|[e|r|b'] rest]; cbn.
      + exists [EvAwait]. split; [done|]. right. by left.
      + exists [EvAwait; EvRecv (MsgErr e)]. split; [by rewrite <- app_assoc|].
        right. right. by eexists.
      + exists [EvAwait; EvRecv (MsgResponse r)]. split; [by rewrite <- app_assoc|].
        right. right. by eexists.
      + exists [EvAwait]. split; [done|]. right. by left.
    - exists []. split; [by rewrite app_nil_r|by left]. }
  rewrite HW. clear HW. intros Hin.
  assert (EvRecv (MsgTarDone b) ∉ W) as HnW.
  { destruct HWshape as [->|[->|(m & -> & Hm)]].
    - by intros ?%elem_of_nil.
    - intros ?%list_elem_of_singleton. done.
    - intros [?|[[= <-]|?%elem_of_nil]%elem_of_cons]%elem_of_cons; [done| |done].
      by eapply Hm. }
  apply elem_of_app in Hin as [Hin|Hin]; [|done].
  destruct Hrun as [Hno|(pre & X & S & Htr & Hpre & Hacq & HX & HS)];
    [by apply Hno in Hin|].
  rewrite Htr in Hin |- *.
  assert (X = [EvRunManifestGen; EvAwait; EvRecv (MsgTarDone b)]) as ->.
  { apply elem_of_app in Hin as [Hin|Hin].
    { unfold quiet in Hpre. rewrite Forall_forall in Hpre.
      by destruct (Hpre _ Hin) as [Hr _]. }
    apply elem_of_app in Hin as [Hin|Hin].
    - destruct HX as [->|[->|[m ->]]].
      + by apply elem_of_nil in Hin.
      + repeat (apply elem_of_cons in Hin as [Hin|Hin]; [discriminate|]).
        by apply elem_of_nil in Hin.
      + repeat (apply elem_of_cons in Hin as [Hin|Hin]; [try discriminate|]).
        * by injection Hin as <-.
        * by apply elem_of_nil in Hin.
    - apply elem_of_cons in Hin as [Hin|Hin]; [discriminate|].
      rewrite Forall_forall in HS. by destruct (HS _ Hin). }
  exists (pre ++ [EvRunManifestGen; EvAwait])%list, (S ++ W)%list.
  split; [by repeat (rewrite <- app_assoc; cbn)|].
  split; [apply elem_of_app; by left|]. split.
  - intros e [He|He]%elem_of_app.
    + unfold quiet in Hpre. rewrite Forall_forall in Hpre. by apply Hpre.
    + repeat (apply elem_of_cons in He as [->|He]; [by split; intros []|]).
      by apply elem_of_nil in He.
  - intros m [Hm|Hm]%elem_of_app.
    { rewrite Forall_forall in HS. by destruct (HS _ Hm). }
    destruct HWshape as [->|[->|(m' & -> & Hm')]].
    + by apply elem_of_nil in Hm.
    + apply list_elem_of_singleton in Hm. discriminate.
    + apply elem_of_cons in Hm as [Hm|Hm]; [discriminate|].
      apply list_elem_of_singleton in Hm. injection Hm as ->.
      exists S, []. split; [done|done].
Qed.

(** A run of requests for the same [q], one after the other, each with its
    own collaborators: what each returns, its trace, whether it rendered. *)
Fixpoint serve (ws : list World) (q : ManifestRequest.t) (c : cache.Cache)
    : list ((option ManifestResponse.t * option string) * list Event * bool)
      * cache.Cache :=
  match ws with
  | [] => ([], c)
  | w :: rest =>
      let '(out, t) := GenerateManifest w q c in
      let '(outs, c') := serve rest q (store t) in
      ((out, trace t, rendered t) :: outs, c')
  end.

(** *** Recording failures *)

Lemma last_cons_default {A} (l : list A) (x d : A) :
  List.last (x :: l) d = List.last l x.
Proof.
  revert x d. induction l as [|y l IH]; intros x d; [done|].
  change (List.last (x :: y :: l) d) with (List.last (y :: l) d).
  by rewrite !IH.
Qed.

Lemma recordFailure_miss now key err entries0 :
  0 < PauseGenerationAfterFailedGenerationAttempts s ->
  entries0 !! key = None ->
  recordFailure s now key err (cache.mkCache entries0 [])
  = (MsgErr err,
     cache.mkCache (<[key := CachedManifestResponse.mk None err now 1 0]> entries0) []).
Proof.
  intros Hn Hk. unfold recordFailure, cache.GetManifests, cache.SetManifests,
    cache.nextFault. cbn.
  by rewrite (proj2 (Z.ltb_lt _ _) Hn), Hk.
Qed.

Lemma recordFailure_again now key err entries0 res :
  0 < PauseGenerationAfterFailedGenerationAttempts s ->
  entries0 !! key = Some res ->
  CachedManifestResponse.FirstFailureTimestamp res <> 0 ->
  0 <= CachedManifestResponse.NumberOfConsecutiveFailures res < maxInt64 ->
  recordFailure s now key err (cache.mkCache entries0 [])
  = (MsgErr err,
     cache.mkCache
       (<[key := CachedManifestResponse.mk
                   (CachedManifestResponse.ManifestResponse res) err
                   (CachedManifestResponse.FirstFailureTimestamp res)
                   (CachedManifestResponse.NumberOfConsecutiveFailures res + 1)
                   (CachedManifestResponse.NumberOfCachedResponsesReturned res)]>
          entries0) []).
Proof.
  intros Hn Hk Hfirst Hcount. unfold recordFailure, cache.GetManifests,
    cache.SetManifests, cache.nextFault. cbn.
  rewrite (proj2 (Z.ltb_lt _ _) Hn), Hk. cbn.
  rewrite (proj2 (Z.eqb_neq _ _) Hfirst).
  by rewrite wrap64_small by (unfold maxInt64 in *; lia).
Qed.

(** From a key without entry, a run of recorded failures, the first at a
    time other than 0, leaves the record of their number, of the time of the
    first and of the message of the last, with no served response. *)
Lemma recorded_failures_from_miss key entries0 now1 err1 (later : list (Z * string)) :
  0 < PauseGenerationAfterFailedGenerationAttempts s ->
  entries0 !! key = None ->
  now1 <> 0 ->
  Z.of_nat (length later) < maxInt64 ->
  foldl (fun c f => (recordFailure s (fst f) key (snd f) c).2)
    (cache.mkCache entries0 []) ((now1, err1) :: later)
  = cache.mkCache
      (<[key := CachedManifestResponse.mk None
                  (List.last (snd <$> later) err1) now1
                  (Z.of_nat (S (length later))) 0]> entries0) [].
Proof.
  intros Hn Hk Hnow Hlen. cbn [foldl fst snd].
  rewrite (recordFailure_miss _ _ _ _ Hn Hk). cbn [snd].
  assert (forall err count entries1,
            1 <= count -> count + Z.of_nat (length later) <= maxInt64 ->
            foldl (fun c f => (recordFailure s (fst f) key (snd f) c).2)
              (cache.mkCache
                 (<[key := CachedManifestResponse.mk None err now1 count 0]> entries1) [])
              later
            = cache.mkCache
                (<[key := CachedManifestResponse.mk None
                            (List.last (snd <$> later) err) now1
                            (count + Z.of_nat (length later)) 0]> entries1) []) as Hgen.
  { clear Hlen. induction later as [|[now err'] later IH]; intros err count entries1 Hc Hmax.
    - cbn. by rewrite Z.add_0_r.
    - cbn [foldl fst snd length] in *. rewrite Nat2Z.inj_succ in Hmax.
      rewrite (recordFailure_again now key err' _
                 (CachedManifestResponse.mk None err now1 count 0)); try done.
      + cbn [snd CachedManifestResponse.ManifestResponse
               CachedManifestResponse.FirstFailureTimestamp
               CachedManifestResponse.NumberOfConsecutiveFailures
               CachedManifestResponse.NumberOfCachedResponsesReturned].
        rewrite insert_insert_eq. rewrite IH by lia.
        rewrite Nat2Z.inj_succ. do 2 f_equal.
        f_equal; [cbn [fmap list_fmap snd]; by rewrite last_cons_default|lia].
      + by rewrite lookup_insert_eq.
      + cbn. lia. }
  rewrite Hgen by lia. rewrite Nat2Z.inj_succ. do 3 f_equal. lia.
Qed.

Lemma withCachedResponsesReturned_id res :
  withCachedResponsesReturned res
    (CachedManifestResponse.NumberOfCachedResponsesReturned res) = res.
Proof. by destruct res. Qed.

Lemma serve_paused q revision repoRefs ws :
  forall entries0 res,
  refOnly q = false ->
  ManifestRequest.NoCache q = false ->
  Forall (fun w =>
            resolveRevision w = inl revision
            /\ resolvedReferences w q = inl repoRefs
            /\ timeExit (nowAtProbe w)
                 (CachedManifestResponse.FirstFailureTimestamp res) = false) ws ->
  entries0 !! manifestsKey revision q repoRefs = Some res ->
  paused res ->
  0 <= CachedManifestResponse.NumberOfCachedResponsesReturned res ->
  CachedManifestResponse.NumberOfCachedResponsesReturned res + Z.of_nat (length ws)
    <= PauseGenerationOnFailureForRequests s ->
  PauseGenerationOnFailureForRequests s <= maxInt64 ->
  serve ws q (cache.mkCache entries0 [])
  = (replicate (length ws)
       ((None, Some (cachedErrorResponse res)), [EvCacheProbe true], false),
     cache.mkCache
       (<[manifestsKey revision q repoRefs :=
            withCachedResponsesReturned res
              (CachedManifestResponse.NumberOfCachedResponsesReturned res
               + Z.of_nat (length ws))]> entries0) []).
Proof.
  induction ws as [|w ws IH]; intros entries0 res Href Hnc Hws Hk Hp H0 HR Hmax.
  - cbn. rewrite Z.add_0_r, withCachedResponsesReturned_id.
    by rewrite insert_id.
  - apply Forall_cons in Hws as [(Hrev & Hrefs & Ht) Hws].
    cbn [length] in HR. rewrite Nat2Z.inj_succ in HR.
    assert (countExit (CachedManifestResponse.NumberOfCachedResponsesReturned res)
            = false) as Hc.
    { unfold countExit.
      rewrite (proj2 (Z.leb_gt _ _)) by lia. by rewrite andb_false_r. }
    cbn [serve].
    rewrite (GenerateManifest_served w q revision repoRefs entries0 res) by done.
    cbn [store trace rendered].
    rewrite wrap64_small by (unfold maxInt64 in *; lia).
    set (res1 := withCachedResponsesReturned res
                   (CachedManifestResponse.NumberOfCachedResponsesReturned res + 1)).
    rewrite (IH _ res1) ; try done.
    + cbn [length replicate]. f_equal. f_equal.
      rewrite insert_insert_eq. f_equal. subst res1. cbn.
      unfold withCachedResponsesReturned. cbn. f_equal. lia.
    + by rewrite lookup_insert_eq.
    + subst res1. cbn. lia.
    + subst res1. cbn. lia.
Qed.

(** C1, as the code has it.  Memoisation is on and the request-count exit is
    configured ([pauseAfterFailures > 0], [0 < pauseRequests]); the entry of
    the key records exactly [pauseAfterFailures] consecutive failures, a
    first failure at a positive Unix time and no served response yet; the
    cache store works.  Then, for reads that use the cache and arrive while
    the time-based exit does not apply: each of the first [pauseRequests]
    reads returns the error
    ["Manifest generation error (cached): " ++ mostRecentError], does
    nothing but probe the cache (no acquisition, no render) and leaves the
    count of served responses one higher; the probe of the read after
    [pauseRequests] such reads deletes the entry, and that read, when its
    source is acquired, calls the renderer. *)
Theorem failure_backoff_by_requests (q : ManifestRequest.t) (revision : string)
    (repoRefs : gmap string string) (entries0 : gmap string CachedManifestResponse.t)
    (res : CachedManifestResponse.t) (ws : list World) (wNext : World) :
  let key := manifestsKey revision q repoRefs in
  refOnly q = false ->
  ManifestRequest.NoCache q = false ->
  0 < PauseGenerationAfterFailedGenerationAttempts s ->
  0 < PauseGenerationOnFailureForRequests s <= maxInt64 ->
  entries0 !! key = Some res ->
  CachedManifestResponse.NumberOfConsecutiveFailures res
    = PauseGenerationAfterFailedGenerationAttempts s ->
  0 < CachedManifestResponse.FirstFailureTimestamp res ->
  CachedManifestResponse.NumberOfCachedResponsesReturned res = 0 ->
  Z.of_nat (length ws) <= PauseGenerationOnFailureForRequests s ->
  Forall (fun w =>
            resolveRevision w = inl revision
            /\ resolvedReferences w q = inl repoRefs
            /\ timeExit (nowAtProbe w)
                 (CachedManifestResponse.FirstFailureTimestamp res) = false) ws ->
  resolveRevision wNext = inl revision ->
  resolvedReferences wNext q = inl repoRefs ->
  reachesRender wNext q ->
  let served := serve ws q (cache.mkCache entries0 []) in
  Forall (fun out =>
            out = ((None,
                    Some ("Manifest generation error (cached): "
                          +:+ CachedManifestResponse.MostRecentError res)),
                   [EvCacheProbe true], false)) served.1
  /\ length served.1 = length ws
  /\ served.2
     = cache.mkCache
         (<[key := withCachedResponsesReturned res (Z.of_nat (length ws))]> entries0) []
  /\ (Z.of_nat (length ws) = PauseGenerationOnFailureForRequests s ->
      getManifestCacheEntry s (nowAtProbe wNext) key true served.2
      = ((false, None, None), cache.mkCache (delete key entries0) [])
      /\ rendered (GenerateManifest wNext q served.2).2 = true).
Proof.
  intros key Href Hnc Hn [HR Hmax] Hk Hfail Hfirst Hret Hlen Hws Hrev Hrefs Hreach served.
  assert (paused res) as Hp by (unfold paused; lia).
  subst served.
  rewrite (serve_paused q revision repoRefs ws entries0 res) by (done || lia).
  rewrite Hret, Z.add_0_l. cbn [fst snd].
  split; [|split; [|split; [done|]]].
  - apply Forall_forall. intros out Hout%elem_of_replicate. by destruct Hout.
  - by rewrite length_replicate.
  - intros Hall.
    assert (getManifestCacheEntry s (nowAtProbe wNext) key true
              (cache.mkCache
                 (<[key := withCachedResponsesReturned res (Z.of_nat (length ws))]>
                    entries0) [])
            = ((false, None, None), cache.mkCache (delete key entries0) [])) as Hprobe.
    { rewrite (probe_paused_exits _ _ _ _
                 (withCachedResponsesReturned res (Z.of_nat (length ws)))).
      - by rewrite delete_insert_eq.
      - by rewrite lookup_insert_eq.
      - destruct Hp as (? & ? & ?). by repeat split.
      - cbn. unfold countExit.
        rewrite (proj2 (Z.ltb_lt _ _) HR), (proj2 (Z.ltb_lt 0 (Z.of_nat (length ws))))
          by lia.
        rewrite (proj2 (Z.leb_le _ _)) by lia. apply orb_true_r. }
    split; [exact Hprobe|].
    apply (GenerateManifest_renders wNext q revision repoRefs _ (delete key entries0));
      try done.
    apply lookup_delete_eq.
Qed.

(** C7.  Whatever failures were recorded for a key before, a render task
    whose [GenerateManifests] succeeds and whose cache write the store
    accepts leaves at that key an entry with the rendered response and with
    [consecutiveFailures], [cachedResponseCount], [firstFailureAt] zero and
    [mostRecentError] empty: the success entry replaces the failure
    record. *)
Theorem success_resets_failure_record (w : World) (q : ManifestRequest.t)
    (commitSHA cacheKey appPath verificationResult : string)
    (repoRefs : gmap string repoRef.t) (acquired : list (string * string))
    (manifestGenResult : ManifestResponse.t) (failures : list (Z * string))
    (c0 : cache.Cache) :
  let key := manifestsKey cacheKey q (repoRef.commitSHA <$> repoRefs) in
  let c := foldl (fun c f => (recordFailure s (fst f) key (snd f) c).2) c0 failures in
  referencedCheckout w q commitSHA = RefsOk repoRefs acquired ->
  generated (render w) = inl manifestGenResult ->
  hd false (cache.faults c) = false ->
  let written :=
    (runManifestGenAsync w q commitSHA cacheKey (inl (appPath, verificationResult)) c).2 in
  exists res,
    cache.entries written !! key = Some res
    /\ CachedManifestResponse.ManifestResponse res
       = Some (ManifestResponse.mk
                 (ManifestResponse.Manifests manifestGenResult)
                 (ManifestResponse.SourceType manifestGenResult)
                 (ManifestResponse.Commands manifestGenResult)
                 commitSHA verificationResult)
    /\ CachedManifestResponse.NumberOfConsecutiveFailures res = 0
    /\ CachedManifestResponse.NumberOfCachedResponsesReturned res = 0
    /\ CachedManifestResponse.FirstFailureTimestamp res = 0
    /\ CachedManifestResponse.MostRecentError res = "".
Proof.
  intros key c Hrefs Hgen Hf written. subst written.
  unfold runManifestGenAsync. rewrite Hrefs, Hgen. fold key.
  unfold recordSuccess, cache.SetManifests, cache.nextFault.
  destruct (cache.faults c) as [|f rest] eqn:E; cbn in Hf |- *.
  - rewrite lookup_insert_eq. eexists. by repeat split.
  - subst f. cbn. rewrite lookup_insert_eq. eexists. by repeat split.
Qed.

(** *** A conflict between references *)

(** The collaborators let the request through to its render task once the
    cache has not answered: as in [reachesRender], without what concerns the
    loop over referenced sources, and with the clean-up of extracted copies
    that a request without cache asks for. *)
Definition reachesTask (w : World) (q : ManifestRequest.t) : Prop :=
  let src := ManifestRequest.Source q in
  (ParallelismLimit s <= 0 \/ semAcquire w = None)
  /\ ((IsOCI src || IsHelm src) && ManifestRequest.NoCache q = true -> cleanCache w = None)
  /\ (exists p, acquireSource w = inl p)
  /\ (AllowOutOfBoundsSymlinks s = true \/ checkOutOfBoundsSymlinks w = None)
  /\ (IsHelm src = false \/ IsOCI src = true -> exists p, appPath w = inl p)
  /\ (IsOCI src = false -> IsHelm src = false ->
      (ManifestRequest.HasMultipleSources q = true \/ exists c, gitCommitSHA w = inl c)
      /\ (ManifestRequest.VerifySignature q = false
          \/ exists sig, verifyCommitSignature w = inl sig))
  /\ ManifestRequest.HasMultipleSources q
     && String.eqb (Path src) "" && String.eqb (Chart src) "" = false.

(** A request task that has nothing to return and has changed nothing: no
    response, no upload seen, nothing left on the promise, the renderer not
    called, the cache as it was. *)
Definition emptyHanded (entries0 : gmap string CachedManifestResponse.t) (t : Task)
    : Prop :=
  res t = None /\ tarConcluded t = false /\ promise t = [] /\ rendered t = false
  /\ store t = cache.mkCache entries0 [].

Lemma emptyHanded_releaseAll entries0 k t :
  emptyHanded entries0 t -> emptyHanded entries0 (releaseAll k t).
Proof.
  unfold emptyHanded, releaseAll, releaseSem.
  by destruct (0 <? ParallelismLimit s).
Qed.

(** An error of the loop over referenced sources is what [operation]
    returns. *)
Lemma operation_refs_error w q commitSHA cacheKey x t e acquired entries1 :
  ManifestRequest.HasMultipleSources q
  && String.eqb (Path (ManifestRequest.Source q)) ""
  && String.eqb (Chart (ManifestRequest.Source q)) "" = false ->
  referencedCheckout w q commitSHA = RefsErr e acquired ->
  store t = cache.mkCache entries1 [] -> res t = None -> tarConcluded t = false ->
  let out := operation w q commitSHA cacheKey (inl x) t in
  out.1 = Some (refErrorMessage e) /\ emptyHanded entries1 out.2.
Proof.
  intros Hsrc Hrc Hst Hres Htar out. subst out.
  unfold operation. rewrite Hsrc. unfold runManifestGenAsync. destruct x as [p sig].
  rewrite Hrc. cbn. unfold emptyHanded. cbn. by rewrite Hres, Htar, Hst.
Qed.

Lemma afterAcquire_refs_error w q revision repoRefs p t e acquired entries1 :
  ManifestRequest.HasMultipleSources q = true ->
  reachesTask w q ->
  ManifestRequest.NoCache q = true
  \/ entries1 !! manifestsKey revision q repoRefs = None ->
  referencedCheckout w q revision = RefsErr e acquired ->
  store t = cache.mkCache entries1 [] -> res t = None -> tarConcluded t = false ->
  let out := afterAcquire w q revision repoRefs p t in
  out.1 = Some (refErrorMessage e) /\ emptyHanded entries1 out.2.
Proof.
  intros Hmulti (_ & _ & _ & Hsym & Hpath & Hgit & Hsrc) Hmiss Hrc Hst Hres Htar out.
  subst out. unfold afterAcquire.
  assert ((if AllowOutOfBoundsSymlinks s then None else checkOutOfBoundsSymlinks w)
          = None) as ->.
  { destruct Hsym as [->| ->]; [done|by destruct (AllowOutOfBoundsSymlinks s)]. }
  destruct (IsOCI (ManifestRequest.Source q)) eqn:Eoci.
  { destruct Hpath as [ap ->]; [by right|]. by eapply operation_refs_error. }
  destruct (IsHelm (ManifestRequest.Source q)) eqn:Ehelm.
  { by eapply operation_refs_error. }
  destruct (Hgit eq_refl eq_refl) as [_ Hsig].
  destruct Hpath as [ap Hap]; [by left|].
  rewrite Hmulti.
  assert (exists sig, (if ManifestRequest.VerifySignature q
                       then verifyCommitSignature w else inl "") = inl sig) as [sig Hsig'].
  { destruct (ManifestRequest.VerifySignature q); [|by eexists].
    destruct Hsig as [?|[sig ->]]; [done|by eexists]. }
  destruct (ManifestRequest.NoCache q) eqn:Enc.
  - cbn [fst snd]. rewrite Hsig', Hap. by eapply operation_refs_error.
  - destruct Hmiss as [?|Hk]; [done|].
    unfold cacheFn. rewrite Hst, (probe_miss _ _ _ _ Hk). cbn [fst snd].
    rewrite Hsig', Hap. by eapply operation_refs_error.
Qed.

Lemma runRepoOperation_refs_error w q revision repoRefs entries0 e acquired :
  ManifestRequest.HasMultipleSources q = true ->
  resolveRevision w = inl revision ->
  resolvedReferences w q = inl repoRefs ->
  ManifestRequest.NoCache q = true
  \/ entries0 !! manifestsKey revision q repoRefs = None ->
  reachesTask w q ->
  referencedCheckout w q revision = RefsErr e acquired ->
  let out :=
    runRepoOperation w q (mkTask None false [] false (cache.mkCache entries0 []) []) in
  out.1 = Some (refErrorMessage e) /\ emptyHanded entries0 out.2.
Proof.
  intros Hmulti Hrev Hrefs Hmiss Hreach Hrc out. subst out.
  unfold runRepoOperation. rewrite Hrev, Hrefs.
  pose proof Hreach as (Hsem & Hclean & [p Hp] & _).
  assert (forall t0 : Task,
            store t0 = cache.mkCache entries0 [] -> res t0 = None ->
            tarConcluded t0 = false ->
            let out :=
              (let '(err, t) :=
                 afterAcquire w q revision repoRefs p
                   (emit (EvAcquire (kindOf (ManifestRequest.Source q))) t0) in
               (err, releaseAll (kindOf (ManifestRequest.Source q)) t)) in
            out.1 = Some (refErrorMessage e) /\ emptyHanded entries0 out.2) as Hbody.
  { intros t0 Hst0 Hres0 Htar0.
    destruct (afterAcquire_refs_error w q revision repoRefs p
                (emit (EvAcquire (kindOf (ManifestRequest.Source q))) t0)
                e acquired entries0 Hmulti Hreach Hmiss Hrc Hst0 Hres0 Htar0)
      as [H1 H2].
    destruct (afterAcquire _ _ _ _ _ _) as [err t2]. cbn [fst snd] in *.
    split; [done|]. by apply emptyHanded_releaseAll. }
  assert ((if (IsOCI (ManifestRequest.Source q) || IsHelm (ManifestRequest.Source q))
              && ManifestRequest.NoCache q then cleanCache w else None) = None) as Hcl.
  { destruct ((IsOCI (ManifestRequest.Source q) || IsHelm (ManifestRequest.Source q))
              && ManifestRequest.NoCache q) eqn:E; [by apply Hclean|done]. }
  destruct (ManifestRequest.NoCache q) eqn:Enc.
  - cbn zeta. rewrite Hcl, Hp.
    destruct (0 <? ParallelismLimit s) eqn:EP.
    + destruct Hsem as [Hle| ->]; [apply Z.ltb_lt in EP; lia|]. by apply Hbody.
    + by apply Hbody.
  - destruct Hmiss as [?|Hk]; [done|].
    unfold cacheFn. cbn [store]. rewrite (probe_miss _ _ _ _ Hk).
    cbn [fst snd res tarConcluded promise rendered store trace].
    cbn zeta. rewrite Hcl, Hp.
    destruct (0 <? ParallelismLimit s) eqn:EP.
    + destruct Hsem as [Hle| ->]; [apply Z.ltb_lt in EP; lia|]. by apply Hbody.
    + by apply Hbody.
Qed.

(** C4, as the code has it.  Take a request with several sources whose
    candidates (value files, then file parameters) contain a reference to a
    repository that an earlier candidate has referenced under another target
    revision, and that gets as far as its render task: its own revision and
    the referenced ones are resolved, the cache does not answer, a semaphore
    slot and the source are acquired.  When the loop of the render task,
    having dealt with the earlier candidates without error, comes to that
    reference, the request fails with [InconsistentReferenceRevisions] and
    has no output: no response, nothing else sent by the task,
    [GenerateManifests] not called, the cache as it was; the task looks at
    no later candidate and locks nothing more.  The repository in question
    has at that point been locked and checked out, at the commit the first
    reference's target revision resolved to. *)
Theorem inconsistent_reference_revisions (w : World) (q : ManifestRequest.t)
    (helm : ApplicationSourceHelm) (revision : string) (repoRefs : gmap string string)
    (entries0 : gmap string CachedManifestResponse.t)
    (pre post : list string) (valueFile : string)
    (repoRefs1 : gmap string repoRef.t) (acquired1 : list (string * string))
    (refSourceMapping : RefTarget) (closer : repoRef.t) :
  let conflict :=
    InconsistentReferenceRevisions (firstSegment valueFile)
      (RefTargetRevision refSourceMapping) (repoRef.key closer)
      (repoRef.revision closer) in
  let out := GenerateManifest w q (cache.mkCache entries0 []) in
  refOnly q = false ->
  ManifestRequest.HasMultipleSources q = true ->
  Helm (ManifestRequest.Source q) = Some helm ->
  refCandidatesOf helm = (pre ++ valueFile :: post)%list ->
  hasDollarPrefix valueFile = true ->
  ManifestRequest.RefSources q !! firstSegment valueFile = Some refSourceMapping ->
  RefChart refSourceMapping = "" ->
  resolveRevision w = inl revision ->
  resolvedReferences w q = inl repoRefs ->
  ManifestRequest.NoCache q = true
  \/ entries0 !! manifestsKey revision q repoRefs = None ->
  reachesTask w q ->
  checkoutReferencedSources NormalizeGitURL (referencedRevisionInTask w)
    (referencedLock w) (referencedSymlinks w) (AllowOutOfBoundsSymlinks s)
    (RepoURL (ManifestRequest.Source q)) revision
    (ManifestRequest.RefSources q) pre ∅ [] = RefsOk repoRefs1 acquired1 ->
  repoRefs1 !! NormalizeGitURL (RefRepo refSourceMapping) = Some closer ->
  repoRef.revision closer <> RefTargetRevision refSourceMapping ->
  out.1 = (None, Some (refErrorMessage conflict))
  /\ rendered out.2 = false
  /\ promise out.2 = []
  /\ store out.2 = cache.mkCache entries0 []
  /\ referencedCheckout w q revision = RefsErr conflict acquired1
  /\ (NormalizeGitURL (RefRepo refSourceMapping), repoRef.commitSHA closer) ∈ acquired1
  /\ exists repo,
       NormalizeGitURL repo = NormalizeGitURL (RefRepo refSourceMapping)
       /\ referencedRevisionInTask w repo (repoRef.revision closer)
          = inl (repoRef.commitSHA closer).
Proof.
  intros conflict out Href Hmulti Hhelm Hcand Hdollar Hsrc Hchart Hrev Hrefs Hmiss
    Hreach Hpre Hlook Hne.
  destruct (checkoutReferencedSources_conflict NormalizeGitURL (referencedRevisionInTask w)
              (referencedLock w) (referencedSymlinks w) (AllowOutOfBoundsSymlinks s)
              (RepoURL (ManifestRequest.Source q)) revision
              (ManifestRequest.RefSources q) pre post valueFile repoRefs1 acquired1
              refSourceMapping closer Hpre Hdollar Hsrc Hchart Hlook Hne)
    as (Hloop & Hacq & Hres).
  assert (referencedCheckout w q revision = RefsErr conflict acquired1) as Hout.
  { unfold referencedCheckout, referencedSourcesOf. by rewrite Hhelm, Hmulti, Hcand. }
  destruct (runRepoOperation_refs_error w q revision repoRefs entries0 conflict acquired1
              Hmulti Hrev Hrefs Hmiss Hreach Hout) as [Herr (Hr & Ht & Hp & Hrd & Hst)].
  subst out. unfold GenerateManifest. fold (refOnly q). rewrite Href.
  destruct (runRepoOperation _ _ _) as [err t]. cbn [fst snd] in *.
  rewrite Ht. cbn [andb fst snd]. rewrite Hr, Herr.
  by repeat split.
Qed.

(** *** More on the cache probe *)

(** X16. [getManifestCacheEntry] reads and writes the entry of its key
    only: every other entry is left as it was, whatever the store does.  On
    a second probe of a request ([firstInvocation] false) the entry of the
    key is left as it was or deleted, never rewritten.  An error is only
    ever returned as a hit without a response. *)
Theorem getManifestCacheEntry_touches_only_its_key (now : Z) (key : string)
    (firstInvocation : bool) (c : cache.Cache) :
  let out := getManifestCacheEntry s now key firstInvocation c in
  (forall k, k <> key -> cache.entries out.2 !! k = cache.entries c !! k)
  /\ (firstInvocation = false ->
      cache.entries out.2 !! key = cache.entries c !! key
      \/ cache.entries out.2 !! key = None)
  /\ (forall e, out.1.2 = Some e -> out.1.1 = (true, None)).
Proof.
  cbv zeta. destruct c as [entries0 faults0].
  unfold getManifestCacheEntry, cache.GetManifests, cache.DeleteManifests,
    cache.SetManifests, cache.nextFault.
  cbn [cache.faults cache.entries].
  destruct faults0 as [|[|] [|[|] rest]]; cbn [cache.faults cache.entries];
    try (split; [done|]; split; [by left|done]);
    (destruct (entries0 !! key) as [res|] eqn:Hk;
       [|split; [done|]; split; [by left|done]]);
    repeat match goal with
           | |- context [if ?b then _ else _] => destruct b eqn:?
           end;
    cbn [fst snd cache.entries cache.faults];
    (split; [intros k Hne; by rewrite ?lookup_insert_ne, ?lookup_delete_ne by done|]);
    (split; [|intros e; try done; by intros _]);
    intros Hfirst; try discriminate;
    rewrite ?lookup_delete_eq; auto.
Qed.

(** X17. A response that the render task has just written is served by the
    next probe of the key, whatever the settings and the time: the probe is
    a hit, returns the response that was sent, and leaves the cache as it
    is. *)
Theorem rendered_response_is_served (now : Z) (key commitSHA verificationResult : string)
    (manifestGenResult : ManifestResponse.t) (firstInvocation : bool)
    (entries0 : gmap string CachedManifestResponse.t) :
  let written :=
    recordSuccess key commitSHA verificationResult manifestGenResult
      (cache.mkCache entries0 []) in
  exists stamped,
    written.1 = MsgResponse stamped
    /\ getManifestCacheEntry s now key firstInvocation written.2
       = ((true, Some stamped, None), written.2).
Proof.
  cbv zeta. unfold recordSuccess, cache.SetManifests, cache.nextFault.
  cbn [cache.faults cache.entries fst snd]. eexists. split; [done|].
  unfold getManifestCacheEntry, cache.GetManifests, cache.nextFault.
  cbn [cache.faults cache.entries]. rewrite lookup_insert_eq.
  cbn [CachedManifestResponse.FirstFailureTimestamp
         CachedManifestResponse.ManifestResponse].
  by rewrite andb_false_r.
Qed.

(** X18. Failures below the threshold do not pause generation.  From a key
    without entry, a run of fewer failures than
    [PauseGenerationAfterFailedGenerationAttempts], the first at a positive
    time, leaves the record of their number, of the time of the first and
    of the message of the last; and the next probe of the key is no hit,
    returns neither response nor error, and leaves the record as it is. *)
Theorem failures_below_threshold_do_not_pause (key : string)
    (entries0 : gmap string CachedManifestResponse.t) (now1 : Z) (err1 : string)
    (later : list (Z * string)) (now : Z) (firstInvocation : bool) :
  entries0 !! key = None ->
  0 < now1 ->
  Z.of_nat (S (length later)) < PauseGenerationAfterFailedGenerationAttempts s ->
  PauseGenerationAfterFailedGenerationAttempts s <= maxInt64 ->
  let c :=
    foldl (fun c f => (recordFailure s (fst f) key (snd f) c).2)
      (cache.mkCache entries0 []) ((now1, err1) :: later) in
  c = cache.mkCache
        (<[key := CachedManifestResponse.mk None
                    (List.last (snd <$> later) err1) now1
                    (Z.of_nat (S (length later))) 0]> entries0) []
  /\ getManifestCacheEntry s now key firstInvocation c = ((false, None, None), c).
Proof.
  intros Hk Hnow Hcount Hmax c.
  assert (c = cache.mkCache
                (<[key := CachedManifestResponse.mk None
                            (List.last (snd <$> later) err1) now1
                            (Z.of_nat (S (length later))) 0]> entries0) []) as Hc.
  { subst c. apply recorded_failures_from_miss; [lia|done|lia|lia]. }
  split; [done|]. rewrite Hc.
  unfold getManifestCacheEntry, cache.GetManifests, cache.nextFault.
  cbn [cache.faults cache.entries]. rewrite lookup_insert_eq.
  cbn [CachedManifestResponse.FirstFailureTimestamp
         CachedManifestResponse.NumberOfConsecutiveFailures
         CachedManifestResponse.ManifestResponse].
  rewrite (proj2 (Z.ltb_lt _ _) Hnow).
  rewrite (proj2 (Z.ltb_lt 0 (PauseGenerationAfterFailedGenerationAttempts s)))
    by lia.
  cbn [andb]. by rewrite (proj2 (Z.leb_gt _ _)) by lia.
Qed.

(** X19. The time-based exit of the paused state.  Once
    [PauseGenerationOnFailureForMinutes] minutes have elapsed since the
    first recorded failure, the first probe of a request deletes the
    failure record, however few cached errors have been served, and the
    request goes on to call the renderer. *)
Theorem failure_backoff_by_minutes (w : World) (q : ManifestRequest.t)
    (revision : string) (repoRefs : gmap string string)
    (entries0 : gmap string CachedManifestResponse.t)
    (res : CachedManifestResponse.t) :
  let key := manifestsKey revision q repoRefs in
  refOnly q = false ->
  ManifestRequest.NoCache q = false ->
  resolveRevision w = inl revision ->
  resolvedReferences w q = inl repoRefs ->
  entries0 !! key = Some res ->
  paused res ->
  0 < PauseGenerationOnFailureForMinutes s ->
  PauseGenerationOnFailureForMinutes s
    <= elapsedTimeInMinutes (nowAtProbe w)
         (CachedManifestResponse.FirstFailureTimestamp res) ->
  reachesRender w q ->
  getManifestCacheEntry s (nowAtProbe w) key true (cache.mkCache entries0 [])
  = ((false, None, None), cache.mkCache (delete key entries0) [])
  /\ rendered (GenerateManifest w q (cache.mkCache entries0 [])).2 = true.
Proof.
  intros key Href Hnc Hrev Hrefs Hk Hp Hmin Helapsed Hreach.
  assert (getManifestCacheEntry s (nowAtProbe w) key true (cache.mkCache entries0 [])
          = ((false, None, None), cache.mkCache (delete key entries0) [])) as Hprobe.
  { apply probe_paused_exits with res; [done|done|].
    apply orb_true_iff. left. unfold timeExit.
    by rewrite (proj2 (Z.ltb_lt _ _) Hmin), (proj2 (Z.leb_le _ _) Helapsed). }
  split; [done|].
  apply GenerateManifest_renders with revision repoRefs (delete key entries0);
    try done.
  apply lookup_delete_eq.
Qed.

(** *** Referenced sources and the cache key *)

(** The references of a request are stable in a world where the render
    task has each of them resolved as [resolveReferencedSources] had, before
    the cache probe: no target revision has moved in between. *)
Definition stableReferences (w : World) (q : ManifestRequest.t) : Prop :=
  stableResolution (ManifestRequest.RefSources q)
    (referencedRevision w) (referencedRevisionInTask w).

Lemma referencedCheckout_resolved (w : World) (q : ManifestRequest.t)
    (commitSHA : string) (repoRefs : gmap string repoRef.t)
    (acquired : list (string * string)) :
  stableReferences w q ->
  referencedCheckout w q commitSHA = RefsOk repoRefs acquired ->
  resolvedReferences w q = inl (repoRef.commitSHA <$> repoRefs).
Proof.
  intros Hstable.
  unfold referencedCheckout, referencedSourcesOf, resolvedReferences,
    resolveReferencedSources.
  destruct (Helm (ManifestRequest.Source q)) as [helm|].
  2:{ intros [= <- <-]. by rewrite fmap_empty. }
  destruct (ManifestRequest.HasMultipleSources q).
  2:{ intros [= <- <-]. by rewrite fmap_empty. }
  intros H.
  apply (checkoutReferencedSources_resolved _ (referencedRevision w) _ _ _ _ _ _ _ _
           Hstable) in H.
  by rewrite fmap_empty in H.
Qed.

(** X20. The referenced repositories are resolved twice, by
    [resolveReferencedSources] before the cache probe and by the loop of the
    render task.  Provided the second resolution answers for each reference
    of the request as the first did (no target revision moved in between),
    when the loop of the render task ends without error the commits it has
    recorded are those that [resolveReferencedSources] found, although only
    the task's loop compares target revisions, checks the primary
    repository and locks: the key under which the render task files its
    entry is then the key that the request task has probed. *)
Theorem referenced_revisions_agree (w : World) (q : ManifestRequest.t)
    (commitSHA cacheKey : string) (repoRefs : gmap string repoRef.t)
    (acquired : list (string * string)) :
  stableReferences w q ->
  referencedCheckout w q commitSHA = RefsOk repoRefs acquired ->
  resolvedReferences w q = inl (repoRef.commitSHA <$> repoRefs)
  /\ forall repoRefs0,
       resolvedReferences w q = inl repoRefs0 ->
       manifestsKey cacheKey q (repoRef.commitSHA <$> repoRefs)
       = manifestsKey cacheKey q repoRefs0.
Proof.
  intros Hstable H. apply (referencedCheckout_resolved _ _ _ _ _ Hstable) in H.
  split; [done|].
  intros repoRefs0 H0. rewrite H in H0. by injection H0 as <-.
Qed.

(** X21. The render task locks no referenced repository twice: whether its
    loop ends well or in an error, the working trees it has locked are
    pairwise distinct; and when it ends well they are exactly the
    repositories it has recorded. *)
Theorem referenced_repositories_locked_once (w : World) (q : ManifestRequest.t)
    (commitSHA : string) :
  NoDup (acquiredOf (referencedCheckout w q commitSHA)).*1
  /\ forall repoRefs acquired,
       referencedCheckout w q commitSHA = RefsOk repoRefs acquired ->
       forall url, url ∈ acquired.*1 <-> is_Some (repoRefs !! url).
Proof.
  unfold referencedCheckout, referencedSourcesOf.
  destruct (Helm (ManifestRequest.Source q)) as [helm|].
  2:{ split; [constructor|]. intros ? ? [= <- <-] url. rewrite lookup_empty.
      split; [by intros ?%elem_of_nil|by intros [? ?]]. }
  destruct (ManifestRequest.HasMultipleSources q).
  2:{ split; [constructor|]. intros ? ? [= <- <-] url. rewrite lookup_empty.
      split; [by intros ?%elem_of_nil|by intros [? ?]]. }
  match goal with
  | |- context [checkoutReferencedSources ?a ?b ?c ?d ?e ?f ?g ?h ?l ∅ []] =>
      destruct (checkoutReferencedSources_once a b c d e f g h l ∅ [])
        as [Hnd Hrec];
      [constructor|by intros url ?%elem_of_nil|];
      pose proof (checkoutReferencedSources_acquired a b c d e f g h l ∅ []) as Hacq
  end.
  split; [done|]. intros repoRefs acquired Hok url. split; [by apply (Hrec _ _ Hok)|].
  intros [closer Hc].
  assert (recordedAreAcquired NormalizeGitURL (referencedRevisionInTask w) ∅ []) as Hempty.
  { intros u c0 Hu. by rewrite lookup_empty in Hu. }
  destruct (Hacq repoRefs acquired Hempty Hok url closer Hc) as [Hin _].
  apply list_elem_of_fmap. by exists (url, repoRef.commitSHA closer).
Qed.

(** *** The deferred releases *)

Definition SourceKind_eqb (a b : SourceKind) : bool :=
  match a, b with
  | KindOCI, KindOCI | KindHelm, KindHelm | KindGit, KindGit => true
  | _, _ => false
  end.

(** What the request task holds after a stretch of its trace, the resource
    acquired last first; [None] when a release is not that of the resource
    acquired last. *)
Fixpoint held (l : list Event) (stack : list Event) : option (list Event) :=
  match l with
  | [] => Some stack
  | e :: rest =>
      match e with
      | EvSemAcquire | EvAcquire _ => held rest (e :: stack)
      | EvSemRelease =>
          match stack with
          | EvSemAcquire :: stack' => held rest stack'
          | _ => None
          end
      | EvRelease k =>
          match stack with
          | EvAcquire k' :: stack' =>
              if SourceKind_eqb k k' then held rest stack' else None
          | _ => None
          end
      | _ => held rest stack
      end
  end.

(** The events that neither acquire nor release. *)
Definition inert (e : Event) : bool :=
  match e with
  | EvSemAcquire | EvSemRelease | EvAcquire _ | EvRelease _ => false
  | _ => true
  end.

Lemma held_app l1 l2 stack :
  held (l1 ++ l2) stack = held l1 stack ≫= held l2.
Proof.
  revert stack. induction l1 as [|e l1 IH]; intros stack; [done|].
  cbn [app held]. destruct e; try apply IH.
  - destruct stack as [|[] stack']; done.
  - destruct stack as [|[] stack']; try done.
    by destruct (SourceKind_eqb _ _).
Qed.

Lemma held_inert l stack : forallb inert l = true -> held l stack = Some stack.
Proof.
  induction l as [|e l IH]; [done|]. cbn [forallb held].
  intros [He Hl]%andb_true_iff. destruct e; try done; by apply IH.
Qed.

Lemma SourceKind_eqb_refl k : SourceKind_eqb k k = true.
Proof. by destruct k. Qed.

Lemma operation_inert w q commitSHA cacheKey opContext t :
  exists X, trace (operation w q commitSHA cacheKey opContext t).2 = (trace t ++ X)%list
            /\ forallb inert X = true.
Proof.
  destruct (operation_trace w q commitSHA cacheKey opContext t) as (X & HX & Hs).
  exists X. split; [done|]. destruct Hs as [->|[->|[m ->]]]; done.
Qed.

Lemma afterAcquire_inert w q revision repoRefs p t :
  exists Y, trace (afterAcquire w q revision repoRefs p t).2 = (trace t ++ Y)%list
            /\ forallb inert Y = true.
Proof.
  assert (exists Y, trace t = (trace t ++ Y)%list /\ forallb inert Y = true) as Hstop.
  { exists []. by rewrite app_nil_r. }
  unfold afterAcquire.
  destruct (if AllowOutOfBoundsSymlinks s then None else checkOutOfBoundsSymlinks w);
    [done|].
  destruct (IsOCI (ManifestRequest.Source q)).
  { destruct (appPath w); [apply operation_inert|done]. }
  destruct (IsHelm (ManifestRequest.Source q)); [apply operation_inert|].
  destruct (if ManifestRequest.HasMultipleSources q then inl revision else gitCommitSHA w)
    as [commitSHA|err]; [|done].
  destruct (ManifestRequest.NoCache q); [apply operation_inert|].
  unfold cacheFn.
  destruct (getManifestCacheEntry _ _ _ _ _) as [[[ok resp] err] c].
  destruct ok; cbn.
  { by exists [EvCacheProbe false]. }
  match goal with
  | |- context [operation w q ?a ?b ?o ?t1] =>
      destruct (operation_inert w q a b o t1) as (X & HX & Hs)
  end.
  exists (EvCacheProbe false :: X). cbn in HX. rewrite HX.
  split; [by rewrite <- app_assoc|done].
Qed.

Lemma runRepoOperation_nested w q t :
  held (trace t) [] = Some [] ->
  held (trace (runRepoOperation w q t).2) [] = Some [].
Proof.
  intros Ht. unfold runRepoOperation.
  destruct (resolveRevision w) as [revision|?]; [|done].
  destruct (resolvedReferences w q) as [repoRefs|?]; [|done].
  assert (exists ok err t1,
            (if ManifestRequest.NoCache q then ((false, None), t)
             else cacheFn w q revision repoRefs true t) = ((ok, err), t1)
            /\ held (trace t1) [] = Some []) as (ok & err & t1 & -> & H1).
  { destruct (ManifestRequest.NoCache q); [by eexists _, _, _|].
    unfold cacheFn. destruct (getManifestCacheEntry _ _ _ _ _) as [[[ok resp] err] c'].
    eexists _, _, _. split; [done|]. cbn. by rewrite held_app, Ht. }
  destruct ok; [done|].
  assert (forall t2 stack,
            held (trace t2) [] = Some stack ->
            held (trace (releaseSem t2)) []
            = if 0 <? ParallelismLimit s then held [EvSemRelease] stack else Some stack)
    as Hsem.
  { intros t2 stack H2. unfold releaseSem. destruct (0 <? ParallelismLimit s); [|done].
    cbn. by rewrite held_app, H2. }
  assert (forall t2 stack,
            held (trace t2) [] = Some stack ->
            (forall t3, held (trace t3) [] = Some stack ->
               held (trace (releaseSem t3)) [] = Some []) ->
            held (trace
                    (match (if (IsOCI (ManifestRequest.Source q)
                                || IsHelm (ManifestRequest.Source q))
                               && ManifestRequest.NoCache q
                            then cleanCache w else None) with
                     | Some err => (Some err, releaseSem t2)
                     | None =>
                         match acquireSource w with
                         | inr err => (Some err, releaseSem t2)
                         | inl acquiredPath =>
                             let '(err, t) :=
                               afterAcquire w q revision repoRefs acquiredPath
                                 (emit (EvAcquire (kindOf (ManifestRequest.Source q))) t2)
                             in (err, releaseAll (kindOf (ManifestRequest.Source q)) t)
                         end
                     end).2) [] = Some []) as Hrest.
  { intros t2 stack H2 Hrel.
    destruct (if _ && ManifestRequest.NoCache q then cleanCache w else None);
      [by apply Hrel|].
    destruct (acquireSource w) as [p|?]; [|by apply Hrel].
    destruct (afterAcquire_inert w q revision repoRefs p
                (emit (EvAcquire (kindOf (ManifestRequest.Source q))) t2))
      as (Y & HY & Hin).
    destruct (afterAcquire _ _ _ _ _ _) as [err2 t3]. cbn in HY.
    unfold releaseAll. cbn [snd]. apply Hrel. cbn. rewrite HY.
    rewrite !held_app, H2. cbn. rewrite (held_inert _ _ Hin). cbn.
    by rewrite SourceKind_eqb_refl. }
  destruct (0 <? ParallelismLimit s) eqn:EP.
  - destruct (semAcquire w); [done|].
    apply Hrest with [EvSemAcquire].
    + cbn. by rewrite held_app, H1.
    + intros t3 H3. by rewrite (Hsem _ _ H3).
  - apply Hrest with []; [done|].
    intros t3 H3. by rewrite (Hsem _ _ H3).
Qed.

(** X22. Whatever the outcome of a request, when [GenerateManifest] returns
    the request task holds nothing: every semaphore slot and every source
    it has acquired has been released, each release being that of the
    resource acquired last (the deferred calls run in reverse order: the
    closer of the source, then the semaphore). *)
Theorem deferred_releases_are_nested (w : World) (q : ManifestRequest.t)
    (c : cache.Cache) :
  held (trace (GenerateManifest w q c).2) [] = Some [].
Proof.
  unfold GenerateManifest.
  destruct (_ && IsRef (ManifestRequest.Source q)).
  { by destruct (resolveRevision w). }
  pose proof (runRepoOperation_nested w q (mkTask None false [] false c []) eq_refl)
    as Hrun.
  destruct (runRepoOperation _ _ _) as [err t]. cbn [snd] in Hrun.
  destruct (tarConcluded t && _); [|done].
  cbn. destruct (promise t) as [|[e|r|b] rest]; cbn;
    rewrite ?held_app, Hrun; done.
Qed.

(** *** A rendered response is served to the next request *)

(** The entry that the success branch writes. *)
Definition successEntry (stamped : ManifestResponse.t) : CachedManifestResponse.t :=
  CachedManifestResponse.mk (Some stamped) "" 0 0 0.

(** How [operation] or [afterAcquire] leaves the closure variables after a
    render that has succeeded with [stamped]. *)
Definition deliveredBy (w : World) (stamped : ManifestResponse.t) (t : Task) : Prop :=
  if tarDone (render w)
  then res t = None /\ tarConcluded t = true /\ promise t = [MsgResponse stamped]
  else res t = Some stamped /\ tarConcluded t = false /\ promise t = [].

Lemma operation_success w q commitSHA cacheKey p sig t repoRefs' acquired result entries1 :
  ManifestRequest.HasMultipleSources q
  && String.eqb (Path (ManifestRequest.Source q)) ""
  && String.eqb (Chart (ManifestRequest.Source q)) "" = false ->
  referencedCheckout w q commitSHA = RefsOk repoRefs' acquired ->
  generated (render w) = inl result ->
  store t = cache.mkCache entries1 [] ->
  res t = None ->
  tarConcluded t = false ->
  let stamped :=
    ManifestResponse.mk (ManifestResponse.Manifests result)
      (ManifestResponse.SourceType result) (ManifestResponse.Commands result)
      commitSHA sig in
  let out := operation w q commitSHA cacheKey (inl (p, sig)) t in
  out.1 = None
  /\ store out.2
     = cache.mkCache
         (<[manifestsKey cacheKey q (repoRef.commitSHA <$> repoRefs') :=
              successEntry stamped]> entries1) []
  /\ rendered out.2 = true
  /\ deliveredBy w stamped out.2.
Proof.
  intros Hsrc Hrc Hgen Hst Hres Htar stamped out. subst out stamped.
  unfold operation. rewrite Hsrc. unfold runManifestGenAsync. rewrite Hrc, Hgen, Hst.
  unfold recordSuccess, cache.SetManifests, cache.nextFault, deliveredBy, successEntry.
  cbn [cache.faults cache.entries].
  destruct (tarDone (render w)); cbn; by rewrite ?Hres, ?Htar.
Qed.

Lemma afterAcquire_success w q revision repoRefs p t entries1 result :
  ManifestRequest.NoCache q = false ->
  reachesRender w q ->
  stableReferences w q ->
  resolvedReferences w q = inl repoRefs ->
  generated (render w) = inl result ->
  store t = cache.mkCache entries1 [] ->
  entries1 !! manifestsKey revision q repoRefs = None ->
  res t = None ->
  tarConcluded t = false ->
  let out := afterAcquire w q revision repoRefs p t in
  exists stamped,
    out.1 = None
    /\ store out.2
       = cache.mkCache (<[manifestsKey revision q repoRefs := successEntry stamped]>
                          entries1) []
    /\ rendered out.2 = true
    /\ deliveredBy w stamped out.2
    /\ ManifestResponse.Manifests stamped = ManifestResponse.Manifests result.
Proof.
  intros Hnc (_ & _ & Hsym & Hpath & Hgit & Hsrc & Hrc) Hstable Hrefs Hgen Hst Hk
    Hres Htar out.
  subst out.
  assert (forall commitSHA sig ap t0,
            store t0 = cache.mkCache entries1 [] -> res t0 = None ->
            tarConcluded t0 = false ->
            let out := operation w q commitSHA revision (inl (ap, sig)) t0 in
            exists stamped,
              out.1 = None
              /\ store out.2
                 = cache.mkCache
                     (<[manifestsKey revision q repoRefs := successEntry stamped]>
                        entries1) []
              /\ rendered out.2 = true
              /\ deliveredBy w stamped out.2
              /\ ManifestResponse.Manifests stamped = ManifestResponse.Manifests result)
    as Hop.
  { intros commitSHA sig ap t0 Hst0 Hres0 Htar0.
    destruct (Hrc commitSHA) as (repoRefs' & acquired & Hok).
    destruct (operation_success w q commitSHA revision ap sig t0 repoRefs' acquired
                result entries1 Hsrc Hok Hgen Hst0 Hres0 Htar0) as (H1 & H2 & H3 & H4).
    pose proof (referencedCheckout_resolved _ _ _ _ _ Hstable Hok) as Hagree.
    rewrite Hrefs in Hagree. injection Hagree as Hagree. rewrite <- Hagree in H2.
    eexists. split; [exact H1|]. split; [exact H2|]. split; [exact H3|].
    split; [exact H4|done]. }
  unfold afterAcquire.
  assert ((if AllowOutOfBoundsSymlinks s then None else checkOutOfBoundsSymlinks w)
          = None) as ->.
  { destruct Hsym as [->| ->]; [done|by destruct (AllowOutOfBoundsSymlinks s)]. }
  destruct (IsOCI (ManifestRequest.Source q)) eqn:Eoci.
  { destruct Hpath as [ap ->]; [by right|]. by apply Hop. }
  destruct (IsHelm (ManifestRequest.Source q)) eqn:Ehelm.
  { by apply Hop. }
  destruct (Hgit eq_refl eq_refl) as [Hcommit Hsig].
  destruct Hpath as [ap Hap]; [by left|].
  assert (exists c, (if ManifestRequest.HasMultipleSources q
                     then inl revision else gitCommitSHA w) = inl c) as [c ->].
  { destruct (ManifestRequest.HasMultipleSources q); [by eexists|].
    destruct Hcommit as [?|[c ->]]; [done|by eexists]. }
  rewrite Hnc. unfold cacheFn. rewrite Hst, (probe_miss _ _ _ _ Hk).
  cbn [fst snd].
  assert (exists sig, (if ManifestRequest.VerifySignature q
                       then verifyCommitSignature w else inl "") = inl sig) as [sig ->].
  { destruct (ManifestRequest.VerifySignature q); [|by eexists].
    destruct Hsig as [?|[sig ->]]; [done|by eexists]. }
  rewrite Hap. by apply Hop.
Qed.

Lemma deliveredBy_same w stamped t t' :
  res t' = res t -> tarConcluded t' = tarConcluded t -> promise t' = promise t ->
  deliveredBy w stamped t -> deliveredBy w stamped t'.
Proof. unfold deliveredBy. by intros -> -> ->. Qed.

Lemma runRepoOperation_success w q revision repoRefs entries0 result :
  ManifestRequest.NoCache q = false ->
  resolveRevision w = inl revision ->
  resolvedReferences w q = inl repoRefs ->
  stableReferences w q ->
  entries0 !! manifestsKey revision q repoRefs = None ->
  reachesRender w q ->
  generated (render w) = inl result ->
  let out :=
    runRepoOperation w q (mkTask None false [] false (cache.mkCache entries0 []) []) in
  exists stamped,
    out.1 = None
    /\ store out.2
       = cache.mkCache (<[manifestsKey revision q repoRefs := successEntry stamped]>
                          entries0) []
    /\ rendered out.2 = true
    /\ deliveredBy w stamped out.2
    /\ ManifestResponse.Manifests stamped = ManifestResponse.Manifests result.
Proof.
  intros Hnc Hrev Hrefs Hstable Hk Hreach Hgen out. subst out.
  unfold runRepoOperation. rewrite Hrev, Hrefs, Hnc.
  unfold cacheFn. cbn [store]. rewrite (probe_miss _ _ _ _ Hk).
  cbn [fst snd res tarConcluded promise rendered store trace].
  pose proof Hreach as (Hsem & [p Hp] & _).
  rewrite andb_false_r, Hp.
  assert (forall t0 : Task,
            store t0 = cache.mkCache entries0 [] -> res t0 = None ->
            tarConcluded t0 = false ->
            let out :=
              (let '(err, t) :=
                 afterAcquire w q revision repoRefs p
                   (emit (EvAcquire (kindOf (ManifestRequest.Source q))) t0) in
               (err, releaseAll (kindOf (ManifestRequest.Source q)) t)) in
            exists stamped,
              out.1 = None
              /\ store out.2
                 = cache.mkCache
                     (<[manifestsKey revision q repoRefs := successEntry stamped]>
                        entries0) []
              /\ rendered out.2 = true
              /\ deliveredBy w stamped out.2
              /\ ManifestResponse.Manifests stamped = ManifestResponse.Manifests result)
    as Hbody.
  { intros t0 Hst0 Hres0 Htar0.
    destruct (afterAcquire_success w q revision repoRefs p
                (emit (EvAcquire (kindOf (ManifestRequest.Source q))) t0)
                entries0 result Hnc Hreach Hstable Hrefs Hgen Hst0 Hk Hres0 Htar0)
      as (stamped & H1 & H2 & H3 & H4 & H5).
    destruct (afterAcquire _ _ _ _ _ _) as [err t2]. cbn [fst snd] in *.
    exists stamped. split; [done|].
    unfold releaseAll, releaseSem.
    destruct (0 <? ParallelismLimit s); cbn [emit store rendered];
      (split; [done|]); (split; [done|]); (split; [|done]);
      by apply (deliveredBy_same w stamped t2). }
  destruct (0 <? ParallelismLimit s) eqn:EP.
  - destruct Hsem as [Hle| ->]; [apply Z.ltb_lt in EP; lia|]. by apply Hbody.
  - by apply Hbody.
Qed.

(** X23. A rendered response is served to the next request.  When a
    request that uses the cache finds no entry under its key, gets through
    to the renderer and the renderer succeeds, and its referenced
    repositories resolve in the render task as they did before the probe,
    it returns the stamped response without error and leaves it in the
    cache under the key it probed; a following request for the same
    revision, with the same referenced revisions, is then answered with
    that response after nothing but the cache probe: no semaphore, no
    source acquired, no render, and the cache left as it is. *)
Theorem rendered_manifests_are_cached (w w2 : World) (q : ManifestRequest.t)
    (revision : string) (repoRefs : gmap string string)
    (entries0 : gmap string CachedManifestResponse.t) (result : ManifestResponse.t) :
  let key := manifestsKey revision q repoRefs in
  refOnly q = false ->
  ManifestRequest.NoCache q = false ->
  resolveRevision w = inl revision ->
  resolvedReferences w q = inl repoRefs ->
  stableReferences w q ->
  entries0 !! key = None ->
  reachesRender w q ->
  generated (render w) = inl result ->
  resolveRevision w2 = inl revision ->
  resolvedReferences w2 q = inl repoRefs ->
  exists stamped t,
    GenerateManifest w q (cache.mkCache entries0 []) = ((Some stamped, None), t)
    /\ ManifestResponse.Manifests stamped = ManifestResponse.Manifests result
    /\ rendered t = true
    /\ store t = cache.mkCache (<[key := successEntry stamped]> entries0) []
    /\ GenerateManifest w2 q (store t)
       = ((Some stamped, None),
          mkTask (Some stamped) false [] false (store t) [EvCacheProbe true]).
Proof.
  intros key Href Hnc Hrev Hrefs Hstable Hk Hreach Hgen Hrev2 Hrefs2.
  destruct (runRepoOperation_success w q revision repoRefs entries0 result
              Hnc Hrev Hrefs Hstable Hk Hreach Hgen) as (stamped & H1 & H2 & H3 & H4 & H5).
  assert (exists t,
            GenerateManifest w q (cache.mkCache entries0 []) = ((Some stamped, None), t)
            /\ rendered t = true
            /\ store t = cache.mkCache (<[key := successEntry stamped]> entries0) [])
    as (t & Hfirst & Hrend & Hstore).
  { unfold GenerateManifest. fold (refOnly q). rewrite Href.
    destruct (runRepoOperation _ _ _) as [err t1]. cbn [fst snd] in *. subst err.
    unfold deliveredBy in H4.
    destruct (tarDone (render w)); destruct H4 as (Hres & Htar & Hprom);
      rewrite Htar, Hres.
    - cbn. rewrite Hprom. eexists. split; [done|]. by split.
    - cbn. eexists. split; [done|]. by split. }
  exists stamped, t. split; [done|]. split; [done|]. split; [done|]. split; [done|].
  rewrite Hstore. unfold GenerateManifest. fold (refOnly q). rewrite Href.
  unfold runRepoOperation. rewrite Hrev2, Hrefs2, Hnc.
  unfold cacheFn. cbn [store].
  unfold getManifestCacheEntry, cache.GetManifests, cache.nextFault.
  cbn [cache.faults cache.entries]. fold key. rewrite lookup_insert_eq.
  unfold successEntry.
  cbn [CachedManifestResponse.FirstFailureTimestamp
         CachedManifestResponse.ManifestResponse].
  rewrite andb_false_r. done.
Qed.

(** *** Requests that bypass the cache *)

Definition isProbe (e : Event) : bool :=
  match e with EvCacheProbe _ => true | _ => false end.

Definition probeFree (l : list Event) : Prop := forallb (fun e => negb (isProbe e)) l = true.

Lemma probeFree_app l1 l2 : probeFree l1 -> probeFree l2 -> probeFree (l1 ++ l2).
Proof. unfold probeFree. rewrite forallb_app. by intros -> ->. Qed.

Lemma operation_probeFree w q commitSHA cacheKey opContext t :
  probeFree (trace t) ->
  probeFree (trace (operation w q commitSHA cacheKey opContext t).2).
Proof.
  intros Ht. destruct (operation_trace w q commitSHA cacheKey opContext t)
    as (X & -> & Hs).
  apply probeFree_app; [done|]. destruct Hs as [->|[->|[m ->]]]; done.
Qed.

Lemma afterAcquire_probeFree w q revision repoRefs p t :
  ManifestRequest.NoCache q = true ->
  probeFree (trace t) ->
  probeFree (trace (afterAcquire w q revision repoRefs p t).2).
Proof.
  intros Hnc Ht. unfold afterAcquire.
  destruct (if AllowOutOfBoundsSymlinks s then None else checkOutOfBoundsSymlinks w);
    [done|].
  destruct (IsOCI (ManifestRequest.Source q)).
  { destruct (appPath w); [by apply operation_probeFree|done]. }
  destruct (IsHelm (ManifestRequest.Source q)); [by apply operation_probeFree|].
  destruct (if ManifestRequest.HasMultipleSources q then inl revision else gitCommitSHA w)
    as [commitSHA|err]; [|done].
  rewrite Hnc. by apply operation_probeFree.
Qed.

Lemma releaseSem_probeFree t : probeFree (trace t) -> probeFree (trace (releaseSem t)).
Proof.
  intros Ht. unfold releaseSem. destruct (0 <? ParallelismLimit s); [|done].
  cbn. by apply probeFree_app.
Qed.

(** X24. A request with [NoCache] never probes the manifest cache: neither
    before acquiring the semaphore nor after acquiring the source. *)
Theorem NoCache_never_probes (w : World) (q : ManifestRequest.t) (c : cache.Cache) :
  ManifestRequest.NoCache q = true ->
  forall firstInvocation,
    EvCacheProbe firstInvocation ∉ trace (GenerateManifest w q c).2.
Proof.
  intros Hnc.
  assert (probeFree (trace (GenerateManifest w q c).2)) as Hfree.
  { unfold GenerateManifest.
    destruct (_ && IsRef (ManifestRequest.Source q)).
    { by destruct (resolveRevision w). }
    assert (probeFree (trace (runRepoOperation w q (mkTask None false [] false c [])).2))
      as Hrun.
    { unfold runRepoOperation.
      destruct (resolveRevision w) as [revision|?]; [|done].
      destruct (resolvedReferences w q) as [repoRefs|?]; [|done].
      rewrite Hnc.
      assert (forall t0, probeFree (trace t0) ->
                probeFree (trace
                  (match (if (IsOCI (ManifestRequest.Source q)
                              || IsHelm (ManifestRequest.Source q)) && true
                          then cleanCache w else None) with
                   | Some err => (Some err, releaseSem t0)
                   | None =>
                       match acquireSource w with
                       | inr err => (Some err, releaseSem t0)
                       | inl acquiredPath =>
                           let '(err, t) :=
                             afterAcquire w q revision repoRefs acquiredPath
                               (emit (EvAcquire (kindOf (ManifestRequest.Source q))) t0)
                           in (err, releaseAll (kindOf (ManifestRequest.Source q)) t)
                       end
                   end).2)) as Hrest.
      { intros t0 H0.
        destruct (if _ && true then cleanCache w else None);
          [by apply releaseSem_probeFree|].
        destruct (acquireSource w) as [p|?]; [|by apply releaseSem_probeFree].
        pose proof (afterAcquire_probeFree w q revision repoRefs p
                      (emit (EvAcquire (kindOf (ManifestRequest.Source q))) t0) Hnc)
          as Hafter.
        destruct (afterAcquire _ _ _ _ _ _) as [err t2]. cbn [snd] in *.
        unfold releaseAll. apply releaseSem_probeFree. cbn.
        apply probeFree_app; [|done]. apply Hafter. cbn. by apply probeFree_app. }
      destruct (0 <? ParallelismLimit s).
      - destruct (semAcquire w); [done|]. apply Hrest. cbn. done.
      - by apply Hrest. }
    destruct (runRepoOperation _ _ _) as [err t]. cbn [snd] in Hrun.
    destruct (tarConcluded t && _); [|done].
    cbn. destruct (promise t) as [|[e|r|b] rest]; cbn;
      repeat (apply probeFree_app; [|done]); done. }
  intros firstInvocation Hin. unfold probeFree in Hfree.
  rewrite forallb_forall in Hfree. apply list_elem_of_In in Hin.
  by specialize (Hfree _ Hin).
Qed.

(** *** Recording a failure when the store fails *)

(** X25. The error branch of the render task touches the entry of its key
    only.  Either it sends the generation error as it is, and then, when
    memoisation is on, the entry of the key holds that error as the most
    recent one, with the response of the former entry, if any, retained;
    or the store has failed, and it sends the error of the store in place
    of the generation error and leaves every entry as it was. *)
Theorem recordFailure_outcomes (now : Z) (key err : string) (c : cache.Cache) :
  let out := recordFailure s now key err c in
  (forall k, k <> key -> cache.entries out.2 !! k = cache.entries c !! k)
  /\ ((out.1 = MsgErr err
       /\ (0 < PauseGenerationAfterFailedGenerationAttempts s ->
           exists res',
             cache.entries out.2 !! key = Some res'
             /\ CachedManifestResponse.MostRecentError res' = err
             /\ CachedManifestResponse.ManifestResponse res'
                = (cache.entries c !! key) ≫= CachedManifestResponse.ManifestResponse))
      \/ (out.1 = MsgErr (cache.error_message cache.ErrStore)
          /\ cache.entries out.2 = cache.entries c
          /\ exists n, cache.faults c !! n = Some true)).
Proof.
  cbv zeta. destruct c as [entries0 faults0]. unfold recordFailure.
  destruct (0 <? PauseGenerationAfterFailedGenerationAttempts s) eqn:EP.
  2:{ cbn. split; [done|]. left. split; [done|]. apply Z.ltb_ge in EP. lia. }
  unfold cache.GetManifests, cache.SetManifests, cache.nextFault.
  cbn [cache.faults cache.entries].
  destruct faults0 as [|[|] [|[|] rest]]; cbn;
    try (split; [done|]; right; split; [done|]; split; [done|]; by exists 0%nat);
    destruct (entries0 !! key) as [res0|] eqn:Hk; cbn;
    try (split; [done|]; right; split; [done|]; split; [done|]; by exists 1%nat);
    (split; [intros k Hne; by rewrite lookup_insert_ne by done|]);
    left; (split; [done|]); intros _; eexists;
    (split; [apply lookup_insert_eq|]); done.
Qed.

End Orchestrator.

(** ** Small helpers of repository.go *)

(** [len(s)], in bytes. *)
Definition byteLength (s : string) : nat := String.length s.

(** [revision[:length]] for [length <= len(revision)]. *)
Fixpoint stringTake (n : nat) (s : string) : string :=
  match n, s with
  | S n', String c rest => String c (stringTake n' rest)
  | _, _ => EmptyString
  end.

(** [shortenRevision]; [length] is not negative at its call sites (7 and
    8). *)
Definition shortenRevision (revision : string) (length : nat) : string :=
  if (length <? byteLength revision)%nat then stringTake length revision
  else revision.

(** [strings.ReplaceAll(repoName, "/", "-")]. *)
Fixpoint sanitizeRepoName (repoName : string) : string :=
  match repoName with
  | EmptyString => EmptyString
  | String c rest =>
      String (if Ascii.eqb c "/" then "-"%char else c) (sanitizeRepoName rest)
  end.

Lemma stringTake_length n s :
  (n <= byteLength s)%nat -> byteLength (stringTake n s) = n.
Proof.
  revert s. induction n as [|n IH]; intros s; [done|].
  destruct s as [|c s]; cbn; [lia|]. intros H. rewrite IH; [done|]. unfold byteLength. lia.
Qed.

Lemma stringTake_prefix n s : exists rest, s = stringTake n s +:+ rest.
Proof.
  revert s. induction n as [|n IH]; intros s; [by exists s|].
  destruct s as [|c s]; [by exists ""|].
  destruct (IH s) as [rest Hrest]. exists rest. cbn [stringTake].
  change (String c (stringTake n s) +:+ rest) with (String c (stringTake n s +:+ rest)).
  by rewrite <- Hrest.
Qed.

Lemma stringTake_stringTake n m s :
  (n <= m)%nat -> stringTake n (stringTake m s) = stringTake n s.
Proof.
  revert m s. induction n as [|n IH]; intros m s Hle; [done|].
  destruct m as [|m]; [lia|]. destruct s as [|c s]; [done|].
  cbn. rewrite IH; [done|lia].
Qed.

(** *** Fetching revisions *)

Section GitFetch.

(** The git client ([git.Client] of util/git) is outside this file: [G] is
    the state of the repository on disk, [IsRevisionPresent] reads it,
    [Fetch] changes it and may fail. *)
Variable G : Type.
Variable IsRevisionPresent : string -> G -> bool.
Variable Fetch : string -> G -> option string * G.

(** The first loop of [fetch]: it stops at the first revision that is not
    present; [revisionPresent] ends [true] when there is none. *)
Fixpoint revisionsPresent (targetRevisions : list string) (g : G) : bool :=
  match targetRevisions with
  | [] => true
  | revision :: rest =>
      if IsRevisionPresent revision g then revisionsPresent rest g else false
  end.

(** The second loop: an explicit fetch of each revision that is still not
    present. *)
Fixpoint fetchMissing (targetRevisions : list string) (g : G) : option string * G :=
  match targetRevisions with
  | [] => (None, g)
  | revision :: rest =>
      if negb (IsRevisionPresent revision g) then
        match Fetch revision g with
        | (Some err, g) =>
            (Some ("Failed to fetch revision " +:+ revision +:+ ": " +:+ err), g)
        | (None, g) => fetchMissing rest g
        end
      else fetchMissing rest g
  end.

(** [fetch(gitClient, targetRevisions)]: the error and the repository it
    leaves. *)
Definition fetch (targetRevisions : list string) (g : G) : option string * G :=
  if revisionsPresent targetRevisions g then (None, g)
  else
    match Fetch "" g with
    | (Some err, g) => (Some err, g)
    | (None, g) => fetchMissing targetRevisions g
    end.

(** What is relied on from the client: a fetch that succeeds for a revision
    makes it present, and no fetch makes a present revision absent. *)
Definition fetchMakesPresent : Prop :=
  forall revision g g',
    Fetch revision g = (None, g') -> revision <> "" ->
    IsRevisionPresent revision g' = true.

Definition fetchKeepsPresent : Prop :=
  forall revision g e g' present,
    Fetch revision g = (e, g') ->
    IsRevisionPresent present g = true -> IsRevisionPresent present g' = true.

Lemma revisionsPresent_all targetRevisions g :
  revisionsPresent targetRevisions g = true <->
  forall revision, revision ∈ targetRevisions -> IsRevisionPresent revision g = true.
Proof.
  induction targetRevisions as [|r rest IH]; cbn [revisionsPresent].
  { split; [|done]. intros _ x Hx. by apply elem_of_nil in Hx. }
  destruct (IsRevisionPresent r g) eqn:Hr.
  - rewrite IH. split.
    + intros H x Hx. apply elem_of_cons in Hx as [->|Hx]; [done|by apply H].
    + intros H x Hx. apply H. by apply list_elem_of_further.
  - split; [done|]. intros H. specialize (H r (list_elem_of_here _ _)). congruence.
Qed.

Lemma fetchMissing_present targetRevisions :
  fetchMakesPresent -> fetchKeepsPresent ->
  forall g g' (kept : list string),
  (forall revision, revision ∈ kept -> IsRevisionPresent revision g = true) ->
  fetchMissing targetRevisions g = (None, g') ->
  forall revision,
    revision ∈ kept \/ (revision ∈ targetRevisions /\ revision <> "") ->
    IsRevisionPresent revision g' = true.
Proof.
  intros Hmakes Hkeeps.
  induction targetRevisions as [|r rest IH]; intros g g' kept Hkept; cbn [fetchMissing].
  { intros [= <-] x [Hx|[Hx _]]; [by apply Hkept|by apply elem_of_nil in Hx]. }
  destruct (IsRevisionPresent r g) eqn:Hr; cbn [negb].
  - intros Hrest x Hx.
    apply (IH g g' (r :: kept)); [|done|].
    + intros y Hy. apply elem_of_cons in Hy as [->|Hy]; [done|by apply Hkept].
    + destruct Hx as [Hx|[Hx Hne]]; [left; by apply list_elem_of_further|].
      apply elem_of_cons in Hx as [->|Hx]; [left; apply list_elem_of_here|by right].
  - destruct (Fetch r g) as [[e|] g1] eqn:Hf; [done|].
    intros Hrest x Hx.
    destruct (decide (r = "")) as [->|Hne].
    + apply (IH g1 g' kept); [|done|].
      * intros y Hy. eapply Hkeeps; [exact Hf|by apply Hkept].
      * destruct Hx as [Hx|[Hx Hx']]; [by left|right].
        apply elem_of_cons in Hx as [->|Hx]; done.
    + apply (IH g1 g' (r :: kept)); [|done|].
      * intros y Hy. apply elem_of_cons in Hy as [->|Hy].
        -- by apply (Hmakes _ _ _ Hf).
        -- eapply Hkeeps; [exact Hf|by apply Hkept].
      * destruct Hx as [Hx|[Hx Hx']]; [left; by apply list_elem_of_further|].
        apply elem_of_cons in Hx as [->|Hx]; [left; apply list_elem_of_here|by right].
Qed.

(** X28. [fetch] leaves the repository alone when every target revision is
    present (in particular for no target at all).  With a client whose
    successful fetch of a revision makes it present and whose fetches keep
    what is present, a [fetch] that returns no error leaves every target
    revision present. *)
Theorem fetch_leaves_revisions_present (targetRevisions : list string) (g g' : G) :
  fetchMakesPresent -> fetchKeepsPresent ->
  "" ∉ targetRevisions ->
  fetch targetRevisions g = (None, g') ->
  (forall revision, revision ∈ targetRevisions ->
     IsRevisionPresent revision g' = true)
  /\ (revisionsPresent targetRevisions g = true -> g' = g).
Proof.
  intros Hmakes Hkeeps Hnonempty. unfold fetch.
  destruct (revisionsPresent targetRevisions g) eqn:Hall.
  - intros [= <-]. split; [by apply revisionsPresent_all|done].
  - destruct (Fetch "" g) as [[e|] g1] eqn:Hf; [done|]. intros Hrest.
    split; [|done]. intros x Hx.
    apply (fetchMissing_present targetRevisions Hmakes Hkeeps g1 g' [] ); [|done|].
    + intros y Hy. by apply elem_of_nil in Hy.
    + right. split; [done|]. by intros ->.
Qed.

End GitFetch.

(** X26. [shortenRevision] returns a prefix of the revision of at most
    [length] bytes, the revision itself when it is that short; and the
    7-byte short form that [newEnv] puts in the environment is the
    shortening of the 8-byte one. *)
Theorem shortenRevision_prefix (revision : string) (length : nat) :
  (exists rest, revision = shortenRevision revision length +:+ rest)
  /\ byteLength (shortenRevision revision length)
     = Nat.min length (byteLength revision)
  /\ shortenRevision (shortenRevision revision 8) 7 = shortenRevision revision 7.
Proof.
  unfold shortenRevision. split; [|split].
  - destruct (length <? byteLength revision)%nat; [apply stringTake_prefix|].
    exists "". induction revision as [|c r IH]; [done|].
    change (String c r +:+ "") with (String c (r +:+ "")). by rewrite <- IH.
  - destruct (Nat.ltb_spec length (byteLength revision)).
    + rewrite stringTake_length by lia. lia.
    + lia.
  - destruct (Nat.ltb_spec 8 (byteLength revision)) as [H8|H8].
    + rewrite stringTake_length by lia.
      replace (7 <? 8)%nat with true by done.
      replace (7 <? byteLength revision)%nat with true
        by (symmetry; apply Nat.ltb_lt; lia).
      by apply stringTake_stringTake; lia.
    + done.
Qed.

(** X27. [sanitizeRepoName] leaves no ['/'] in the name, keeps its length,
    and changes nothing in a name without ['/']; it is idempotent. *)
Theorem sanitizeRepoName_no_slash (repoName : string) :
  containsByte "/" (sanitizeRepoName repoName) = false
  /\ byteLength (sanitizeRepoName repoName) = byteLength repoName
  /\ (containsByte "/" repoName = false -> sanitizeRepoName repoName = repoName)
  /\ sanitizeRepoName (sanitizeRepoName repoName) = sanitizeRepoName repoName.
Proof.
  assert (forall r, containsByte "/" r = false -> sanitizeRepoName r = r) as Hid.
  { induction r as [|c r IH]; [done|]. cbn [containsByte sanitizeRepoName].
    intros H. apply orb_false_iff in H as [Hc Hr]. by rewrite Hc, IH. }
  assert (containsByte "/" (sanitizeRepoName repoName) = false) as Hno.
  { induction repoName as [|c r IH]; [done|]. cbn [containsByte sanitizeRepoName].
    rewrite IH, orb_false_r. by destruct (Ascii.eqb_spec c "/") as [->|Hc];
      [|apply Ascii.eqb_neq]. }
  split; [done|]. split; [|split; [apply Hid|by apply Hid]].
  clear Hno. unfold byteLength.
  induction repoName as [|c r IH]; [done|]. cbn [sanitizeRepoName String.length].
  by rewrite IH.
Qed.


(** ** Chart revisions *)

(** A fully-qualified semantic version, and its precedence. *)
Record Version := mkVersion { major : nat; minor : nat; patch : nat }.

Definition Version_compare (a b : Version) : comparison :=
  match Nat.compare (major a) (major b) with
  | Eq =>
      match Nat.compare (minor a) (minor b) with
      | Eq => Nat.compare (patch a) (patch b)
      | c => c
      end
  | c => c
  end.

Definition GreaterThan (a b : Version) : bool :=
  match Version_compare a b with Gt => true | _ => false end.






(** [v1alpha1.Repository], the two fields the chart resolver reads. *)
Record Repository := mkRepository { Repo : string; EnableOCI : bool }.

Section ChartRevisions.

(** Outside this file: the semver library ([parseVersion] for
    [semver.NewVersion], [parseConstraint] for [semver.NewConstraint]
    together with [Check]), [helm.IsHelmOciRepo], and the helm client
    ([GetTags], and [GetIndex] followed by [GetEntries(chart).Tags()]). *)
Variable parseVersion : string -> option Version.
Variable parseConstraint : string -> option (Version -> bool).
Variable IsHelmOciRepo : string -> bool.
Variable Index : Type.
Variable GetTags : string -> bool -> list string + string.
Variable GetIndex : bool -> Index + string.
Variable GetEntriesTags : Index -> string -> list string + string.

(** Modelled from the spec: package util/versions is not in the sources.
    [IsVersion] tells whether the input is a fully-qualified semver. *)
Definition IsVersion (rev : string) : bool :=
  match parseVersion rev with Some _ => true | None => false end.

Definition maxStep (check : Version -> bool) (acc : option (string * Version))
    (tag : string) : option (string * Version) :=
  match parseVersion tag with
  | None => acc
  | Some v =>
      if check v then
        match acc with
        | None => Some (tag, v)
        | Some (_, maxVersion) =>
            if GreaterThan v maxVersion then Some (tag, v) else acc
        end
      else acc
  end.

(** Modelled from the spec: [MaxVersion] selects, among the available
    versions, the maximum one that satisfies the constraint string, and
    fails when none does (or when the string is not a constraint). *)
Definition MaxVersion (revision : string) (tags : list string) : string + string :=
  match parseConstraint revision with
  | None => inr "failed to determine semver constraint"
  | Some check =>
      match foldl (maxStep check) None tags with
      | None => inr "version matching constraint not found"
      | Some (tag, _) => inl tag
      end
  end.

(** The enumeration of the available versions: the tag list of an
    OCI-backed registry, the index file of a classic one. *)
Definition availableVersions (repo : Repository) (chart : string)
    (noRevisionCache : bool) : list string + string :=
  let enableOCI := EnableOCI repo || IsHelmOciRepo (Repo repo) in
  if enableOCI then
    match GetTags chart noRevisionCache with
    | inl tags => inl tags
    | inr err => inr ("unable to get tags: " +:+ err)
    end
  else
    match GetIndex noRevisionCache with
    | inr err => inr err
    | inl index => GetEntriesTags index chart
    end.

(** [newHelmClientResolveRevision], the revision and the error it returns;
    every error is a [ResolveFailure]. *)
Definition newHelmClientResolveRevision (repo : Repository) (revision chart : string)
    (noRevisionCache : bool) : string + string :=
  if IsVersion revision then inl revision
  else
    match availableVersions repo chart noRevisionCache with
    | inr err => inr err
    | inl tags =>
        match MaxVersion revision tags with
        | inr err => inr ("invalid revision: " +:+ err)
        | inl maxV => inl maxV
        end
    end.






End ChartRevisions.

(** * Worked instances *)

(** ** Project policy *)

(** A stand-in for the collaborators: a glob that matches only itself, the
    identity for URL normalisation, list membership by equality of group
    and kind. *)
Definition exactGlob (pattern text : string) (_ : list ascii) : bool :=
  String.eqb pattern text.

Definition sameURL (url : string) : string := url.

Definition exactResourceInList (res : GroupKind) (l : list GroupKind) : bool :=
  existsb (fun item => String.eqb (Group item) (Group res)
                       && String.eqb (Kind item) (Kind res)) l.

Definition projectWithRepos (repos : list string) : AppProject :=
  mkAppProject (mkAppProjectSpec repos [] None None None None)
    (mkAppProjectStatus None).

Definition sourceAt (url : string) : ApplicationSource :=
  mkApplicationSource url "" "" "" "" None.

Lemma IsSourcePermitted_deny_patterns_witness :
  IsSourcePermitted exactGlob sameURL
    (projectWithRepos ["*"; "!https://example.com/bad"; "https://example.com/bad"])
    (sourceAt "https://example.com/bad") = false
  /\ IsSourcePermitted exactGlob sameURL
       (projectWithRepos ["!https://example.com/bad"; "!https://example.com/worse"])
       (sourceAt "https://example.com/good") = true.
Proof.
  split.
  - apply (proj1 (IsSourcePermitted_deny_patterns exactGlob sameURL
                    (projectWithRepos
                       ["*"; "!https://example.com/bad"; "https://example.com/bad"])
                    (sourceAt "https://example.com/bad"))).
    exists "!https://example.com/bad".
    split; [right; left; reflexivity|split; reflexivity].
  - apply (proj2 (proj2 (IsSourcePermitted_deny_patterns exactGlob sameURL
                    (projectWithRepos
                       ["!https://example.com/bad"; "!https://example.com/worse"])
                    (sourceAt "https://example.com/good")))).
    + discriminate.
    + intros e [<-|[<-|[]]]; split; reflexivity.
Defined.

Definition deployments : GroupKind := mkGroupKind "apps" "Deployment".

Lemma IsGroupKindPermitted_nil_vs_empty_witness :
  IsGroupKindPermitted exactResourceInList
    (mkAppProject (mkAppProjectSpec [] [] None None None None) (mkAppProjectStatus None))
    deployments true = true
  /\ IsGroupKindPermitted exactResourceInList
       (mkAppProject (mkAppProjectSpec [] [] None None (Some []) None)
          (mkAppProjectStatus None))
       deployments true = false
  /\ IsGroupKindPermitted exactResourceInList
       (mkAppProject (mkAppProjectSpec [] [] (Some []) None None None)
          (mkAppProjectStatus None))
       deployments false = false.
Proof.
  split; [|split].
  - apply (proj1 (IsGroupKindPermitted_nil_vs_empty exactResourceInList
                    (mkAppProject (mkAppProjectSpec [] [] None None None None)
                       (mkAppProjectStatus None)) deployments));
      reflexivity.
  - apply (proj1 (proj2 (IsGroupKindPermitted_nil_vs_empty exactResourceInList
                    (mkAppProject (mkAppProjectSpec [] [] None None (Some []) None)
                       (mkAppProjectStatus None)) deployments)));
      reflexivity.
  - apply (proj2 (proj2 (IsGroupKindPermitted_nil_vs_empty exactResourceInList
                    (mkAppProject (mkAppProjectSpec [] [] (Some []) None None None)
                       (mkAppProjectStatus None)) deployments)));
      reflexivity.
Defined.

(** ** JWT tokens *)

Definition inOrder (_ : nat) : list nat := [].

Definition tokenA : JWTToken := mkJWTToken 5 0 "".
Definition tokenB : JWTToken := mkJWTToken 7 0 "x".
Definition tokenC : JWTToken := mkJWTToken (-3) 0 "".

Definition projectWithRoles (roles : list ProjectRole)
    (status : option (gmap string (list JWTToken))) : AppProject :=
  mkAppProject (mkAppProjectSpec [] roles None None None None)
    (mkAppProjectStatus status).

(** Two roles of the same name: after normalisation the first role has the
    token it had, while the status entry of that name (and the second role)
    has both tokens. *)
Definition twoRolesOneName : AppProject :=
  projectWithRoles [mkProjectRole "a" [tokenA]; mkProjectRole "a" [tokenB]] None.

Lemma NormalizeJWTTokens_same_name_roles_differ :
  let proj' := NormalizeJWTTokens inOrder twoRolesOneName in
  ~ (forall i role, Roles (Spec proj') !! i = Some role ->
       statusLookup (JWTTokensByRole (Status proj')) (Name role)
       = Some (JWTTokens role)).
Proof.
  intros proj' H.
  specialize (H 0%nat (mkProjectRole "a" [mkJWTToken 5 0 "5"]) eq_refl).
  vm_compute in H. discriminate H.
Qed.

Definition twoRoles : AppProject :=
  projectWithRoles
    [mkProjectRole "a" [tokenA; tokenC]; mkProjectRole "b" [tokenB]]
    (Some {[ "a" := [tokenB]; "gone" := [tokenA] ]}).

Lemma NormalizeJWTTokens_synchronises_witness :
  NoDup (Name <$> Roles (Spec twoRoles))
  /\ exists tokens,
       Roles (Spec (NormalizeJWTTokens inOrder twoRoles)) !! 0%nat
       = Some (mkProjectRole "a" tokens)
       /\ statusLookup (JWTTokensByRole (Status (NormalizeJWTTokens inOrder twoRoles))) "a"
          = Some tokens.
Proof.
  assert (NoDup (Name <$> Roles (Spec twoRoles))) as Hnd.
  { apply (bool_decide_unpack _). vm_compute. exact I. }
  split; [exact Hnd|].
  destruct (NormalizeJWTTokens_synchronises inOrder twoRoles Hnd) as [Hroles _].
  destruct (Hroles 0%nat (mkProjectRole "a" [tokenA; tokenC]) eq_refl)
    as (tokens & H1 & H2 & _).
  exists tokens. split; [exact H1|exact H2].
Defined.

(** ** Failure memoisation *)

Definition notOCI (_ : ApplicationSource) : bool := false.
Definition notHelm (_ : ApplicationSource) : bool := false.
Definition notRef (_ : ApplicationSource) : bool := false.

(** A key that is the resolved revision alone. *)
Definition keyOfRevision (cacheKey : string) (_ : ManifestRequest.t)
    (_ : gmap string string) : string := cacheKey.

(** A stand-in for the text of the errors of the loops over referenced
    sources. *)
Definition refErrorText (e : RefError) : string :=
  match e with
  | UnresolvedReference _ => "source referenced an unknown ref"
  | ReferenceNotAllowed => "charts are not supported for ref sources"
  | InconsistentReferenceRevisions _ _ _ _ =>
      "cannot reference multiple revisions for the same repository"
  | ResolveFailure _ => "failed to get git client for repo"
  | InconsistentPrimaryReference _ =>
      "cannot reference a different revision of the same repository"
  | LockFailure e => e
  | OutOfBoundsSymlink e => e
  end.

Definition resolveByName (_ revision : string) : string + string :=
  inl ("sha-" +:+ revision).

Definition lockAlways (_ _ : string) : option string := None.

Definition symlinksFine (_ : string) : option string := None.

Definition guestbook : ManifestRequest.t :=
  ManifestRequest.mk "main" false false false false
    (mkApplicationSource "https://example.com/repo" "guestbook" "main" "" "" None) ∅.

(** A request at time [now] whose render, if reached, fails with ["boom"]
    ([plugin] tells whether the upload of the plugin path completes
    first). *)
Definition failingAt (now : Z) (plugin : bool) : World :=
  mkWorld (inl "abc123") resolveByName resolveByName lockAlways symlinksFine None None
    (inl "/tmp/_argocd-repo/1") None
    (inl "/tmp/_argocd-repo/1/guestbook") (inl "abc123") (inl "")
    (mkRenderRun plugin (inr "boom")) now now now.

Definition emptyCache : cache.Cache := cache.mkCache ∅ [].

(** Pause after 3 failures, for 1440 minutes or 2 requests. *)
Definition pause_3_1440_2 : RepoServerInitConstants :=
  mkRepoServerInitConstants 0 true 3 1440 2.

(** Pause after 1 failure, no exit by requests, none by time. *)
Definition pause_1_0_0 : RepoServerInitConstants :=
  mkRepoServerInitConstants 0 true 1 0 0.

(** Pause after 1 failure, for 1 minute or 5 requests. *)
Definition pause_1_1_5 : RepoServerInitConstants :=
  mkRepoServerInitConstants 0 true 1 1 5.

Definition thriceFailed : CachedManifestResponse.t :=
  CachedManifestResponse.mk None "boom" 100 3 0.

Definition outcomes (s : RepoServerInitConstants) (ws : list World)
    : list (option string * bool) :=
  (fun out => (snd (fst (fst out)), snd out))
    <$> (serve notOCI notHelm notRef sameURL refErrorText keyOfRevision s ws guestbook emptyCache).1.

(** With [pauseRequests = 0] the read that follows the recorded failure is
    served the memoised error, and so is every later one: the renderer is
    not called again.  With [pauseMinutes = 1] and [pauseRequests = 5] the
    read arriving a minute after the first failure renders again, after a
    single served error. *)
Lemma failure_backoff_other_exits :
  outcomes pause_1_0_0 [failingAt 100 false; failingAt 110 false; failingAt 120 false]
  = [ (Some "boom", true);
      (Some "Manifest generation error (cached): boom", false);
      (Some "Manifest generation error (cached): boom", false) ]
  /\ outcomes pause_1_1_5 [failingAt 100 false; failingAt 110 false; failingAt 160 false]
     = [ (Some "boom", true);
         (Some "Manifest generation error (cached): boom", false);
         (Some "boom", true) ].
Proof. split; vm_compute; reflexivity. Qed.

Lemma failure_backoff_by_requests_witness :
  (serve notOCI notHelm notRef sameURL refErrorText keyOfRevision pause_3_1440_2
     [failingAt 200 false; failingAt 300 false] guestbook
     (cache.mkCache {[ "abc123" := thriceFailed ]} [])).2
  = cache.mkCache
      (<["abc123" := withCachedResponsesReturned thriceFailed 2]>
         {[ "abc123" := thriceFailed ]}) []
  /\ rendered
       (GenerateManifest notOCI notHelm notRef sameURL refErrorText keyOfRevision pause_3_1440_2
          (failingAt 400 false) guestbook
          (serve notOCI notHelm notRef sameURL refErrorText keyOfRevision pause_3_1440_2
             [failingAt 200 false; failingAt 300 false] guestbook
             (cache.mkCache {[ "abc123" := thriceFailed ]} [])).2).2 = true.
Proof.
  destruct (failure_backoff_by_requests notOCI notHelm notRef sameURL refErrorText keyOfRevision
              pause_3_1440_2 guestbook "abc123" ∅ {[ "abc123" := thriceFailed ]}
              thriceFailed [failingAt 200 false; failingAt 300 false]
              (failingAt 400 false))
    as (_ & _ & Hcache & Hnext).
  - reflexivity.
  - reflexivity.
  - unfold pause_3_1440_2. cbn. lia.
  - unfold pause_3_1440_2, maxInt64. cbn. lia.
  - reflexivity.
  - reflexivity.
  - unfold thriceFailed. cbn. lia.
  - reflexivity.
  - unfold pause_3_1440_2. cbn. lia.
  - repeat constructor.
  - reflexivity.
  - reflexivity.
  - unfold reachesRender. cbn.
    split; [left; lia|]. split; [eexists; reflexivity|].
    split; [left; reflexivity|]. split; [intros _; eexists; reflexivity|].
    split; [intros _ _; split; [right; eexists; reflexivity|left; reflexivity]|].
    split; [reflexivity|]. intros sha. eexists. eexists. reflexivity.
  - split; [exact Hcache|]. apply Hnext. reflexivity.
Defined.

(** A request whose render succeeds. *)
Definition succeeding : World :=
  mkWorld (inl "abc123") resolveByName resolveByName lockAlways symlinksFine None None
    (inl "/tmp/_argocd-repo/1") None
    (inl "/tmp/_argocd-repo/1/guestbook") (inl "abc123") (inl "")
    (mkRenderRun false (inl (ManifestResponse.mk ["{}"] "Directory" [] "" "")))
    300 300 300.

Lemma success_resets_failure_record_witness :
  exists res,
    cache.entries
      (runManifestGenAsync sameURL refErrorText keyOfRevision pause_3_1440_2
         succeeding guestbook "abc123" "abc123"
         (inl ("/tmp/_argocd-repo/1/guestbook", ""))
         (foldl (fun c f => (recordFailure pause_3_1440_2 (fst f) "abc123" (snd f) c).2)
            emptyCache [(100, "boom"); (200, "bang")])).2 !! "abc123" = Some res
    /\ CachedManifestResponse.NumberOfConsecutiveFailures res = 0
    /\ CachedManifestResponse.MostRecentError res = "".
Proof.
  destruct (success_resets_failure_record sameURL refErrorText keyOfRevision
              pause_3_1440_2 succeeding guestbook "abc123" "abc123"
              "/tmp/_argocd-repo/1/guestbook" "" ∅ []
              (ManifestResponse.mk ["{}"] "Directory" [] "" "")
              [(100, "boom"); (200, "bang")] emptyCache)
    as (res & Hres & _ & Hn & _ & _ & He).
  - reflexivity.
  - reflexivity.
  - reflexivity.
  - exists res. split; [exact Hres|]. split; [exact Hn|exact He].
Defined.

(** ** The plugin path *)

(** A plugin render: the upload completes, then the plugin replies. *)
Definition pluginRun : World :=
  mkWorld (inl "abc123") resolveByName resolveByName lockAlways symlinksFine None None
    (inl "/tmp/_argocd-repo/1") None
    (inl "/tmp/_argocd-repo/1/guestbook") (inl "abc123") (inl "")
    (mkRenderRun true (inl (ManifestResponse.mk ["{}"] "Plugin" [] "" "")))
    100 100 100.

Example pluginRun_trace :
  trace (GenerateManifest notOCI notHelm notRef sameURL refErrorText keyOfRevision pause_3_1440_2
           pluginRun guestbook emptyCache).2
  = [ EvCacheProbe true; EvAcquire KindGit; EvCacheProbe false;
      EvRunManifestGen; EvAwait; EvRecv (MsgTarDone true);
      EvRelease KindGit;
      EvAwait;
      EvRecv (MsgResponse (ManifestResponse.mk ["{}"] "Plugin" [] "abc123" "")) ].
Proof. vm_compute. reflexivity. Qed.

Lemma lock_released_on_tarDone_witness :
  exists pre post,
    trace (GenerateManifest notOCI notHelm notRef sameURL refErrorText keyOfRevision pause_3_1440_2
             pluginRun guestbook emptyCache).2
    = (pre ++ EvRecv (MsgTarDone true) :: EvRelease KindGit :: post)%list
    /\ EvAcquire KindGit ∈ pre.
Proof.
  destruct (lock_released_on_tarDone notOCI notHelm notRef sameURL refErrorText keyOfRevision
              pause_3_1440_2 pluginRun guestbook emptyCache true)
    as (pre & post & Htr & Hacq & _).
  - vm_compute. repeat constructor.
  - exists pre, post. split; [exact Htr|exact Hacq].
Defined.

(** ** Referenced sources *)

(** Two references, [$a] and [$b], to one repository, at [v1] and [v2]. *)
Definition conflictingRefs : gmap string RefTarget :=
  {[ "$a" := mkRefTarget "https://example.com/values" "v1" "";
     "$b" := mkRefTarget "https://example.com/values" "v2" "" ]}.

Definition conflictingValues : ApplicationSourceHelm :=
  mkApplicationSourceHelm ["$a/values.yaml"; "values.yaml"; "$b/values.yaml"]
    [HelmFileParameter.mk "extra" "$a/more.yaml"].

Definition conflicting : ManifestRequest.t :=
  ManifestRequest.mk "main" false false false true
    (mkApplicationSource "https://example.com/repo" "guestbook" "main" "" ""
       (Some conflictingValues))
    conflictingRefs.

(** The render task fails with [InconsistentReferenceRevisions], and by
    then the referenced repository has been locked and checked out (for
    [v1]); the request returns the error after having acquired its own
    source too. *)
Lemma conflicting_reference_is_acquired_first :
  referencedCheckout sameURL pause_3_1440_2 (failingAt 100 false) conflicting "abc123"
  = RefsErr (InconsistentReferenceRevisions "$b" "v2" "$a" "v1")
      [("https://example.com/values", "sha-v1")]
  /\ (GenerateManifest notOCI notHelm notRef sameURL refErrorText keyOfRevision
        pause_3_1440_2 (failingAt 100 false) conflicting emptyCache).1
     = (None, Some "cannot reference multiple revisions for the same repository").
Proof. split; vm_compute; reflexivity. Qed.

Lemma inconsistent_reference_revisions_witness :
  (GenerateManifest notOCI notHelm notRef sameURL refErrorText keyOfRevision
     pause_3_1440_2 (failingAt 100 false) conflicting emptyCache).1
  = (None, Some "cannot reference multiple revisions for the same repository")
  /\ rendered
       (GenerateManifest notOCI notHelm notRef sameURL refErrorText keyOfRevision
          pause_3_1440_2 (failingAt 100 false) conflicting emptyCache).2 = false
  /\ store
       (GenerateManifest notOCI notHelm notRef sameURL refErrorText keyOfRevision
          pause_3_1440_2 (failingAt 100 false) conflicting emptyCache).2 = emptyCache
  /\ referencedCheckout sameURL pause_3_1440_2 (failingAt 100 false) conflicting "abc123"
     = RefsErr (InconsistentReferenceRevisions "$b" "v2" "$a" "v1")
         [("https://example.com/values", "sha-v1")].
Proof.
  destruct (inconsistent_reference_revisions notOCI notHelm notRef sameURL refErrorText
              keyOfRevision pause_3_1440_2 (failingAt 100 false) conflicting
              conflictingValues "abc123"
              {[ "https://example.com/values" := "sha-v1" ]} ∅
              ["$a/values.yaml"; "values.yaml"] ["$a/more.yaml"] "$b/values.yaml"
              {[ "https://example.com/values" := repoRef.mk "v1" "sha-v1" "$a" ]}
              [("https://example.com/values", "sha-v1")]
              (mkRefTarget "https://example.com/values" "v2" "")
              (repoRef.mk "v1" "sha-v1" "$a"))
    as (Hout & Hrendered & _ & Hstore & Hloop & _).
  - reflexivity.
  - reflexivity.
  - reflexivity.
  - reflexivity.
  - reflexivity.
  - vm_compute. reflexivity.
  - reflexivity.
  - reflexivity.
  - vm_compute. reflexivity.
  - right. apply lookup_empty.
  - unfold reachesTask. cbn.
    split; [left; lia|]. split; [discriminate|]. split; [eexists; reflexivity|].
    split; [left; reflexivity|]. split; [intros _; eexists; reflexivity|].
    split; [intros _ _; split; [left; reflexivity|left; reflexivity]|].
    reflexivity.
  - vm_compute. reflexivity.
  - vm_compute. reflexivity.
  - cbn. discriminate.
  - split; [exact Hout|]. split; [exact Hrendered|]. split; [exact Hstore|exact Hloop].
Defined.

(** ** Chart revisions *)

(** A stand-in for the semver library: three versions it knows, and the
    constraint ["^1"]. *)
Definition knownVersion (s : string) : option Version :=
  if String.eqb s "1.0.0" then Some (mkVersion 1 0 0)
  else if String.eqb s "1.2.0" then Some (mkVersion 1 2 0)
  else if String.eqb s "2.0.0" then Some (mkVersion 2 0 0)
  else None.

Definition knownConstraint (s : string) : option (Version -> bool) :=
  if String.eqb s "^1" then Some (fun v => Nat.eqb (major v) 1) else None.

Definition classicRegistry (_ : string) : bool := false.
Definition noTags (_ : string) (_ : bool) : list string + string := inr "no tags".
Definition theIndex (_ : bool) : unit + string := inl tt.
Definition indexTags (_ : unit) (_ : string) : list string + string :=
  inl ["1.0.0"; "2.0.0"; "1.2.0"; "latest"].

Definition resolveChart (revision : string) : string + string :=
  newHelmClientResolveRevision knownVersion knownConstraint classicRegistry unit
    noTags theIndex indexTags (mkRepository "https://charts.example.com" false)
    revision "guestbook" false.

Example resolveChart_examples :
  resolveChart "2.0.0" = inl "2.0.0"
  /\ resolveChart "^1" = inl "1.2.0"
  /\ resolveChart "^3" = inr "invalid revision: failed to determine semver constraint".
Proof. repeat split; vm_compute; reflexivity. Qed.


(** ** Lookups and removal of tokens *)

Lemma lookups_agree_after_NormalizeJWTTokens_witness :
  GetJWTTokenFromSpec (NormalizeJWTTokens inOrder twoRoles) "a" 7 "x"
  = GetJWTToken (NormalizeJWTTokens inOrder twoRoles) "a" 7 "x".
Proof.
  apply (lookups_agree_after_NormalizeJWTTokens inOrder twoRoles "a" 7 "x").
  - apply (bool_decide_unpack _). vm_compute. exact I.
  - apply (bool_decide_unpack _). vm_compute. exact I.
Defined.

Definition token1 : JWTToken := mkJWTToken 30 0 "1".
Definition token2 : JWTToken := mkJWTToken 20 0 "2".
Definition token3 : JWTToken := mkJWTToken 10 0 "3".

Definition threeTokens : ProjectRole := mkProjectRole "a" [token1; token2; token3].

(** A project whose role and status entry hold the same three tokens. *)
Definition inSync : AppProject :=
  projectWithRoles [threeTokens] (Some {[ "a" := [token1; token2; token3] ]}).

Lemma RemoveJWTToken_keeps_in_sync_witness :
  exists proj' tokens',
    RemoveJWTToken false inSync 0 (-1) "1" = Some (None, proj')
    /\ Roles (Spec proj') !! 0%nat = Some (mkProjectRole "a" tokens')
    /\ statusLookup (JWTTokensByRole (Status proj')) "a" = Some tokens'
    /\ tokens' ≡ₚ [token2; token3].
Proof.
  destruct (RemoveJWTToken_keeps_in_sync inSync 0 threeTokens (-1) "1" token1 0)
    as (proj' & tokens' & H1 & H2 & H3 & H4 & _).
  - apply (bool_decide_unpack _). vm_compute. exact I.
  - reflexivity.
  - vm_compute. reflexivity.
  - reflexivity.
  - exists proj', tokens'. split; [exact H1|]. split; [exact H2|].
    split; [exact H3|exact H4].
Defined.

Lemma RemoveJWTToken_shared_slice_witness :
  exists proj',
    RemoveJWTToken true inSync 0 (-1) "1" = Some (None, proj')
    /\ Roles (Spec proj') !! 0%nat = Some (mkProjectRole "a" [token3; token2])
    /\ statusLookup (JWTTokensByRole (Status proj')) "a"
       = Some [token3; token2; token3].
Proof.
  destruct (RemoveJWTToken_shared_slice inSync 0 threeTokens "1" token1 0)
    as (proj' & lastToken & H1 & H2 & H3 & H4 & _).
  - apply (bool_decide_unpack _). vm_compute. exact I.
  - reflexivity.
  - vm_compute. reflexivity.
  - apply (bool_decide_unpack _). vm_compute. exact I.
  - discriminate.
  - reflexivity.
  - reflexivity.
  - cbn. lia.
  - injection H2 as <-. exists proj'. split; [exact H1|]. split; [exact H3|exact H4].
Defined.

(** ** Groups of a role *)

Definition devRole : Role.t :=
  Role.mk "dev" ["p, proj:demo:dev, applications, get, demo/*, allow"] [] ["g1"].

Definition demo : Project.t :=
  Project.mk "demo" ["https://example.com/repo"]
    [ApplicationDestination.mk "https://kubernetes.default.svc" "demo" ""]
    [devRole] [] [] false [] None None None None (mkAppProjectStatus None).

Lemma AddGroupToRole_then_RemoveGroupFromRole_witness :
  (RoleBindings.AddGroupToRole demo "dev" "g2").1 = (true, None)
  /\ RoleBindings.RemoveGroupFromRole
       (RoleBindings.AddGroupToRole demo "dev" "g2").2 "dev" "g2"
     = ((true, None), demo).
Proof.
  apply (AddGroupToRole_then_RemoveGroupFromRole demo "dev" "g2" devRole 0).
  - reflexivity.
  - apply (bool_decide_unpack _). vm_compute. exact I.
Defined.

Lemma RemoveGroupFromRole_first_occurrence_witness :
  (RoleBindings.RemoveGroupFromRole demo "dev" "g1").1 = (true, None)
  /\ RoleBindings.GetRoleByName
       (RoleBindings.RemoveGroupFromRole demo "dev" "g1").2 "dev"
     = inl (RoleBindings.withGroups devRole [], 0%nat).
Proof.
  destruct (RemoveGroupFromRole_first_occurrence demo "dev" "g1" devRole 0)
    as (_ & Hfirst & _).
  - reflexivity.
  - apply (Hfirst 0%nat). split; [reflexivity|]. split; [reflexivity|].
    intros j y Hlt. lia.
Defined.

(** ** The cache probe and the render task *)

Lemma failures_below_threshold_do_not_pause_witness :
  getManifestCacheEntry pause_3_1440_2 300 "abc123" true
    (foldl (fun c f => (recordFailure pause_3_1440_2 (fst f) "abc123" (snd f) c).2)
       emptyCache [(100, "boom"); (200, "bang")])
  = ((false, None, None),
     foldl (fun c f => (recordFailure pause_3_1440_2 (fst f) "abc123" (snd f) c).2)
       emptyCache [(100, "boom"); (200, "bang")]).
Proof.
  destruct (failures_below_threshold_do_not_pause pause_3_1440_2 "abc123" ∅
              100 "boom" [(200, "bang")] 300 true) as [_ Hprobe].
  - reflexivity.
  - lia.
  - unfold pause_3_1440_2. cbn. lia.
  - unfold pause_3_1440_2, maxInt64. cbn. lia.
  - exact Hprobe.
Defined.

Definition onceFailed : CachedManifestResponse.t :=
  CachedManifestResponse.mk None "boom" 100 1 0.

Lemma failure_backoff_by_minutes_witness :
  getManifestCacheEntry pause_1_1_5 400 "abc123" true
    (cache.mkCache {[ "abc123" := onceFailed ]} [])
  = ((false, None, None), cache.mkCache (delete "abc123" {[ "abc123" := onceFailed ]}) [])
  /\ rendered
       (GenerateManifest notOCI notHelm notRef sameURL refErrorText keyOfRevision
          pause_1_1_5 (failingAt 400 false) guestbook
          (cache.mkCache {[ "abc123" := onceFailed ]} [])).2 = true.
Proof.
  apply (failure_backoff_by_minutes notOCI notHelm notRef sameURL refErrorText
           keyOfRevision pause_1_1_5 (failingAt 400 false) guestbook "abc123" ∅
           {[ "abc123" := onceFailed ]} onceFailed).
  - reflexivity.
  - reflexivity.
  - reflexivity.
  - reflexivity.
  - reflexivity.
  - unfold paused, pause_1_1_5, onceFailed. cbn. lia.
  - unfold pause_1_1_5. cbn. lia.
  - vm_compute. discriminate.
  - unfold reachesRender. cbn.
    split; [left; lia|]. split; [eexists; reflexivity|].
    split; [left; reflexivity|]. split; [intros _; eexists; reflexivity|].
    split; [intros _ _; split; [right; eexists; reflexivity|left; reflexivity]|].
    split; [reflexivity|]. intros sha. eexists. eexists. reflexivity.
Defined.

(** A request that takes its values from a referenced source. *)
Definition referencing : ManifestRequest.t :=
  ManifestRequest.mk "main" false false false true
    (mkApplicationSource "https://example.com/repo" "guestbook" "main" "" ""
       (Some (mkApplicationSourceHelm ["$a/values.yaml"] [])))
    {[ "$a" := mkRefTarget "https://example.com/values" "v1" "" ]}.

(** A key that tells the referenced commits apart. *)
Definition keyWithReferences (cacheKey : string) (_ : ManifestRequest.t)
    (refSourceCommitSHAs : gmap string string) : string :=
  cacheKey +:+ "|"
  +:+ String.concat "," ((fun kv => fst kv +:+ "=" +:+ snd kv)
                           <$> map_to_list refSourceCommitSHAs).

Lemma succeeding_stable : stableReferences succeeding referencing.
Proof. intros refVar m _. reflexivity. Qed.

Lemma succeeding_reachesRender :
  reachesRender notOCI notHelm sameURL pause_3_1440_2 succeeding referencing.
Proof.
  unfold reachesRender. cbn.
  split; [left; lia|]. split; [eexists; reflexivity|].
  split; [left; reflexivity|]. split; [intros _; eexists; reflexivity|].
  split; [intros _ _; split; [left; reflexivity|left; reflexivity]|].
  split; [reflexivity|]. intros sha. eexists. eexists. vm_compute. reflexivity.
Qed.

Lemma referenced_revisions_agree_witness :
  resolvedReferences sameURL succeeding referencing
  = inl {[ "https://example.com/values" := "sha-v1" ]}
  /\ keyWithReferences "abc123" referencing
       (repoRef.commitSHA
          <$> {[ "https://example.com/values" := repoRef.mk "v1" "sha-v1" "$a" ]})
     = keyWithReferences "abc123" referencing
         {[ "https://example.com/values" := "sha-v1" ]}.
Proof.
  destruct (referenced_revisions_agree sameURL keyWithReferences pause_3_1440_2
              succeeding referencing "abc123" "abc123"
              {[ "https://example.com/values" := repoRef.mk "v1" "sha-v1" "$a" ]}
              [("https://example.com/values", "sha-v1")]) as [Hagree Hkey].
  - exact succeeding_stable.
  - vm_compute. reflexivity.
  - split.
    + rewrite Hagree. vm_compute. reflexivity.
    + apply Hkey. vm_compute. reflexivity.
Defined.

(** The same request when the branch [v1] of the referenced repository
    moves between the two resolutions. *)
Definition movedReference : World :=
  mkWorld (inl "abc123") resolveByName
    (fun _ revision => inl ("moved-" +:+ revision)) lockAlways symlinksFine None None
    (inl "/tmp/_argocd-repo/1") None
    (inl "/tmp/_argocd-repo/1/guestbook") (inl "abc123") (inl "")
    (mkRenderRun false (inl (ManifestResponse.mk ["{}"] "Directory" [] "" "")))
    300 300 300.

(** The request probes the key of the commit found first, renders, and
    files the response under the key of the commit found second: the key it
    probed stays without entry. *)
Example moved_reference_is_filed_elsewhere :
  let t := (GenerateManifest notOCI notHelm notRef sameURL refErrorText keyWithReferences
              pause_3_1440_2 movedReference referencing emptyCache).2 in
  rendered t = true
  /\ cache.entries (store t) !! "abc123|https://example.com/values=sha-v1" = None
  /\ is_Some (cache.entries (store t) !! "abc123|https://example.com/values=moved-v1").
Proof.
  cbv zeta. split; [vm_compute; reflexivity|]. split; [vm_compute; reflexivity|].
  vm_compute. eexists. reflexivity.
Qed.

Lemma rendered_manifests_are_cached_witness :
  exists stamped t,
    GenerateManifest notOCI notHelm notRef sameURL refErrorText keyWithReferences
      pause_3_1440_2 succeeding referencing emptyCache = ((Some stamped, None), t)
    /\ ManifestResponse.Manifests stamped = ["{}"]
    /\ cache.entries (store t) !! "abc123|https://example.com/values=sha-v1"
       = Some (successEntry stamped)
    /\ GenerateManifest notOCI notHelm notRef sameURL refErrorText keyWithReferences
         pause_3_1440_2 (failingAt 400 false) referencing (store t)
       = ((Some stamped, None),
          mkTask (Some stamped) false [] false (store t) [EvCacheProbe true]).
Proof.
  destruct (rendered_manifests_are_cached notOCI notHelm notRef sameURL refErrorText
              keyWithReferences pause_3_1440_2 succeeding (failingAt 400 false)
              referencing "abc123" {[ "https://example.com/values" := "sha-v1" ]} ∅
              (ManifestResponse.mk ["{}"] "Directory" [] "" ""))
    as (stamped & t & H1 & H2 & _ & H4 & H5).
  - reflexivity.
  - reflexivity.
  - reflexivity.
  - vm_compute. reflexivity.
  - exact succeeding_stable.
  - apply lookup_empty.
  - exact succeeding_reachesRender.
  - reflexivity.
  - reflexivity.
  - vm_compute. reflexivity.
  - exists stamped, t. split; [exact H1|]. split; [exact H2|]. split; [|exact H5].
    rewrite H4. cbn [cache.entries].
    change (keyWithReferences "abc123" referencing
              {[ "https://example.com/values" := "sha-v1" ]})
      with "abc123|https://example.com/values=sha-v1".
    apply lookup_insert_eq.
Defined.

Definition guestbookNoCache : ManifestRequest.t :=
  ManifestRequest.mk "main" true false false false
    (mkApplicationSource "https://example.com/repo" "guestbook" "main" "" "" None) ∅.

Lemma NoCache_never_probes_witness :
  EvCacheProbe true
  ∉ trace (GenerateManifest notOCI notHelm notRef sameURL refErrorText keyOfRevision
             pause_3_1440_2 succeeding guestbookNoCache
             (cache.mkCache {[ "abc123" := thriceFailed ]} [])).2.
Proof.
  apply (NoCache_never_probes notOCI notHelm notRef sameURL refErrorText keyOfRevision
           pause_3_1440_2 succeeding guestbookNoCache
           (cache.mkCache {[ "abc123" := thriceFailed ]} [])).
  reflexivity.
Defined.

(** ** Fetching revisions *)

(** A repository as the list of the revisions it has; every fetch succeeds
    and adds the revision asked for. *)
Definition hasRevision (revision : string) (g : list string) : bool :=
  bool_decide (revision ∈ g).

Definition fetchAdds (revision : string) (g : list string)
    : option string * list string := (None, revision :: g).

Lemma fetch_leaves_revisions_present_witness :
  fetch (list string) hasRevision fetchAdds ["v1"; "v2"] ["v1"]
  = (None, ["v2"; ""; "v1"])
  /\ hasRevision "v2" ["v2"; ""; "v1"] = true.
Proof.
  split; [reflexivity|].
  destruct (fetch_leaves_revisions_present (list string) hasRevision fetchAdds
              ["v1"; "v2"] ["v1"] ["v2"; ""; "v1"]) as [Hpresent _].
  - intros revision g g' [= <-] _. apply bool_decide_eq_true. apply list_elem_of_here.
  - intros revision g e g' present [= <- <-] Hin. apply bool_decide_eq_true.
    apply list_elem_of_further. by apply bool_decide_eq_true in Hin.
  - apply (bool_decide_unpack _). vm_compute. exact I.
  - reflexivity.
  - apply Hpresent. apply (bool_decide_unpack _). vm_compute. exact I.
Defined.

(** ** Token ids after normalisation *)

Lemma NormalizeJWTTokens_fills_ids_witness :
  Forall (fun token => ID token <> "")
    (roleTokensAt (NormalizeJWTTokens inOrder twoRoles) 0).
Proof.
  apply Forall_forall. intros token Hin. unfold roleTokensAt in Hin.
  destruct (Roles (Spec (NormalizeJWTTokens inOrder twoRoles)) !! 0%nat)
    as [role|] eqn:E; [|by apply elem_of_nil in Hin].
  apply (NormalizeJWTTokens_fills_ids inOrder twoRoles) with 0%nat role.
  - apply (bool_decide_unpack _). vm_compute. exact I.
  - exact E.
  - by left.
Defined.
